(** * Additive synthesis engine of the chord ear trainer

    A shallow embedding of [ChordRecognitionApp.calc_B], [play_chord],
    [_play] and the stream [callback] of [chord_trainer.py], over the
    real numbers; and, further down, of the steps of the trainer that
    choose what is played ([load_preset_file], [random_preset],
    [next_chord], [replay_chord]) and of its [ToolTip].

    Conventions of the embedding.
    - A Python or numpy float is a real number ([R]): rounding and
      overflow are not modelled.  The operations that leave the reals
      in Python are modelled explicitly, see [outcome].
    - The numpy arrays of shape [(P,)] are lists; the broadcast
      [(P, frames)] matrices of the callback are computed column by
      column (one column per output sample).
    - The closure variables of [callback] form the record [Session];
      the callback is a state transformer on it.
    - [np.random.uniform] reads the global generator: the generator is
      a stream of unit-interval draws with a read position.
    - [eval] is taken as a function from the text of a ratio to a
      number or an exception; the frame count the stream passes to the
      callback is a natural number. *)

From Stdlib Require Import String Ascii Bool ZArith List Reals Lra Lia.
Import ListNotations.

Open Scope R_scope.

(** ** Outcomes of Python code *)

Inductive exn : Set :=
| NameError
| SyntaxError
| ZeroDivisionError
| ValueError.

(** [Ok a]: the code runs on with the real value [a].
    [Raise e]: a Python exception propagates.
    [NotReal]: no exception, but an operation left the real numbers
    (numpy division by zero or square root of a negative number, which
    only warn and give inf or nan; a float power with a complex
    result); the code runs on with values the model does not follow. *)
Inductive outcome (A : Type) : Type :=
| Ok (a : A)
| Raise (e : exn)
| NotReal.

Arguments Ok {A} a.
Arguments Raise {A} e.
Arguments NotReal {A}.

Definition bind {A B : Type} (m : outcome A) (f : A -> outcome B) : outcome B :=
  match m with
  | Ok a => f a
  | Raise e => Raise e
  | NotReal => NotReal
  end.

Notation "x <- m ;; k" := (bind m (fun x => k))
  (at level 61, m at next level, right associativity).

Fixpoint mapM {A B : Type} (f : A -> outcome B) (l : list A) : outcome (list B) :=
  match l with
  | [] => Ok []
  | a :: l' => b <- f a ;; bs <- mapM f l' ;; Ok (b :: bs)
  end.

(** ** Float operations *)

(** Python [x / y] on floats: raises on a zero divisor. *)
Definition py_div (x y : R) : outcome R :=
  if Req_dec_T y 0 then Raise ZeroDivisionError else Ok (x / y).

(** Python [x ** y] on floats. *)
Definition py_pow (x y : R) : outcome R :=
  if Rlt_dec 0 x then Ok (Rpower x y)
  else if Req_dec_T x 0 then
    if Rlt_dec 0 y then Ok 0
    else if Req_dec_T y 0 then Ok 1
    else Raise ZeroDivisionError
  else if Req_dec_T y (IZR (Int_part y)) then Ok (powerRZ x (Int_part y))
  else NotReal.

(** numpy [x / y]: warns on a zero divisor and gives inf or nan. *)
Definition np_div (x y : R) : outcome R :=
  if Req_dec_T y 0 then NotReal else Ok (x / y).

(** [np.sqrt]: warns on a negative argument and gives nan. *)
Definition np_sqrt (x : R) : outcome R :=
  if Rlt_dec x 0 then NotReal else Ok (sqrt x).

(** numpy [k ** p] for an integer [k >= 1] of [np.arange(1, n + 1)]
    and a float [p]. *)
Definition np_pow (k : Z) (p : R) : R := Rpower (IZR k) p.

(** numpy [x % y] (floored remainder) for a positive [y]. *)
Definition np_mod (x y : R) : R := x - IZR (Int_part (x / y)) * y.

(** [np.sum] *)
Definition np_sum (l : list R) : R := fold_right Rplus 0 l.

(** [np.arange(1, n + 1)] *)
Definition arange1 (n : Z) : list Z := map Z.of_nat (seq 1 (Z.to_nat n)).

(** ** The application object *)

(** The fields of [self] read by the synthesis code. *)
Record App : Type := mkApp {
  fs : Z;
  n_harmonics : Z;
  jitter : R;
  rolloff_coeff : R;
  decay_time : R;
  decay_exponent : R;
  duration : R;
  base_freq : R;
  f0 : R;
  B0 : R;
  beta : R
}.

(** [calc_B]: [self.B0 * (f / self.f0)**self.beta] *)
Definition calc_B (self : App) (f : R) : outcome R :=
  q <- py_div f (f0 self) ;;
  w <- py_pow q (beta self) ;;
  Ok (B0 self * w).

(** ** The state captured by the callback *)

Record Session : Type := mkSession {
  s_fs : Z;
  f_list : list R;
  amp_list : list R;
  tau_list : list R;
  norm : R;
  phases : list R;
  t_cur : R
}.

(** What a call of [play_chord] gives: what its caller gets back, and
    what the body of the thread it started comes to. *)
Record Spawned (A : Type) : Type := mkSpawned {
  caller_gets : outcome unit;
  thread_runs : outcome A
}.

Arguments caller_gets {A} _.
Arguments thread_runs {A} _.

Section Synthesis.

(** Python's [eval] on a ratio expression: a number, or an exception. *)
Variable eval : string -> outcome R.

(** The draws of the global generator, each in the unit interval, as
    [random_sample] gives them. *)
Variable rng : nat -> R.

(** [np.random.uniform(low, high, size=n)] read at position [pos]. *)
Definition uniform (low high : R) (n pos : nat) : list R :=
  map (fun i => low + (high - low) * rng (pos + i)%nat) (seq 0 n).

(** Number of draws one iteration of the ratio loop takes. *)
Definition draws (self : App) : nat :=
  if Rlt_dec 0 (jitter self) then List.length (arange1 (n_harmonics self)) else 0%nat.

(** [pitch * k * np.sqrt(1 + B * k**2)] at one [k] *)
Definition stretched (pitch B : R) (k : Z) : outcome R :=
  s <- np_sqrt (1 + B * IZR (k ^ 2)) ;;
  Ok (pitch * IZR k * s).

(** Elementwise sum of two arrays of one shape. *)
Definition np_add (a b : list R) : list R :=
  map (fun xy => fst xy + snd xy) (combine a b).

(** The body of the loop [for r in ratios]: the three arrays it
    appends. *)
Definition ratio_partials (self : App) (r : string) (pos : nat)
  : outcome (list R * list R * list R) :=
  m <- eval r ;;
  let pitch := base_freq self * m in
  B <- calc_B self pitch ;;
  let k := arange1 (n_harmonics self) in
  f_k <- mapM (stretched pitch B) k ;;
  let f_k :=
    if Rlt_dec 0 (jitter self)
    then np_add f_k (uniform (- jitter self) (jitter self) (List.length f_k) pos)
    else f_k in
  let amp := map (fun ki => 1 / np_pow ki (rolloff_coeff self)) k in
  let tauk := map (fun ki => decay_time self / np_pow ki (decay_exponent self)) k in
  Ok (f_k, amp, tauk).

(** The loop over the ratios.  An iteration that left the reals does
    not stop the loop: an exception of a later iteration still
    propagates. *)
Fixpoint partial_lists (self : App) (ratios : list string) (pos : nat)
  : outcome (list (list R) * list (list R) * list (list R)) :=
  match ratios with
  | [] => Ok ([], [], [])
  | r :: ratios' =>
      let rest := partial_lists self ratios' (pos + draws self)%nat in
      match ratio_partials self r pos with
      | Ok (f_k, amp, tauk) =>
          match rest with
          | Ok (fl, al, tl) => Ok (f_k :: fl, amp :: al, tauk :: tl)
          | Raise e => Raise e
          | NotReal => NotReal
          end
      | Raise e => Raise e
      | NotReal =>
          match rest with
          | Raise e => Raise e
          | _ => NotReal
          end
      end
  end.

(** [np.concatenate]: raises on an empty list of arrays. *)
Definition np_concatenate (ls : list (list R)) : outcome (list R) :=
  match ls with
  | [] => Raise ValueError
  | _ => Ok (concat ls)
  end.

(** [_play] up to the opening of the output stream: the state the
    callback starts from. *)
Definition _play (self : App) (ratios : list string) (pos : nat) : outcome Session :=
  match partial_lists self ratios pos with
  | Raise e => Raise e
  | NotReal => NotReal
  | Ok (fl, al, tl) =>
      f_list <- np_concatenate fl ;;
      amp_list <- np_concatenate al ;;
      tau_list <- np_concatenate tl ;;
      norm <- np_div 0.3 (np_sum amp_list) ;;
      Ok {| s_fs := fs self;
            f_list := f_list;
            amp_list := amp_list;
            tau_list := tau_list;
            norm := norm;
            phases := map (fun _ => 0) f_list;
            t_cur := 0 |}
  end.

(** [play_chord]: starts a daemon thread on [_play] and returns. *)
Definition play_chord (self : App) (ratios : list string) (pos : nat) : Spawned Session :=
  {| caller_gets := Ok tt;
     thread_runs := _play self ratios pos |}.

End Synthesis.

(** ** The stream callback *)

(** [np.arange(frames, dtype=np.float32) / fs] *)
Definition block_times (fs : Z) (frames : nat) : list R :=
  map (fun i => INR i / IZR fs) (seq 0 frames).

(** One entry of [np.exp(-(t_cur + t) / tau_list)], at the time
    [x = t_cur + t]. *)
Definition envelope (tau x : R) : outcome R :=
  q <- np_div (- x) tau ;;
  Ok (exp q).

(** The rows of the [(P, frames)] matrices: one per partial. *)
Definition rows (s : Session) : list (R * R * (R * R)) :=
  combine (combine (phases s) (f_list s)) (combine (amp_list s) (tau_list s)).

(** One entry of [amp_list * env * sines]. *)
Definition partial_sample (t_cur ti : R) (row : R * R * (R * R)) : outcome R :=
  let '(phase, f, (amp, tau)) := row in
  e <- envelope tau (t_cur + ti) ;;
  Ok (amp * e * sin (phase + 2 * PI * f * ti)).

(** One entry of [norm * block]. *)
Definition sample (s : Session) (ti : R) : outcome R :=
  terms <- mapM (partial_sample (t_cur s) ti) (rows s) ;;
  Ok (norm s * np_sum terms).

(** The two in-place updates that end the callback. *)
Definition advance (s : Session) (frames : nat) : Session :=
  let dt := INR frames / IZR (s_fs s) in
  {| s_fs := s_fs s;
     f_list := f_list s;
     amp_list := amp_list s;
     tau_list := tau_list s;
     norm := norm s;
     phases := map (fun pf => np_mod (fst pf + 2 * PI * snd pf * dt) (2 * PI))
                   (combine (phases s) (f_list s));
     t_cur := t_cur s + dt |}.

(** [callback(outdata, frames, time, status)]: the samples written to
    [outdata] and the state it leaves (the print of a stream status is
    left out).  [frames / fs] on Python numbers raises for [fs = 0],
    before [phases] and [t_cur] are assigned. *)
Definition callback (s : Session) (frames : nat) : outcome (list R) * Session :=
  if (s_fs s =? 0)%Z then (Raise ZeroDivisionError, s)
  else (mapM (sample s) (block_times (s_fs s) frames), advance s frames).

(** The output stream calling back once per block, for the given
    block lengths; an exception in the callback aborts the stream. *)
Fixpoint output_stream (s : Session) (blocks : list nat)
  : list (outcome (list R)) * Session :=
  match blocks with
  | [] => ([], s)
  | frames :: blocks' =>
      let (o, s') := callback s frames in
      match o with
      | Raise _ => ([o], s')
      | _ => let (os, s'') := output_stream s' blocks' in (o :: os, s'')
      end
  end.

(** ** Ratio expressions

    [eval] is a parameter of the synthesis code above.  [eval_ratio]
    is Python's [eval] on the expressions the ratio lists are made of:
    decimal literals such as ["1.5"] and quotients of two of them such
    as ["3/2"].  A bare word of letters is read as a name that is not
    bound where [_play] calls [eval], as ["abc"] is (the locals of
    [_play] and the builtins are bound: the facts below use no such
    word).  Any other text is taken to be a syntax error; the theorems
    hold for every [eval] and use [eval_ratio] at concrete chords
    only. *)

Definition is_digit (c : ascii) : bool :=
  ((48 <=? nat_of_ascii c) && (nat_of_ascii c <=? 57))%nat.

Definition is_letter (c : ascii) : bool :=
  (((65 <=? nat_of_ascii c) && (nat_of_ascii c <=? 90))
   || ((97 <=? nat_of_ascii c) && (nat_of_ascii c <=? 122)))%nat.

Fixpoint digits_val (cs : list ascii) (acc : Z) : option Z :=
  match cs with
  | [] => Some acc
  | c :: cs' =>
      if is_digit c
      then digits_val cs' (10 * acc + Z.of_nat (nat_of_ascii c - 48))%Z
      else None
  end.

Fixpoint split_at (sep : ascii) (cs : list ascii) : option (list ascii * list ascii) :=
  match cs with
  | [] => None
  | c :: cs' =>
      if Ascii.eqb c sep then Some ([], cs')
      else match split_at sep cs' with
           | Some (l, r) => Some (c :: l, r)
           | None => None
           end
  end.

(** A decimal literal as a fraction: numerator and power of ten. *)
Definition literal (cs : list ascii) : option (Z * Z) :=
  match split_at "."%char cs with
  | None =>
      match cs with
      | [] => None
      | _ => option_map (fun n => (n, 1%Z)) (digits_val cs 0)
      end
  | Some (ip, fp) =>
      match ip ++ fp with
      | [] => None
      | ds => option_map (fun n => (n, (10 ^ Z.of_nat (List.length fp))%Z)) (digits_val ds 0)
      end
  end.

Definition frac (q : Z * Z) : R := IZR (fst q) / IZR (snd q).

Definition eval_chars (cs : list ascii) : outcome R :=
  match literal cs with
  | Some q => Ok (frac q)
  | None =>
      match split_at "/"%char cs with
      | Some (l, r) =>
          match literal l, literal r with
          | Some a, Some b =>
              if (fst b =? 0)%Z then Raise ZeroDivisionError
              else Ok (frac a / frac b)
          | _, _ => Raise SyntaxError
          end
      | None =>
          match cs with
          | [] => Raise SyntaxError
          | _ => if forallb is_letter cs then Raise NameError else Raise SyntaxError
          end
      end
  end.

Definition eval_ratio (r : string) : outcome R :=
  eval_chars (list_ascii_of_string r).

(** ** Notions of the statements *)

(** The value of one entry of [amp_list * env * sines] when the decay
    constant is not zero. *)
Definition partial_value (t_cur ti : R) (row : R * R * (R * R)) : R :=
  let '(phase, f, (amp, tau)) := row in
  amp * exp (- (t_cur + ti) / tau) * sin (phase + 2 * PI * f * ti).

Definition sample_value (s : Session) (ti : R) : R :=
  norm s * np_sum (map (partial_value (t_cur s) ti) (rows s)).

Definition nonzero (x : R) : Prop := x <> 0.

(** The phase a partial is left with after [frames] frames. *)
Definition next_phase (fs : Z) (frames : nat) (pf : R * R) : R :=
  np_mod (fst pf + 2 * PI * snd pf * (INR frames / IZR fs)) (2 * PI).

(** A phase within one turn. *)
Definition in_turn (phase : R) : Prop := 0 <= phase < 2 * PI.

(** The arrays and the constant the callback only reads. *)
Definition same_partials (s s' : Session) : Prop :=
  f_list s' = f_list s /\ amp_list s' = amp_list s /\
  tau_list s' = tau_list s /\ norm s' = norm s.

(** ** The partial set in closed form *)

Section ClosedForm.

Variable eval : string -> outcome R.
Variable rng : nat -> R.
Variable self : App.

(** The multiplier a ratio expression evaluates to. *)
Definition ratio_value (r : string) : R :=
  match eval r with
  | Ok m => m
  | _ => 0
  end.

Definition pitch_of (r : string) : R := base_freq self * ratio_value r.

(** [B = B0 * (pitch / f0) ^ beta] *)
Definition inharmonicity (pitch : R) : R :=
  B0 self * Rpower (pitch / f0 self) (beta self).

(** [pitch * k * sqrt (1 + B * k^2)] *)
Definition frequency (pitch : R) (k : Z) : R :=
  pitch * IZR k * sqrt (1 + inharmonicity pitch * IZR k ^ 2).

(** [1 / k^p] *)
Definition amplitude (k : Z) : R := 1 / Rpower (IZR k) (rolloff_coeff self).

(** [tau0 / k^d] *)
Definition decay_constant (k : Z) : R :=
  decay_time self / Rpower (IZR k) (decay_exponent self).

Definition harmonics : list Z := arange1 (n_harmonics self).

(** The frequencies before the jitter, ratio after ratio. *)
Definition unperturbed (ratios : list string) : list R :=
  flat_map (fun r => map (frequency (pitch_of r)) harmonics) ratios.

(** The jitter step on an array, read at [pos]. *)
Definition perturb (l : list R) (pos : nat) : list R :=
  if Rlt_dec 0 (jitter self)
  then np_add l (uniform rng (- jitter self) (jitter self) (List.length l) pos)
  else l.

(** A ratio expression that evaluates to a positive multiplier. *)
Definition positive_ratio (r : string) : Prop :=
  exists m, eval r = Ok m /\ 0 < m.

(** The parameters of the inharmonicity law in their ranges. *)
Definition stretch_defined : Prop :=
  0 < base_freq self /\ 0 < f0 self /\ 0 <= B0 self.

(** The arrays the loop appends, one per ratio. *)
Fixpoint perturbed_blocks (ratios : list string) (pos : nat) : list (list R) :=
  match ratios with
  | [] => []
  | r :: ratios' =>
      perturb (map (frequency (pitch_of r)) harmonics) pos
      :: perturbed_blocks ratios' (pos + draws self)
  end.

(** The amplitudes before normalization, ratio after ratio. *)
Definition amplitudes (ratios : list string) : list R :=
  concat (map (fun _ : string => map amplitude harmonics) ratios).

Definition decay_constants (ratios : list string) : list R :=
  concat (map (fun _ : string => map decay_constant harmonics) ratios).

(** The session [_play] starts from, on well-formed input. *)
Definition built_session (ratios : list string) (pos : nat) : Session :=
  {| s_fs := fs self;
     f_list := perturb (unperturbed ratios) pos;
     amp_list := amplitudes ratios;
     tau_list := decay_constants ratios;
     norm := 0.3 / np_sum (amplitudes ratios);
     phases := map (fun _ => 0) (perturb (unperturbed ratios) pos);
     t_cur := 0 |}.

End ClosedForm.

(** ** Concrete chords *)

(** The scenario of the specification: base 220 Hz, one harmonic,
    rolloff 1, decay time 1 s, decay exponent 0, no inharmonicity. *)
Definition scenario : App :=
  {| fs := 44100; n_harmonics := 1; jitter := 0; rolloff_coeff := 1;
     decay_time := 1; decay_exponent := 0; duration := 1;
     base_freq := 220; f0 := 440; B0 := 0; beta := 1 |}.

Definition four_harmonics : App :=
  {| fs := 44100; n_harmonics := 4; jitter := 0; rolloff_coeff := 1;
     decay_time := 1; decay_exponent := 1; duration := 1;
     base_freq := 220; f0 := 440; B0 := 0; beta := 1 |}.

(** A low base pitch with a jitter above it. *)
Definition wide_jitter : App :=
  {| fs := 44100; n_harmonics := 1; jitter := 30; rolloff_coeff := 1;
     decay_time := 1; decay_exponent := 0; duration := 1;
     base_freq := 20; f0 := 440; B0 := 0; beta := 1 |}.


(** A generator that always draws 0, and one that always draws 1/2. *)
Definition draws_low : nat -> R := fun _ => 0.
Definition draws_mid : nat -> R := fun _ => 0.5.

(** The session of the scenario for the ratios ["1.0"] and ["1.5"]. *)
Definition two_partials : Session :=
  {| s_fs := 44100; f_list := [220; 330]; amp_list := [1; 1];
     tau_list := [1; 1]; norm := 0.15; phases := [0; 0]; t_cur := 0 |}.

(** ** Notions of the further facts on the stream *)

(** A sample within the headroom of the normalization. *)
Definition within_headroom (x : R) : Prop := Rabs x <= 0.3.

(** A block that was rendered, with every sample in [P]. *)
Definition rendered (P : R -> Prop) (o : outcome (list R)) : Prop :=
  match o with
  | Ok out => Forall P out
  | _ => False
  end.

(** A session whose decay constants are positive and at most [T > 0],
    whose amplitudes are positive and normalized to 0.3, at a positive
    sample rate and an elapsed time that is not negative. *)
Definition headroom_kept (T : R) (s : Session) : Prop :=
  0 < T /\
  (0 < s_fs s)%Z /\
  Forall (fun tau => 0 < tau <= T) (tau_list s) /\
  Forall (fun a => 0 < a) (amp_list s) /\
  0 < np_sum (amp_list s) /\
  norm s = 0.3 / np_sum (amp_list s) /\
  0 <= t_cur s.

(** The four arrays of a session with [n] entries each. *)
Definition aligned (n : nat) (s : Session) : Prop :=
  List.length (f_list s) = n /\ List.length (amp_list s) = n /\
  List.length (tau_list s) = n /\ List.length (phases s) = n.

(** ** The trainer around the synthesis

    The part of [ChordRecognitionApp] that chooses what is played: the
    chord database, the grid of chords on offer, and the steps that
    load a grid, pick a chord and a base pitch, and start the playback.
    The calls on widgets are left out.  A chord of the database is an
    object with the keys ["name"], ["repr"], ["short"] and ["ratios"];
    a character of a text is a code point below 256. *)

Inductive error : Set :=
| Exn (e : exn)
| IndexError.

(** [Done a]: the step returns.  [Fail e]: it raises.  [Unfollowed]: a
    ratio evaluated to inf, nan or a complex number, and what
    [math.log2] does with it is not followed. *)
Inductive result (A : Type) : Type :=
| Done (a : A)
| Fail (e : error)
| Unfollowed.

Arguments Done {A} a.
Arguments Fail {A} e.
Arguments Unfollowed {A}.

Fixpoint mapR {A B : Type} (f : A -> result B) (l : list A) : result (list B) :=
  match l with
  | [] => Done []
  | a :: l' =>
      match f a with
      | Done b =>
          match mapR f l' with
          | Done bs => Done (b :: bs)
          | Fail e => Fail e
          | Unfollowed => Unfollowed
          end
      | Fail e => Fail e
      | Unfollowed => Unfollowed
      end
  end.

Record Chord : Type := mkChord {
  name : string;
  repr : string;
  short : string;
  ratios : list string
}.

(** The fields of [self] the trainer steps read and assign; [synth]
    holds the ones the synthesis reads, [base_freq] among them. *)
Record Trainer : Type := mkTrainer {
  synth : App;
  chords : list Chord;
  grid_names : list (list string);
  grid_indices : list (list nat);
  flat_indices : list nat;
  current_chord_idx : option nat;
  random_w : Z;
  random_h : Z;
  pitch : R;
  min_pitch : R;
  max_pitch : R
}.

(** Assignments to fields of [self]. *)
Definition set_grid_names (st : Trainer) (v : list (list string)) : Trainer :=
  mkTrainer (synth st) (chords st) v (grid_indices st) (flat_indices st)
            (current_chord_idx st) (random_w st) (random_h st)
            (pitch st) (min_pitch st) (max_pitch st).

Definition set_grid_indices (st : Trainer) (v : list (list nat)) : Trainer :=
  mkTrainer (synth st) (chords st) (grid_names st) v (flat_indices st)
            (current_chord_idx st) (random_w st) (random_h st)
            (pitch st) (min_pitch st) (max_pitch st).

Definition set_flat_indices (st : Trainer) (v : list nat) : Trainer :=
  mkTrainer (synth st) (chords st) (grid_names st) (grid_indices st) v
            (current_chord_idx st) (random_w st) (random_h st)
            (pitch st) (min_pitch st) (max_pitch st).

Definition set_current_chord_idx (st : Trainer) (v : option nat) : Trainer :=
  mkTrainer (synth st) (chords st) (grid_names st) (grid_indices st) (flat_indices st)
            v (random_w st) (random_h st)
            (pitch st) (min_pitch st) (max_pitch st).

Definition set_base_freq (st : Trainer) (v : R) : Trainer :=
  let a := synth st in
  mkTrainer (mkApp (fs a) (n_harmonics a) (jitter a) (rolloff_coeff a) (decay_time a)
                   (decay_exponent a) (duration a) v (f0 a) (B0 a) (beta a))
            (chords st) (grid_names st) (grid_indices st) (flat_indices st)
            (current_chord_idx st) (random_w st) (random_h st)
            (pitch st) (min_pitch st) (max_pitch st).

(** *** Text *)

(** [str.isspace] on a code point below 256. *)
Definition str_isspace (c : ascii) : bool :=
  let n := nat_of_ascii c in
  (((9 <=? n) && (n <=? 13)) || ((28 <=? n) && (n <=? 32))
   || (n =? 133) || (n =? 160))%nat.

Fixpoint str_lstrip (s : string) : string :=
  match s with
  | EmptyString => EmptyString
  | String c s' => if str_isspace c then str_lstrip s' else s
  end.

Fixpoint str_rstrip (s : string) : string :=
  match s with
  | EmptyString => EmptyString
  | String c s' =>
      match str_rstrip s' with
      | EmptyString => if str_isspace c then EmptyString else String c EmptyString
      | t => String c t
      end
  end.

(** [s.strip()] *)
Definition str_strip (s : string) : string := str_rstrip (str_lstrip s).

(** [s.split(sep)] for a separator of one character. *)
Fixpoint str_split (sep : ascii) (s : string) : list string :=
  match s with
  | EmptyString => [EmptyString]
  | String c s' =>
      if Ascii.eqb c sep then EmptyString :: str_split sep s'
      else match str_split sep s' with
           | p :: ps => String c p :: ps
           | [] => [String c EmptyString]
           end
  end.

(** The truth value of a text: it is not empty. *)
Definition str_bool (s : string) : bool :=
  match s with
  | EmptyString => false
  | _ => true
  end.

(** *** [load_preset_file]

    [lines] is the text of the preset file after [splitlines]. *)

(** The body of the loop over the lines: the row a line adds, if it
    adds one. *)
Definition preset_row (line : string) : option (list string) :=
  let line := str_strip line in
  if str_bool line
  then Some (map str_strip
                 (filter (fun p => str_bool (str_strip p)) (str_split ";" line)))
  else None.

Fixpoint preset_rows (lines : list string) : list (list string) :=
  match lines with
  | [] => []
  | line :: lines' =>
      match preset_row line with
      | Some parts => parts :: preset_rows lines'
      | None => preset_rows lines'
      end
  end.

(** [next((j for j, c in enumerate(chords) if c["short"] == short), None)],
    counting from [j]. *)
Fixpoint find_short (cs : list Chord) (s : string) (j : nat) : option nat :=
  match cs with
  | [] => None
  | c :: cs' => if String.eqb (short c) s then Some j else find_short cs' s (S j)
  end.

(** The inner loop: the indices of one row. *)
Fixpoint index_row (cs : list Chord) (row : list string) : result (list nat) :=
  match row with
  | [] => Done []
  | s :: row' =>
      match find_short cs s 0 with
      | None => Fail (Exn ValueError)
      | Some i =>
          match index_row cs row' with
          | Done idx_row => Done (i :: idx_row)
          | Fail e => Fail e
          | Unfollowed => Unfollowed
          end
      end
  end.

(** The outer loop: the rows appended to [self.grid_indices] and how
    the loop ends. *)
Fixpoint index_rows (cs : list Chord) (rows : list (list string))
  : list (list nat) * result unit :=
  match rows with
  | [] => ([], Done tt)
  | row :: rows' =>
      match index_row cs row with
      | Done idx_row =>
          let (g, r) := index_rows cs rows' in (idx_row :: g, r)
      | Fail e => ([], Fail e)
      | Unfollowed => ([], Unfollowed)
      end
  end.

Definition load_preset_file (st : Trainer) (lines : list string)
  : result unit * Trainer :=
  let st := set_grid_names st (preset_rows lines) in
  let (g, r) := index_rows (chords st) (grid_names st) in
  let st := set_grid_indices st g in
  match r with
  | Done _ => (Done tt, set_flat_indices st (concat g))
  | Fail e => (Fail e, st)
  | Unfollowed => (Unfollowed, st)
  end.

(** *** [random_preset]

    [sel] is the list [random.sample] returns when it returns. *)

(** [l[a:b]] *)
Definition py_slice {A : Type} (l : list A) (a b : Z) : list A :=
  let n := Z.of_nat (List.length l) in
  let clamp i := if (i <? 0)%Z then Z.max (i + n) 0 else Z.min i n in
  firstn (Z.to_nat (clamp b - clamp a)) (skipn (Z.to_nat (clamp a)) l).

(** [range(h)] *)
Definition py_range (h : Z) : list Z := map Z.of_nat (seq 0 (Z.to_nat h)).

(** [self.chords[idx]["repr"]] *)
Definition chord_repr (cs : list Chord) (idx : nat) : result string :=
  match nth_error cs idx with
  | Some c => Done (repr c)
  | None => Fail IndexError
  end.

Definition random_preset (st : Trainer) (sel : list nat) : result unit * Trainer :=
  let w := random_w st in
  let h := random_h st in
  let k := (w * h)%Z in
  if ((k <? 0) || (Z.of_nat (List.length (chords st)) <? k))%Z
  then (Fail (Exn ValueError), st)
  else
    let grid := map (fun i => py_slice sel (i * w) ((i + 1) * w)) (py_range h) in
    let st := set_grid_indices st grid in
    match mapR (mapR (chord_repr (chords st))) grid with
    | Done names => (Done tt, set_flat_indices (set_grid_names st names) (concat grid))
    | Fail e => (Fail e, st)
    | Unfollowed => (Unfollowed, st)
    end.

(** *** [next_chord] and [replay_chord] *)

(** [random.choice(l)], [j] being what the generator draws: any
    position of [l] is [j mod len(l)] for some [j]. *)
Definition choice {A : Type} (l : list A) (j : nat) : result A :=
  match l with
  | [] => Fail IndexError
  | a :: _ => Done (nth (j mod List.length l) l a)
  end.

(** [math.log2(eval(rat)) * 1200] *)
Definition cents (eval : string -> outcome R) (rat : string) : result R :=
  match eval rat with
  | Ok m => if Rle_dec m 0 then Fail (Exn ValueError) else Done (ln m / ln 2 * 1200)
  | Raise e => Fail (Exn e)
  | NotReal => Unfollowed
  end.

(** The body of the loop over the cells of the grid: the cents of the
    tooltip of one button. *)
Definition tooltip_cents (eval : string -> outcome R) (cs : list Chord) (ch_idx : nat)
  : result (list R) :=
  match nth_error cs ch_idx with
  | None => Fail IndexError
  | Some c => mapR (cents eval) (ratios c)
  end.

(** [next_chord], with [j] and [u] what the generator draws for
    [random.choice] and [random.uniform]: the playback it starts and
    the state it leaves. *)
Definition next_chord (eval : string -> outcome R) (rng : nat -> R)
           (st : Trainer) (j : nat) (u : R) (pos : nat)
  : result (Spawned Session) * Trainer :=
  match choice (flat_indices st) j with
  | Fail e => (Fail e, st)
  | Unfollowed => (Unfollowed, st)
  | Done idx =>
      let st := set_current_chord_idx st (Some idx) in
      let st :=
        if Req_dec_T (pitch st) 0
        then set_base_freq st (pitch st)
        else set_base_freq st (min_pitch st + (max_pitch st - min_pitch st) * u) in
      match mapR (mapR (tooltip_cents eval (chords st))) (grid_indices st) with
      | Fail e => (Fail e, st)
      | Unfollowed => (Unfollowed, st)
      | Done _ =>
          match grid_indices st with
          | [] => (Fail (Exn ValueError), st)
          | _ =>
              match nth_error (chords st) idx with
              | None => (Fail IndexError, st)
              | Some c => (Done (play_chord eval rng (synth st) (ratios c) pos), st)
              end
          end
      end
  end.

(** [replay_chord]: the playback it starts, if any. *)
Definition replay_chord (eval : string -> outcome R) (rng : nat -> R)
           (st : Trainer) (pos : nat) : result (option (Spawned Session)) :=
  match current_chord_idx st with
  | None => Done None
  | Some idx =>
      match nth_error (chords st) idx with
      | None => Fail IndexError
      | Some c => Done (Some (play_chord eval rng (synth st) (ratios c) pos))
      end
  end.

(** *** Notions of the facts on the trainer *)

(** [i] is the first place of the database with the short name [s]. *)
Definition first_with_short (cs : list Chord) (s : string) (i : nat) : Prop :=
  exists c,
    nth_error cs i = Some c /\ short c = s /\
    forall i' c', (i' < i)%nat -> nth_error cs i' = Some c' -> short c' <> s.

(** No chord of the database has the short name [s]. *)
Definition unknown_short (cs : list Chord) (s : string) : Prop :=
  forall c, In c cs -> short c <> s.

(** The fields no step on the grid assigns. *)
Definition same_settings (st st' : Trainer) : Prop :=
  chords st' = chords st /\ random_w st' = random_w st /\ random_h st' = random_h st /\
  pitch st' = pitch st /\ min_pitch st' = min_pitch st /\ max_pitch st' = max_pitch st.

(** A chord whose ratios all evaluate to positive numbers. *)
Definition playable (eval : string -> outcome R) (cs : list Chord) (i : nat) : Prop :=
  exists c, nth_error cs i = Some c /\ Forall (positive_ratio eval) (ratios c).

(** A session with every frequency and every phase at 0. *)
Definition at_rest (s : Session) : Prop :=
  Forall (eq 0) (f_list s) /\ Forall (eq 0) (phases s).

(** The settings of the synthesis apart from the base frequency. *)
Definition same_tone (a a' : App) : Prop :=
  fs a' = fs a /\ n_harmonics a' = n_harmonics a /\ jitter a' = jitter a /\
  rolloff_coeff a' = rolloff_coeff a /\ decay_time a' = decay_time a /\
  decay_exponent a' = decay_exponent a /\ duration a' = duration a /\
  f0 a' = f0 a /\ B0 a' = B0 a /\ beta a' = beta a.

(** ** The tooltip

    A [ToolTip] and the part of Tk it acts on: the [after] calls of the
    tooltip that are pending, its windows that exist, and the next id
    Tk hands out. *)

Record ToolTip : Type := mkToolTip {
  _id : option nat;
  tw : option nat
}.

Record Tk : Type := mkTk {
  timers : list nat;
  windows : list nat;
  fresh : nat
}.

(** The ids Tk keeps once it has dropped the id [i]. *)
Definition without (i : nat) (l : list nat) : list nat :=
  filter (fun x => negb (x =? i)%nat) l.

Definition _unschedule (t : ToolTip) (k : Tk) : ToolTip * Tk :=
  match _id t with
  | Some i => (mkToolTip None (tw t), mkTk (without i (timers k)) (windows k) (fresh k))
  | None => (t, k)
  end.

Definition _schedule (t : ToolTip) (k : Tk) : ToolTip * Tk :=
  let (t, k) := _unschedule t k in
  (mkToolTip (Some (fresh k)) (tw t),
   mkTk (fresh k :: timers k) (windows k) (S (fresh k))).

Definition _show (t : ToolTip) (k : Tk) : ToolTip * Tk :=
  match tw t with
  | Some _ => (t, k)
  | None =>
      (mkToolTip (_id t) (Some (fresh k)),
       mkTk (timers k) (fresh k :: windows k) (S (fresh k)))
  end.

Definition _hide (t : ToolTip) (k : Tk) : ToolTip * Tk :=
  let (t, k) := _unschedule t k in
  match tw t with
  | Some w => (mkToolTip (_id t) None, mkTk (timers k) (without w (windows k)) (fresh k))
  | None => (t, k)
  end.

(** What Tk delivers to the tooltip: the three events it is bound to,
    and the [after] call with id [i] coming due. *)
Inductive tk_event : Set :=
| Enter
| Leave
| ButtonPress
| Due (i : nat).

Definition deliver (ev : tk_event) (tk : ToolTip * Tk) : ToolTip * Tk :=
  let (t, k) := tk in
  match ev with
  | Enter => _schedule t k
  | Leave => _hide t k
  | ButtonPress => _hide t k
  | Due i =>
      if existsb (Nat.eqb i) (timers k)
      then _show t (mkTk (without i (timers k)) (windows k) (fresh k))
      else (t, k)
  end.

(** The tooltip after the events [evs], oldest first, from its
    creation. *)
Definition tooltip_after (evs : list tk_event) : ToolTip * Tk :=
  fold_left (fun tk ev => deliver ev tk) evs (mkToolTip None None, mkTk [] [] 0).

(** At most the [after] call and the window the tooltip knows of. *)
Definition tidy (tk : ToolTip * Tk) : Prop :=
  let (t, k) := tk in
  (timers k = [] \/ exists i, timers k = [i] /\ _id t = Some i) /\
  windows k = match tw t with
              | Some w => [w]
              | None => []
              end.

Definition is_due (ev : tk_event) : Prop :=
  match ev with
  | Due _ => True
  | _ => False
  end.

(** ** Concrete trainers *)

Definition demo_chords : list Chord :=
  [mkChord "major triad" "4:5:6" "maj" ["1.0"; "1.25"; "1.5"];
   mkChord "fifth" "2:3" "P5" ["1.0"; "1.5"]]%string.

(** A trainer before any preset: pitch setting 220, pitches drawn
    between 200 and 400, a grid of 2 by 1. *)
Definition demo : Trainer :=
  mkTrainer scenario demo_chords [] [] [] None 2 1 220 200 400.

(** The same trainer once the grid is loaded. *)
Definition demo_loaded : Trainer :=
  mkTrainer scenario demo_chords [["maj"; "P5"]; ["P5"]]%string
            [[0; 1]; [1]]%nat [0; 1; 1]%nat None 2 1 220 200 400.

(** The loaded trainer with the pitch setting at 0. *)
Definition demo_zero_pitch : Trainer :=
  mkTrainer scenario demo_chords [["maj"; "P5"]; ["P5"]]%string
            [[0; 1]; [1]]%nat [0; 1; 1]%nat None 2 1 0 200 400.

(** A trainer with a negative width and height. *)
Definition demo_negative : Trainer :=
  mkTrainer scenario demo_chords [] [] [] None (-1) (-2) 220 200 400.

(** The lines of a preset file, and of one with an unknown name. *)
Definition demo_lines : list string := ["  maj ; P5"; ""; "P5;"]%string.
Definition bad_lines : list string := ["maj; dim"]%string.

(** The settings of the scenario with the reference frequency at 0. *)
Definition no_reference : App :=
  {| fs := 44100; n_harmonics := 1; jitter := 0; rolloff_coeff := 1;
     decay_time := 1; decay_exponent := 0; duration := 1;
     base_freq := 220; f0 := 0; B0 := 0; beta := 1 |}.

(** ** Facts on the float operations *)

Lemma literal_1_0 : literal (list_ascii_of_string "1.0") = Some (10, 10)%Z.
Proof. vm_compute. reflexivity. Qed.

Lemma literal_1_5 : literal (list_ascii_of_string "1.5") = Some (15, 10)%Z.
Proof. vm_compute. reflexivity. Qed.

Lemma eval_ratio_1_0 : eval_ratio "1.0" = Ok 1.
Proof.
  unfold eval_ratio, eval_chars. rewrite literal_1_0.
  unfold frac; cbn [fst snd]. f_equal. lra.
Qed.

Lemma eval_ratio_1_5 : eval_ratio "1.5" = Ok 1.5.
Proof.
  unfold eval_ratio, eval_chars. rewrite literal_1_5.
  unfold frac; cbn [fst snd]. apply f_equal. lra.
Qed.


Lemma two_pi_pos : 0 < 2 * PI.
Proof. pose proof PI_RGT_0. lra. Qed.

(** The floored remainder by a positive modulus lies below it. *)
Lemma np_mod_range (x y : R) : 0 < y -> 0 <= np_mod x y < y.
Proof.
  intros Hy. unfold np_mod.
  destruct (base_Int_part (x / y)) as [Hlo Hhi].
  assert (Hx : x = x / y * y) by (field; lra).
  split.
  - assert (IZR (Int_part (x / y)) * y <= x / y * y)
      by (apply Rmult_le_compat_r; lra).
    lra.
  - assert (x / y * y < (IZR (Int_part (x / y)) + 1) * y)
      by (apply Rmult_lt_compat_r; lra).
    lra.
Qed.

(** Moving the argument by whole multiples of the modulus moves the
    quotient by as many. *)
Lemma Int_part_shift (r : R) (z : Z) : Int_part (r + IZR z) = (Int_part r + z)%Z.
Proof.
  symmetry. apply Int_part_spec.
  destruct (base_Int_part r) as [Hlo Hhi].
  rewrite plus_IZR. lra.
Qed.

Lemma np_mod_shift (x y : R) (z : Z) : y <> 0 -> np_mod (x + IZR z * y) y = np_mod x y.
Proof.
  intros Hy. unfold np_mod.
  replace ((x + IZR z * y) / y) with (x / y + IZR z) by (field; assumption).
  rewrite Int_part_shift, plus_IZR. ring.
Qed.

(** Reducing a phase before a further advance does not change the
    reduced result. *)
Lemma np_mod_add (x a y : R) : y <> 0 -> np_mod (np_mod x y + a) y = np_mod (x + a) y.
Proof.
  intros Hy. unfold np_mod at 2.
  replace (x - IZR (Int_part (x / y)) * y + a)
    with ((x + a) + IZR (- Int_part (x / y)) * y)
    by (rewrite opp_IZR; ring).
  apply np_mod_shift; assumption.
Qed.

Lemma sin_period_Z (x : R) (k : Z) : sin (x + IZR k * (2 * PI)) = sin x.
Proof.
  destruct (Z_le_gt_dec 0 k) as [Hk | Hk].
  - rewrite <- (Z2Nat.id k Hk), <- INR_IZR_INZ.
    replace (x + INR (Z.to_nat k) * (2 * PI)) with (x + 2 * INR (Z.to_nat k) * PI) by ring.
    apply sin_period.
  - assert (Hn : (0 <= - k)%Z) by lia.
    rewrite <- (sin_period (x + IZR k * (2 * PI)) (Z.to_nat (- k))).
    rewrite INR_IZR_INZ, (Z2Nat.id _ Hn), opp_IZR. f_equal. ring.
Qed.

(** The sine does not see the reduction of the phase. *)
Lemma sin_np_mod (x a : R) : sin (np_mod x (2 * PI) + a) = sin (x + a).
Proof.
  unfold np_mod.
  replace (x - IZR (Int_part (x / (2 * PI))) * (2 * PI) + a)
    with ((x + a) + IZR (- Int_part (x / (2 * PI))) * (2 * PI))
    by (rewrite opp_IZR; ring).
  apply sin_period_Z.
Qed.

(** ** Facts on [outcome] and lists *)

Lemma mapM_pure {A B : Type} (f : A -> outcome B) (g : A -> B) (l : list A) :
  (forall a, In a l -> f a = Ok (g a)) -> mapM f l = Ok (map g l).
Proof.
  induction l as [| a l IH]; intros H; cbn.
  - reflexivity.
  - rewrite (H a (or_introl eq_refl)). cbn.
    rewrite IH by (intros b Hb; apply H; now right).
    reflexivity.
Qed.

Lemma combine_map_l {A B C : Type} (h : A -> C) (l : list A) (l' : list B) :
  combine (map h l) l' = map (fun p => (h (fst p), snd p)) (combine l l').
Proof.
  revert l'. induction l as [| a l IH]; intros [| b l']; cbn; try reflexivity.
  now rewrite IH.
Qed.

Lemma combine_self_r {A B C : Type} (g : A * B -> C) (l : list A) (l' : list B) :
  combine (map g (combine l l')) l' = map (fun p => (g p, snd p)) (combine l l').
Proof.
  revert l'. induction l as [| a l IH]; intros [| b l']; cbn; try reflexivity.
  now rewrite IH.
Qed.

Lemma nth_error_combine {A B : Type} (l : list A) (l' : list B) (j : nat) (a : A) (b : B) :
  nth_error l j = Some a -> nth_error l' j = Some b ->
  nth_error (combine l l') j = Some (a, b).
Proof.
  revert l' j. induction l as [| x l IH]; intros [| y l'] [| j]; cbn; try discriminate.
  - intros [= ->] [= ->]. reflexivity.
  - apply IH.
Qed.

Lemma IZR_fs_neq (z : Z) : z <> 0%Z -> IZR z <> 0.
Proof. intros H E. apply H. now apply eq_IZR. Qed.

(** ** Facts on the callback *)

Lemma envelope_ok (tau x : R) : tau <> 0 -> envelope tau x = Ok (exp (- x / tau)).
Proof.
  intros H. unfold envelope, np_div.
  destruct (Req_dec_T tau 0) as [E | _]; [contradiction | reflexivity].
Qed.

Lemma rows_tau (s : Session) (phase f amp tau : R) :
  In (phase, f, (amp, tau)) (rows s) -> In tau (tau_list s).
Proof.
  unfold rows. intros H.
  apply in_combine_r in H. apply in_combine_r in H. exact H.
Qed.

Lemma sample_ok (s : Session) (ti : R) :
  Forall nonzero (tau_list s) -> sample s ti = Ok (sample_value s ti).
Proof.
  intros Htau. unfold sample, sample_value.
  rewrite (mapM_pure _ (partial_value (t_cur s) ti)); [reflexivity |].
  intros [[phase f] [amp tau]] Hin. cbn.
  rewrite envelope_ok; [reflexivity |].
  rewrite Forall_forall in Htau. apply Htau. eapply rows_tau; eassumption.
Qed.

Lemma callback_ok (s : Session) (frames : nat) :
  s_fs s <> 0%Z -> Forall nonzero (tau_list s) ->
  callback s frames
  = (Ok (map (sample_value s) (block_times (s_fs s) frames)), advance s frames).
Proof.
  intros Hfs Htau. unfold callback.
  destruct (Z.eqb_spec (s_fs s) 0) as [E | _]; [contradiction |].
  rewrite (mapM_pure _ (sample_value s)); [reflexivity |].
  intros ti _. now apply sample_ok.
Qed.

Lemma seq_offset (n a m : nat) : seq (n + a) m = map (fun i => (n + i)%nat) (seq a m).
Proof.
  revert a. induction m as [| m IH]; intros a; cbn; [reflexivity |].
  f_equal. rewrite <- IH. f_equal. lia.
Qed.

Lemma block_times_add (fs : Z) (n m : nat) :
  block_times fs (n + m)
  = block_times fs n ++ map (fun i => INR (n + i) / IZR fs) (seq 0 m).
Proof.
  unfold block_times. rewrite seq_app, map_app. f_equal.
  cbn [Nat.add]. rewrite <- (Nat.add_0_r n) at 1.
  rewrite seq_offset, map_map. reflexivity.
Qed.

Lemma rows_advance (s : Session) (frames : nat) :
  rows (advance s frames)
  = map (fun row => (next_phase (s_fs s) frames (fst row), snd (fst row), snd row))
        (rows s).
Proof.
  unfold rows, advance; cbn [phases f_list amp_list tau_list].
  change (fun pf : R * R => np_mod (fst pf + 2 * PI * snd pf * (INR frames / IZR (s_fs s))) (2 * PI))
    with (next_phase (s_fs s) frames).
  rewrite combine_self_r, combine_map_l. reflexivity.
Qed.

(** A sample of the block after [n] frames is the sample [n] frames
    further in the block before. *)
Lemma sample_value_advance (s : Session) (n i : nat) :
  s_fs s <> 0%Z ->
  sample_value (advance s n) (INR i / IZR (s_fs s))
  = sample_value s (INR (n + i) / IZR (s_fs s)).
Proof.
  intros Hfs. pose proof (IZR_fs_neq _ Hfs) as Hz.
  unfold sample_value. rewrite rows_advance, map_map.
  cbn [norm t_cur advance]. f_equal. f_equal.
  apply map_ext. intros [[phase f] [amp tau]].
  unfold partial_value, next_phase. cbn [fst snd].
  rewrite sin_np_mod, plus_INR. f_equal.
  - f_equal. f_equal. unfold Rdiv. ring.
  - f_equal. unfold Rdiv. ring.
Qed.

Lemma advance_advance (s : Session) (n m : nat) :
  s_fs s <> 0%Z -> advance (advance s n) m = advance s (n + m).
Proof.
  intros Hfs. pose proof two_pi_pos as Hpi.
  unfold advance; cbn [s_fs f_list amp_list tau_list norm phases t_cur].
  f_equal.
  - rewrite combine_self_r, map_map. apply map_ext. intros [phase f]. cbn [fst snd].
    rewrite np_mod_add by lra. f_equal. rewrite plus_INR. unfold Rdiv. ring.
  - rewrite plus_INR. unfold Rdiv. ring.
Qed.

(** ** Theorems on the callback *)

(** C1. Phase continuity: with a sample rate and decay constants that
    are not zero, two calls of the callback for [N] frames each, one
    after the other, write the samples one call for [2N] frames writes,
    and leave the same phases and the same elapsed time, from any
    state of the session. *)
Theorem callback_two_blocks (s : Session) (N : nat) :
  s_fs s <> 0%Z -> Forall nonzero (tau_list s) ->
  exists o1 s1 o2 s2,
    callback s N = (Ok o1, s1) /\
    callback s1 N = (Ok o2, s2) /\
    callback s (2 * N) = (Ok (o1 ++ o2), s2).
Proof.
  intros Hfs Htau.
  exists (map (sample_value s) (block_times (s_fs s) N)), (advance s N).
  exists (map (sample_value (advance s N)) (block_times (s_fs s) N)),
         (advance (advance s N) N).
  split; [now apply callback_ok |].
  split; [now apply (callback_ok (advance s N)) |].
  replace (2 * N)%nat with (N + N)%nat by lia.
  rewrite callback_ok by assumption.
  rewrite advance_advance by assumption.
  rewrite block_times_add, map_app.
  apply (f_equal (fun o => (Ok o, advance s (N + N)))). apply f_equal.
  unfold block_times. rewrite !map_map. apply map_ext.
  intros i. symmetry. now apply sample_value_advance.
Qed.

Lemma same_partials_refl (s : Session) : same_partials s s.
Proof. repeat split. Qed.

Lemma same_partials_trans (s1 s2 s3 : Session) :
  same_partials s1 s2 -> same_partials s2 s3 -> same_partials s1 s3.
Proof.
  unfold same_partials. intros (A1 & A2 & A3 & A4) (B1 & B2 & B3 & B4).
  repeat split; congruence.
Qed.

Lemma callback_state (s : Session) (frames : nat) :
  snd (callback s frames) = if (s_fs s =? 0)%Z then s else advance s frames.
Proof. unfold callback. now destruct (s_fs s =? 0)%Z. Qed.

Lemma callback_same_partials (s : Session) (frames : nat) :
  same_partials s (snd (callback s frames)).
Proof.
  rewrite callback_state. destruct (s_fs s =? 0)%Z.
  - apply same_partials_refl.
  - repeat split.
Qed.

Lemma advance_in_turn (s : Session) (frames : nat) :
  Forall in_turn (phases (advance s frames)).
Proof.
  unfold advance; cbn [phases]. rewrite Forall_map. apply Forall_forall.
  intros pf _. apply np_mod_range, two_pi_pos.
Qed.

Lemma callback_in_turn (s : Session) (frames : nat) :
  Forall in_turn (phases s) -> Forall in_turn (phases (snd (callback s frames))).
Proof.
  intros H. rewrite callback_state. destruct (s_fs s =? 0)%Z.
  - exact H.
  - apply advance_in_turn.
Qed.

(** A property of the state kept by every call is kept by the stream. *)
Lemma output_stream_ind (P : Session -> Prop) :
  (forall s frames, P s -> P (snd (callback s frames))) ->
  forall blocks s, P s -> P (snd (output_stream s blocks)).
Proof.
  intros Hstep. induction blocks as [| frames blocks IH]; intros s Hs; cbn.
  - exact Hs.
  - specialize (Hstep s frames Hs).
    destruct (callback s frames) as [o s']. cbn [snd] in Hstep.
    destruct o as [out | e |].
    + specialize (IH s' Hstep). destruct (output_stream s' blocks). exact IH.
    + exact Hstep.
    + specialize (IH s' Hstep). destruct (output_stream s' blocks). exact IH.
Qed.

Lemma _play_initial (eval : string -> outcome R) (rng : nat -> R)
      (self : App) (ratios : list string) (pos : nat) (s : Session) :
  _play eval rng self ratios pos = Ok s ->
  s_fs s = fs self /\ t_cur s = 0 /\ phases s = map (fun _ => 0) (f_list s).
Proof.
  unfold _play. destruct (partial_lists eval rng self ratios pos) as [[[fl al] tl] | e |];
    try discriminate.
  destruct (np_concatenate fl) as [fc | |]; try discriminate.
  destruct (np_concatenate al) as [ac | |]; try discriminate.
  destruct (np_concatenate tl) as [tc | |]; try discriminate.
  cbn. destruct (np_div 0.3 (np_sum ac)) as [nm | |]; try discriminate.
  cbn. intros [= <-]. cbn. repeat split.
Qed.

(** What one call does to the phases and the elapsed time. *)
Lemma callback_advance (s : Session) (frames : nat) :
  s_fs s <> 0%Z ->
  t_cur (snd (callback s frames)) = t_cur s + INR frames / IZR (s_fs s) /\
  (forall j phase f,
      nth_error (phases s) j = Some phase ->
      nth_error (f_list s) j = Some f ->
      nth_error (phases (snd (callback s frames))) j
      = Some (np_mod (phase + 2 * PI * f * (INR frames / IZR (s_fs s))) (2 * PI))).
Proof.
  intros Hfs. rewrite callback_state.
  destruct (Z.eqb_spec (s_fs s) 0) as [E | _]; [contradiction |].
  split; [reflexivity |].
  intros j phase f Hp Hf. unfold advance; cbn [phases].
  rewrite nth_error_map, (nth_error_combine _ _ _ _ _ Hp Hf). reflexivity.
Qed.

(** C7. A session starts at phases 0 and elapsed time 0.  In every
    state [s] the stream brings it to, the phases are in [0, 2 pi); a
    further call of the callback for [frames] frames, at a sample rate
    that is not zero, adds [frames / fs] to the elapsed time and leaves
    each partial with its phase advanced by [2 pi f frames / fs] and
    reduced modulo [2 pi]: the stored phase is what [%=] gives, it is
    again in [0, 2 pi), and it differs from the advanced phase by a
    whole number of turns. *)
Theorem callback_phases
        (eval : string -> outcome R) (rng : nat -> R) (self : App)
        (ratios : list string) (pos : nat) (s0 : Session) (blocks : list nat) :
  _play eval rng self ratios pos = Ok s0 ->
  let s := snd (output_stream s0 blocks) in
  (t_cur s0 = 0 /\ Forall (eq 0) (phases s0)) /\
  Forall in_turn (phases s) /\
  forall frames,
    let s' := snd (callback s frames) in
    Forall in_turn (phases s') /\
    (s_fs s <> 0%Z ->
     t_cur s' = t_cur s + INR frames / IZR (s_fs s) /\
     forall j phase f,
       nth_error (phases s) j = Some phase ->
       nth_error (f_list s) j = Some f ->
       nth_error (phases s') j
       = Some (np_mod (phase + 2 * PI * f * (INR frames / IZR (s_fs s))) (2 * PI)) /\
       exists (n : Z) (phase' : R),
         nth_error (phases s') j = Some phase' /\
         in_turn phase' /\
         phase' = phase + 2 * PI * f * (INR frames / IZR (s_fs s)) - IZR n * (2 * PI)).
Proof.
  intros Hplay s.
  destruct (_play_initial _ _ _ _ _ _ Hplay) as (_ & Ht & Hph).
  assert (Hs : Forall in_turn (phases s)).
  { apply (output_stream_ind (fun s => Forall in_turn (phases s))).
    - apply callback_in_turn.
    - rewrite Hph, Forall_map. apply Forall_forall. intros _ _.
      pose proof two_pi_pos. unfold in_turn. lra. }
  split; [| split].
  - split; [exact Ht |]. rewrite Hph, Forall_map. apply Forall_forall. reflexivity.
  - exact Hs.
  - intros frames s'. split.
    + now apply callback_in_turn.
    + intros Hfs. destruct (callback_advance s frames Hfs) as [Hc Hadv].
      split; [exact Hc |]. intros j phase f Hp Hf.
      pose proof (Hadv j phase f Hp Hf) as Hj.
      split; [exact Hj |].
      exists (Int_part ((phase + 2 * PI * f * (INR frames / IZR (s_fs s))) / (2 * PI))).
      eexists. split; [exact Hj |]. split.
      * apply np_mod_range, two_pi_pos.
      * reflexivity.
Qed.

Lemma callback_frame_stream (s : Session) (blocks : list nat) :
  same_partials s (snd (output_stream s blocks)).
Proof.
  apply (output_stream_ind (same_partials s)).
  - intros s' frames H. eapply same_partials_trans; [exact H |].
    apply callback_same_partials.
  - apply same_partials_refl.
Qed.

(** C10. A call of the callback changes nothing of the session but the
    phases and the elapsed time: the frequencies, the amplitudes, the
    decay constants and the normalization constant are those of before,
    after one call and after any sequence of calls of the stream. *)
Theorem callback_frame (s : Session) :
  (forall frames, same_partials s (snd (callback s frames))) /\
  (forall blocks, same_partials s (snd (output_stream s blocks))).
Proof.
  split.
  - apply callback_same_partials.
  - apply callback_frame_stream.
Qed.

(** C6. For a decay constant [tau > 0] the envelope in the callback is
    [exp (- t / tau)]; it is 1 at [t = 0] and strictly decreasing in
    [t]. *)
Theorem envelope_decreasing (tau : R) :
  0 < tau ->
  (forall t, envelope tau t = Ok (exp (- t / tau))) /\
  (forall t_cur ti phase f amp,
      partial_sample t_cur ti (phase, f, (amp, tau))
      = Ok (amp * exp (- (t_cur + ti) / tau) * sin (phase + 2 * PI * f * ti))) /\
  envelope tau 0 = Ok 1 /\
  (forall t1 t2 e1 e2,
      t1 < t2 -> envelope tau t1 = Ok e1 -> envelope tau t2 = Ok e2 -> e2 < e1).
Proof.
  intros Htau. assert (Hne : tau <> 0) by lra.
  split; [intros t; now apply envelope_ok |].
  split; [intros; cbn; now rewrite envelope_ok |].
  split.
  - rewrite envelope_ok by assumption. f_equal.
    replace (- 0 / tau) with 0 by (field; assumption). apply exp_0.
  - intros t1 t2 e1 e2 Hlt H1 H2.
    rewrite envelope_ok in H1, H2 by assumption.
    injection H1 as <-. injection H2 as <-.
    apply exp_increasing. unfold Rdiv.
    apply Rmult_lt_compat_r; [now apply Rinv_0_lt_compat | lra].
Qed.

(** ** Facts on the partial set *)

Section PartialSet.

Variable eval : string -> outcome R.
Variable rng : nat -> R.
Variable self : App.

Lemma calc_B_ok (pitch : R) :
  0 < f0 self -> 0 < pitch -> calc_B self pitch = Ok (inharmonicity self pitch).
Proof.
  intros Hf0 Hp. unfold calc_B, py_div, py_pow, inharmonicity.
  destruct (Req_dec_T (f0 self) 0) as [E | _]; [lra |]. cbn.
  assert (Hq : 0 < pitch / f0 self) by (apply Rdiv_lt_0_compat; assumption).
  destruct (Rlt_dec 0 (pitch / f0 self)) as [_ | N]; [reflexivity | contradiction].
Qed.

Lemma inharmonicity_nonneg (pitch : R) : 0 <= B0 self -> 0 <= inharmonicity self pitch.
Proof.
  intros HB. unfold inharmonicity, Rpower.
  apply Rmult_le_pos; [assumption | left; apply exp_pos].
Qed.

Lemma stretched_ok (pitch B : R) (k : Z) :
  0 <= B -> stretched pitch B k = Ok (pitch * IZR k * sqrt (1 + B * IZR k ^ 2)).
Proof.
  intros HB. unfold stretched, np_sqrt.
  assert (Hk : IZR (k ^ 2) = IZR k ^ 2) by (now rewrite pow_IZR).
  rewrite Hk.
  assert (0 <= IZR k ^ 2) by apply pow2_ge_0.
  destruct (Rlt_dec (1 + B * IZR k ^ 2) 0) as [N | _]; [nra | reflexivity].
Qed.

Lemma ratio_partials_ok (r : string) (pos : nat) :
  stretch_defined self -> positive_ratio eval r ->
  ratio_partials eval rng self r pos
  = Ok (perturb rng self (map (frequency self (pitch_of eval self r)) (harmonics self)) pos,
        map (amplitude self) (harmonics self), map (decay_constant self) (harmonics self)).
Proof.
  intros (Hb & Hf0 & HB0) (m & Hm & Hpos).
  unfold ratio_partials, pitch_of, ratio_value. rewrite Hm. cbn [bind].
  assert (Hp : 0 < base_freq self * m) by (apply Rmult_lt_0_compat; assumption).
  rewrite (calc_B_ok _ Hf0 Hp). cbn [bind].
  rewrite (mapM_pure _ (frequency self (base_freq self * m))).
  - reflexivity.
  - intros k _. apply stretched_ok. now apply inharmonicity_nonneg.
Qed.

Lemma partial_lists_ok (ratios : list string) (pos : nat) :
  stretch_defined self -> Forall (positive_ratio eval) ratios ->
  partial_lists eval rng self ratios pos
  = Ok (perturbed_blocks eval rng self ratios pos,
        map (fun _ => map (amplitude self) (harmonics self)) ratios,
        map (fun _ => map (decay_constant self) (harmonics self)) ratios).
Proof.
  intros Hwf Hall. revert pos.
  induction Hall as [| r ratios Hr _ IH]; intros pos; cbn.
  - reflexivity.
  - rewrite (ratio_partials_ok r pos Hwf Hr), IH. reflexivity.
Qed.

Lemma combine_append {A B : Type} (a a' : list A) (b b' : list B) :
  List.length a = List.length b ->
  combine (a ++ a') (b ++ b') = combine a b ++ combine a' b'.
Proof.
  revert b. induction a as [| x a IH]; intros [| y b] H; cbn in *; try discriminate.
  - reflexivity.
  - f_equal. apply IH. now injection H.
Qed.

Lemma uniform_length (low high : R) (n pos : nat) :
  List.length (uniform rng low high n pos) = n.
Proof. unfold uniform. now rewrite length_map, length_seq. Qed.

Lemma uniform_add (low high : R) (n m pos : nat) :
  uniform rng low high (n + m) pos
  = uniform rng low high n pos ++ uniform rng low high m (pos + n).
Proof.
  unfold uniform. rewrite seq_app, map_app. f_equal.
  cbn [Nat.add]. rewrite <- (Nat.add_0_r n) at 1.
  rewrite seq_offset, map_map. apply map_ext.
  intros i. now rewrite Nat.add_assoc.
Qed.

Lemma np_add_uniform_app (low high : R) (a b : list R) (pos : nat) :
  np_add (a ++ b) (uniform rng low high (List.length (a ++ b)) pos)
  = np_add a (uniform rng low high (List.length a) pos)
    ++ np_add b (uniform rng low high (List.length b) (pos + List.length a)).
Proof.
  unfold np_add. rewrite length_app, uniform_add.
  rewrite combine_append by (now rewrite uniform_length).
  apply map_app.
Qed.

Lemma harmonics_length : List.length (harmonics self) = Z.to_nat (n_harmonics self).
Proof. unfold harmonics, arange1. now rewrite length_map, length_seq. Qed.

Lemma harmonics_range (k : Z) : In k (harmonics self) <-> (1 <= k <= n_harmonics self)%Z.
Proof.
  unfold harmonics, arange1. rewrite in_map_iff. split.
  - intros (i & <- & Hi). apply in_seq in Hi. lia.
  - intros Hk. exists (Z.to_nat k). split; [lia |]. apply in_seq. lia.
Qed.

(** The whole frequency self array is the array before the jitter with one
    vector of draws added, read at [pos]. *)
Lemma concat_perturbed_blocks (ratios : list string) (pos : nat) :
  concat (perturbed_blocks eval rng self ratios pos) = perturb rng self (unperturbed eval self ratios) pos.
Proof.
  revert pos. induction ratios as [| r ratios IH]; intros pos; cbn.
  - unfold perturb. destruct (Rlt_dec 0 (jitter self)); reflexivity.
  - rewrite IH. unfold perturb, draws.
    destruct (Rlt_dec 0 (jitter self)) as [Hj | Hj]; [| reflexivity].
    rewrite np_add_uniform_app, length_map. reflexivity.
Qed.

Lemma amplitude_pos (k : Z) : 0 < amplitude self k.
Proof.
  unfold amplitude, Rpower. apply Rdiv_lt_0_compat; [lra | apply exp_pos].
Qed.

Lemma np_sum_pos (l : list R) :
  l <> [] -> Forall (fun a => 0 < a) l -> 0 < np_sum l.
Proof.
  intros Hne Hall. induction Hall as [| a l Ha Hl IH]; [contradiction |].
  change (0 < a + np_sum l). destruct l as [| b l].
  - cbn. lra.
  - assert (0 < np_sum (b :: l)) by (apply IH; discriminate). lra.
Qed.

Lemma amplitudes_pos (ratios : list string) : Forall (fun a => 0 < a) (amplitudes self ratios).
Proof.
  unfold amplitudes. apply Forall_concat. rewrite Forall_map.
  apply Forall_forall. intros _ _. rewrite Forall_map.
  apply Forall_forall. intros k _. apply amplitude_pos.
Qed.

Lemma amplitudes_nonempty (ratios : list string) :
  ratios <> [] -> (1 <= n_harmonics self)%Z -> amplitudes self ratios <> [].
Proof.
  intros Hr Hn. destruct ratios as [| r ratios]; [contradiction |].
  unfold amplitudes. cbn. intros E. apply app_eq_nil in E. destruct E as [E _].
  apply (f_equal (@List.length R)) in E. rewrite length_map, harmonics_length in E.
  cbn in E. lia.
Qed.

Lemma _play_ok (ratios : list string) (pos : nat) :
  stretch_defined self -> (1 <= n_harmonics self)%Z ->
  ratios <> [] -> Forall (positive_ratio eval) ratios ->
  _play eval rng self ratios pos = Ok (built_session eval rng self ratios pos).
Proof.
  intros Hwf Hn Hne Hall. unfold _play.
  rewrite (partial_lists_ok ratios pos Hwf Hall).
  destruct ratios as [| r ratios]; [contradiction |].
  change (perturbed_blocks eval rng self (r :: ratios) pos)
    with (perturb rng self (map (frequency self (pitch_of eval self r)) (harmonics self)) pos
          :: perturbed_blocks eval rng self ratios (pos + draws self)).
  cbn [map np_concatenate bind].
  change (perturb rng self (map (frequency self (pitch_of eval self r)) (harmonics self)) pos
          :: perturbed_blocks eval rng self ratios (pos + draws self))
    with (perturbed_blocks eval rng self (r :: ratios) pos).
  rewrite concat_perturbed_blocks.
  change (concat (map (amplitude self) (harmonics self)
                  :: map (fun _ : string => map (amplitude self) (harmonics self)) ratios))
    with (amplitudes self (r :: ratios)).
  change (concat (map (decay_constant self) (harmonics self)
                  :: map (fun _ : string => map (decay_constant self) (harmonics self)) ratios))
    with (decay_constants self (r :: ratios)).
  unfold np_div.
  pose proof (np_sum_pos _ (amplitudes_nonempty _ Hne Hn) (amplitudes_pos (r :: ratios))).
  destruct (Req_dec_T (np_sum (amplitudes self (r :: ratios))) 0) as [E | _]; [lra |].
  reflexivity.
Qed.

End PartialSet.

(** ** What a session that was built holds *)

Section Built.

Variable eval : string -> outcome R.
Variable rng : nat -> R.
Variable self : App.

Lemma ratio_partials_inv (r : string) (pos : nat) (f_k amp tauk : list R) :
  ratio_partials eval rng self r pos = Ok (f_k, amp, tauk) ->
  amp = map (amplitude self) (harmonics self)
  /\ tauk = map (decay_constant self) (harmonics self).
Proof.
  unfold ratio_partials.
  destruct (eval r) as [m | |]; cbn [bind]; try discriminate.
  destruct (calc_B self (base_freq self * m)) as [B | |]; cbn [bind]; try discriminate.
  destruct (mapM _ _) as [fk | |]; cbn [bind]; try discriminate.
  intros [= _ <- <-]. split; reflexivity.
Qed.

Lemma partial_lists_inv (ratios : list string) (pos : nat)
      (fl al tl : list (list R)) :
  partial_lists eval rng self ratios pos = Ok (fl, al, tl) ->
  al = map (fun _ => map (amplitude self) (harmonics self)) ratios
  /\ tl = map (fun _ => map (decay_constant self) (harmonics self)) ratios.
Proof.
  revert pos fl al tl. induction ratios as [| r ratios IH]; intros pos fl al tl; cbn.
  - intros [= <- <- <-]. split; reflexivity.
  - destruct (ratio_partials eval rng self r pos) as [[[f_k amp] tauk] | |] eqn:Hr.
    + destruct (partial_lists eval rng self ratios (pos + draws self))
        as [[[fl' al'] tl'] | |] eqn:Hrest; try discriminate.
      intros [= <- <- <-].
      destruct (ratio_partials_inv _ _ _ _ _ Hr) as [-> ->].
      destruct (IH _ _ _ _ Hrest) as [-> ->]. split; reflexivity.
    + discriminate.
    + destruct (partial_lists eval rng self ratios (pos + draws self)); discriminate.
Qed.

(** Whatever the input, a session that [_play] builds holds the
    amplitudes and decay constants of the closed form, and its
    normalization constant is 0.3 over the sum of the amplitudes. *)
Lemma _play_inv (ratios : list string) (pos : nat) (s : Session) :
  _play eval rng self ratios pos = Ok s ->
  amp_list s = amplitudes self ratios
  /\ tau_list s = decay_constants self ratios
  /\ np_sum (amp_list s) <> 0
  /\ norm s = 0.3 / np_sum (amp_list s).
Proof.
  unfold _play.
  destruct (partial_lists eval rng self ratios pos) as [[[fl al] tl] | e |] eqn:Hl;
    try discriminate.
  destruct (partial_lists_inv _ _ _ _ _ Hl) as [-> ->].
  destruct (np_concatenate fl) as [fc | |]; cbn [bind]; try discriminate.
  destruct ratios as [| r ratios]; cbn [map np_concatenate bind]; try discriminate.
  unfold np_div.
  destruct (Req_dec_T _ 0) as [E | N]; cbn [bind]; try discriminate.
  intros [= <-]. cbn. repeat split. exact N.
Qed.

Lemma np_sum_scale (l : list R) (c : R) :
  np_sum (map (fun a => a * c) l) = np_sum l * c.
Proof.
  induction l as [| a l IH]; cbn.
  - ring.
  - unfold np_sum in IH. rewrite IH. ring.
Qed.

Lemma nth_error_arange1 (n : Z) (j : nat) :
  (j < Z.to_nat n)%nat -> nth_error (arange1 n) j = Some (Z.of_nat (S j)).
Proof.
  intros Hj. unfold arange1.
  rewrite nth_error_map.
  rewrite (nth_error_nth' _ 0%nat) by (now rewrite length_seq).
  rewrite seq_nth by assumption. reflexivity.
Qed.

(** The decay constants of a session that was built are not zero when
    the decay time is not. *)
Lemma _play_decay_nonzero (ratios : list string) (pos : nat) (s : Session) :
  _play eval rng self ratios pos = Ok s -> decay_time self <> 0 ->
  Forall nonzero (tau_list s).
Proof.
  intros Hplay Ht. destruct (_play_inv ratios pos s Hplay) as (_ & -> & _).
  unfold decay_constants. apply Forall_concat. rewrite Forall_map.
  apply Forall_forall. intros _ _. rewrite Forall_map.
  apply Forall_forall. intros k _. unfold nonzero, decay_constant, Rdiv.
  pose proof (exp_pos (decay_exponent self * ln (IZR k))) as Hpos.
  apply Rmult_integral_contrapositive_currified; [exact Ht |].
  apply Rinv_neq_0_compat. unfold Rpower. lra.
Qed.

(** In an array made of one block of harmonics per ratio, harmonic
    [k] of the ratio at place [i] is at index [i * n + (k - 1)]. *)
Lemma nth_error_blocks {A : Type} (g : A -> Z -> R) (l : list A)
      (i : nat) (a : A) (k : Z) :
  nth_error l i = Some a -> (1 <= k <= n_harmonics self)%Z ->
  nth_error (flat_map (fun a => map (g a) (harmonics self)) l)
            (i * Z.to_nat (n_harmonics self) + Z.to_nat (k - 1))
  = Some (g a k).
Proof.
  intros Ha Hk. revert i Ha.
  induction l as [| a0 l IH]; intros [| i]; cbn [nth_error]; try discriminate.
  - intros [= ->]. cbn [flat_map Nat.mul Nat.add].
    rewrite nth_error_app1 by (rewrite length_map, harmonics_length; lia).
    rewrite nth_error_map. unfold harmonics.
    rewrite nth_error_arange1 by lia. cbn [option_map].
    do 2 f_equal. lia.
  - intros Ha. cbn [flat_map].
    rewrite nth_error_app2 by (rewrite length_map, harmonics_length; lia).
    rewrite length_map, harmonics_length.
    replace (S i * Z.to_nat (n_harmonics self) + Z.to_nat (k - 1)
             - Z.to_nat (n_harmonics self))%nat
      with (i * Z.to_nat (n_harmonics self) + Z.to_nat (k - 1))%nat by lia.
    now apply IH.
Qed.

Lemma amplitudes_flat_map (ratios : list string) :
  amplitudes self ratios
  = flat_map (fun _ : string => map (amplitude self) (harmonics self)) ratios.
Proof. unfold amplitudes. now rewrite flat_map_concat_map. Qed.

Lemma decay_constants_flat_map (ratios : list string) :
  decay_constants self ratios
  = flat_map (fun _ : string => map (decay_constant self) (harmonics self)) ratios.
Proof. unfold decay_constants. now rewrite flat_map_concat_map. Qed.

Lemma perturb_off (l : list R) (pos : nat) :
  jitter self <= 0 -> perturb rng self l pos = l.
Proof.
  intros Hj. unfold perturb.
  destruct (Rlt_dec 0 (jitter self)) as [H | _]; [lra | reflexivity].
Qed.

Lemma frequency_harmonic (pitch : R) (k : Z) :
  B0 self = 0 -> frequency self pitch k = pitch * IZR k.
Proof.
  intros HB. unfold frequency, inharmonicity. rewrite HB.
  replace (1 + 0 * Rpower (pitch / f0 self) (beta self) * IZR k ^ 2) with 1 by ring.
  rewrite sqrt_1. ring.
Qed.

End Built.

Lemma Rpower_base_1 (y : R) : Rpower 1 y = 1.
Proof. unfold Rpower. now rewrite ln_1, Rmult_0_r, exp_0. Qed.

Lemma arange1_1 : arange1 1 = [1%Z].
Proof. reflexivity. Qed.

Lemma arange1_4 : arange1 4 = [1; 2; 3; 4]%Z.
Proof. reflexivity. Qed.

(** ** Theorems on the partial set *)

(** C2. Without jitter, on ratios that evaluate to positive
    multipliers, the session holds for harmonic [k] of each ratio [r]
    the frequency [pitch * k * sqrt (1 + B * k^2)], with
    [pitch = base_freq * eval r] and [B = B0 * (pitch / f0) ^ beta];
    for the one ratio ["1.0"], four harmonics and [B0 = 0] the
    frequencies are [base_freq * k] for [k] from 1 to 4. *)
Theorem stretched_frequencies
        (eval : string -> outcome R) (rng : nat -> R) (self : App)
        (ratios : list string) (pos : nat) :
  stretch_defined self -> (1 <= n_harmonics self)%Z -> jitter self = 0 ->
  ratios <> [] -> Forall (positive_ratio eval) ratios ->
  exists s,
    _play eval rng self ratios pos = Ok s /\
    List.length (f_list s) = (List.length ratios * Z.to_nat (n_harmonics self))%nat /\
    (forall i r k,
        nth_error ratios i = Some r -> (1 <= k <= n_harmonics self)%Z ->
        let pitch := base_freq self * ratio_value eval r in
        let B := B0 self * Rpower (pitch / f0 self) (beta self) in
        nth_error (f_list s) (i * Z.to_nat (n_harmonics self) + Z.to_nat (k - 1))
        = Some (pitch * IZR k * sqrt (1 + B * IZR k ^ 2))) /\
    (ratios = ["1.0"%string] -> eval "1.0"%string = Ok 1 ->
     n_harmonics self = 4%Z -> B0 self = 0 ->
     f_list s = [base_freq self * 1; base_freq self * 2;
                 base_freq self * 3; base_freq self * 4]).
Proof.
  intros Hwf Hn Hj Hne Hall.
  exists (built_session eval rng self ratios pos).
  split; [now apply _play_ok |].
  cbn [f_list built_session]. rewrite perturb_off by lra.
  split; [| split].
  - unfold unperturbed. rewrite flat_map_concat_map, length_concat, map_map.
    clear Hne Hall. induction ratios as [| r ratios IH]; cbn; [reflexivity |].
    rewrite length_map, harmonics_length. unfold list_sum in IH. now rewrite IH.
  - intros i r k Hr Hk. cbv zeta.
    apply (nth_error_blocks self (fun r => frequency self (pitch_of eval self r))
                            ratios i r k Hr Hk).
  - intros -> H1 H4 HB. unfold unperturbed, harmonics. rewrite H4.
    rewrite arange1_4. cbn [flat_map map app].
    rewrite !(frequency_harmonic self _ _ HB).
    unfold pitch_of, ratio_value. rewrite H1.
    repeat f_equal; ring.
Qed.

(** C3. A session that was built holds at least one partial; its
    normalization constant is 0.3 over the sum of the amplitudes, and
    the normalized amplitudes sum to at most 0.3.  For the ratios
    ["1.0"] and ["1.5"] with one harmonic and rolloff 1 the two
    normalized amplitudes are 0.15 each. *)
Theorem normalization
        (eval : string -> outcome R) (rng : nat -> R) (self : App)
        (ratios : list string) (pos : nat) (s : Session) :
  _play eval rng self ratios pos = Ok s ->
  amp_list s <> [] /\
  norm s = 0.3 / np_sum (amp_list s) /\
  np_sum (map (fun a => a * norm s) (amp_list s)) <= 0.3 /\
  (ratios = ["1.0"%string; "1.5"%string] ->
   n_harmonics self = 1%Z -> rolloff_coeff self = 1 ->
   map (fun a => a * norm s) (amp_list s) = [0.15; 0.15]).
Proof.
  intros Hplay.
  destruct (_play_inv _ _ _ _ _ _ Hplay) as (Hamp & _ & Hsum & Hnorm).
  split; [| split; [exact Hnorm | split]].
  - intros E. apply Hsum. now rewrite E.
  - rewrite np_sum_scale, Hnorm. right. field. exact Hsum.
  - intros -> H1 Hp. rewrite Hnorm, Hamp. unfold amplitudes, harmonics, amplitude.
    rewrite H1, Hp, arange1_1.
    cbn [map concat app np_sum fold_right].
    rewrite Rpower_1 by lra. repeat f_equal; lra.
Qed.

(** C5. A session that was built holds for harmonic [k] of each ratio
    the amplitude [1 / k^p] and the decay constant [tau0 / k^d].  For
    [p > 0] the amplitudes do not increase with [k]; for [d > 0] and
    [tau0 > 0] the decay constants strictly decrease with [k]; with one
    harmonic and [d = 0] every amplitude is 1 and every decay constant
    is [tau0]. *)
Theorem rolloff_and_decay
        (eval : string -> outcome R) (rng : nat -> R) (self : App)
        (ratios : list string) (pos : nat) (s : Session) :
  _play eval rng self ratios pos = Ok s ->
  (forall i r k,
      nth_error ratios i = Some r -> (1 <= k <= n_harmonics self)%Z ->
      let j := (i * Z.to_nat (n_harmonics self) + Z.to_nat (k - 1))%nat in
      nth_error (amp_list s) j = Some (1 / Rpower (IZR k) (rolloff_coeff self)) /\
      nth_error (tau_list s) j
      = Some (decay_time self / Rpower (IZR k) (decay_exponent self))) /\
  (0 < rolloff_coeff self ->
   forall k1 k2, (1 <= k1 <= k2)%Z -> amplitude self k2 <= amplitude self k1) /\
  (0 < decay_exponent self -> 0 < decay_time self ->
   forall k1 k2, (1 <= k1 < k2)%Z -> decay_constant self k2 < decay_constant self k1) /\
  (n_harmonics self = 1%Z -> decay_exponent self = 0 ->
   Forall (eq 1) (amp_list s) /\ Forall (eq (decay_time self)) (tau_list s)).
Proof.
  intros Hplay.
  destruct (_play_inv _ _ _ _ _ _ Hplay) as (Hamp & Htau & _ & _).
  split; [| split; [| split]].
  - intros i r k Hr Hk j. subst j.
    rewrite Hamp, Htau, amplitudes_flat_map, decay_constants_flat_map. split.
    + apply (nth_error_blocks self (fun _ => amplitude self) ratios i r k Hr Hk).
    + apply (nth_error_blocks self (fun _ => decay_constant self) ratios i r k Hr Hk).
  - intros Hp k1 k2 [H1 H12]. unfold amplitude.
    assert (0 < IZR k1) by (apply IZR_lt; lia).
    assert (IZR k1 <= IZR k2) by (apply IZR_le; lia).
    assert (Hle : Rpower (IZR k1) (rolloff_coeff self) <= Rpower (IZR k2) (rolloff_coeff self))
      by (apply Rle_Rpower_l; lra).
    assert (0 < Rpower (IZR k1) (rolloff_coeff self)) by apply exp_pos.
    unfold Rdiv. rewrite !Rmult_1_l. apply Rinv_le_contravar; assumption.
  - intros Hd Ht k1 k2 [H1 H12]. unfold decay_constant.
    assert (0 < IZR k1) by (apply IZR_lt; lia).
    assert (IZR k1 < IZR k2) by (apply IZR_lt; lia).
    assert (Hlt : Rpower (IZR k1) (decay_exponent self) < Rpower (IZR k2) (decay_exponent self))
      by (apply Rlt_Rpower_l; lra).
    assert (0 < Rpower (IZR k1) (decay_exponent self)) by apply exp_pos.
    unfold Rdiv. apply Rmult_lt_compat_l; [assumption |].
    apply Rinv_lt_contravar; [| assumption].
    apply Rmult_lt_0_compat; lra.
  - intros H1 Hd. rewrite Hamp, Htau. unfold amplitudes, decay_constants, harmonics.
    rewrite H1, arange1_1. cbn [map].
    unfold amplitude, decay_constant. rewrite !Rpower_base_1.
    split; apply Forall_concat; rewrite Forall_map; apply Forall_forall; intros _ _;
      repeat constructor; field.
Qed.

(** ** Jitter *)

Section Jitter.

Variable eval : string -> outcome R.
Variable self : App.

Lemma ratio_partials_no_jitter (rng1 rng2 : nat -> R) (r : string) (pos1 pos2 : nat) :
  jitter self <= 0 ->
  ratio_partials eval rng1 self r pos1 = ratio_partials eval rng2 self r pos2.
Proof.
  intros Hj. unfold ratio_partials.
  destruct (Rlt_dec 0 (jitter self)) as [H | _]; [lra | reflexivity].
Qed.

Lemma partial_lists_no_jitter (rng1 rng2 : nat -> R) (ratios : list string) (pos1 pos2 : nat) :
  jitter self <= 0 ->
  partial_lists eval rng1 self ratios pos1 = partial_lists eval rng2 self ratios pos2.
Proof.
  intros Hj. revert pos1 pos2.
  induction ratios as [| r ratios IH]; intros pos1 pos2; cbn; [reflexivity |].
  rewrite (ratio_partials_no_jitter rng1 rng2 r pos1 pos2 Hj).
  rewrite (IH (pos1 + draws self)%nat (pos2 + draws self)%nat).
  reflexivity.
Qed.

Lemma nth_error_seq_0 (n j : nat) : (j < n)%nat -> nth_error (seq 0 n) j = Some j.
Proof.
  intros Hj. rewrite (nth_error_nth' _ 0%nat) by (now rewrite length_seq).
  now rewrite seq_nth.
Qed.

(** Entry [j] of an array after the jitter: the entry before, plus the
    draw at [pos + j] scaled to the interval from [low] to [high]. *)
Lemma nth_error_np_add_uniform (rng : nat -> R) (low high : R) (l : list R)
      (pos j : nat) (x : R) :
  nth_error l j = Some x ->
  nth_error (np_add l (uniform rng low high (List.length l) pos)) j
  = Some (x + (low + (high - low) * rng (pos + j)%nat)).
Proof.
  intros Hx. assert (Hj : (j < List.length l)%nat) by (apply nth_error_Some; congruence).
  unfold np_add, uniform. rewrite nth_error_map.
  rewrite (nth_error_combine _ _ _ x (low + (high - low) * rng (pos + j)%nat) Hx).
  - reflexivity.
  - rewrite nth_error_map, nth_error_seq_0 by assumption. reflexivity.
Qed.

Lemma np_add_uniform_length (rng : nat -> R) (low high : R) (l : list R) (pos : nat) :
  List.length (np_add l (uniform rng low high (List.length l) pos)) = List.length l.
Proof.
  unfold np_add. rewrite length_map, length_combine, uniform_length. apply Nat.min_id.
Qed.

End Jitter.

(** C8. With jitter 0 the session that is built does not depend on the
    random generator: two builds of one chord with the same parameters
    give one result, and the streams of the two sessions write the
    same samples for every sequence of blocks. *)
Theorem deterministic_render
        (eval : string -> outcome R) (rng1 rng2 : nat -> R) (self : App)
        (ratios : list string) (pos1 pos2 : nat) :
  jitter self = 0 ->
  _play eval rng1 self ratios pos1 = _play eval rng2 self ratios pos2 /\
  forall s1 s2 blocks,
    _play eval rng1 self ratios pos1 = Ok s1 ->
    _play eval rng2 self ratios pos2 = Ok s2 ->
    output_stream s1 blocks = output_stream s2 blocks.
Proof.
  intros Hj.
  assert (E : _play eval rng1 self ratios pos1 = _play eval rng2 self ratios pos2).
  { unfold _play.
    rewrite (partial_lists_no_jitter eval self rng1 rng2 ratios pos1 pos2) by lra.
    reflexivity. }
  split; [exact E |].
  intros s1 s2 blocks H1 H2. rewrite E in H1. congruence.
Qed.

(** C9, as the code has it.  With jitter above 0 and draws in the unit
    interval, the frequency stored for partial [j] is the frequency
    before the jitter plus one draw, the one at [pos + j], scaled to
    lie between [- jitter] and [+ jitter]; it is within [jitter] of the
    frequency before, and no call of the callback changes it.  It is
    above 0 when the frequency before the jitter is above [jitter]. *)
Theorem jitter_perturbation
        (eval : string -> outcome R) (rng : nat -> R) (self : App)
        (ratios : list string) (pos : nat) :
  (forall i, 0 <= rng i < 1) -> 0 < jitter self ->
  stretch_defined self -> (1 <= n_harmonics self)%Z ->
  ratios <> [] -> Forall (positive_ratio eval) ratios ->
  exists s,
    _play eval rng self ratios pos = Ok s /\
    List.length (f_list s) = List.length (unperturbed eval self ratios) /\
    (forall j fk,
        nth_error (unperturbed eval self ratios) j = Some fk ->
        exists f,
          nth_error (f_list s) j = Some f /\
          f = fk + (- jitter self + (jitter self - - jitter self) * rng (pos + j)%nat) /\
          fk - jitter self <= f <= fk + jitter self /\
          (jitter self < fk -> 0 < f)) /\
    (forall blocks, f_list (snd (output_stream s blocks)) = f_list s).
Proof.
  intros Hrng Hj Hwf Hn Hne Hall.
  assert (Hfl : f_list (built_session eval rng self ratios pos)
                = np_add (unperturbed eval self ratios)
                         (uniform rng (- jitter self) (jitter self)
                                  (List.length (unperturbed eval self ratios)) pos)).
  { cbn [f_list built_session]. unfold perturb.
    destruct (Rlt_dec 0 (jitter self)) as [_ | N]; [reflexivity | contradiction]. }
  exists (built_session eval rng self ratios pos).
  split; [now apply _play_ok |].
  split; [rewrite Hfl; apply np_add_uniform_length |]. split.
  - intros j fk Hfk. eexists.
    split; [rewrite Hfl; apply (nth_error_np_add_uniform _ _ _ _ _ _ _ Hfk) |].
    split; [reflexivity |].
    specialize (Hrng (pos + j)%nat). split; [split |]; try intros Hgt; nra.
  - intros blocks.
    destruct (callback_frame_stream (built_session eval rng self ratios pos) blocks)
      as (Hf & _).
    exact Hf.
Qed.

(** ** Errors of a playback *)

Section Errors.

Variable eval : string -> outcome R.
Variable rng : nat -> R.
Variable self : App.








End Errors.


(** ** Facts on the concrete chords *)

Lemma positive_1_0 : positive_ratio eval_ratio "1.0".
Proof. exists 1. split; [apply eval_ratio_1_0 | lra]. Qed.

Lemma positive_1_5 : positive_ratio eval_ratio "1.5".
Proof. exists 1.5. split; [apply eval_ratio_1_5 | lra]. Qed.

Lemma scenario_defined : stretch_defined scenario.
Proof. unfold stretch_defined; cbn. lra. Qed.

Lemma four_harmonics_defined : stretch_defined four_harmonics.
Proof. unfold stretch_defined; cbn. lra. Qed.

Lemma wide_jitter_defined : stretch_defined wide_jitter.
Proof. unfold stretch_defined; cbn. lra. Qed.


Lemma draws_low_unit (i : nat) : 0 <= draws_low i < 1.
Proof. unfold draws_low. lra. Qed.

(** The scenario builds two partials at 220 Hz and 330 Hz, of
    amplitude 1 and decay constant 1 s, normalized by 0.15. *)
Lemma scenario_play (rng : nat -> R) (pos : nat) :
  _play eval_ratio rng scenario ["1.0"%string; "1.5"%string] pos = Ok two_partials.
Proof.
  rewrite _play_ok.
  - f_equal. unfold built_session, two_partials.
    rewrite perturb_off by (cbn; lra).
    unfold unperturbed, amplitudes, decay_constants, harmonics.
    change (n_harmonics scenario) with 1%Z. rewrite arange1_1.
    cbn [flat_map map app concat].
    rewrite !(frequency_harmonic scenario) by reflexivity.
    unfold pitch_of, ratio_value, amplitude, decay_constant.
    rewrite eval_ratio_1_0, eval_ratio_1_5, !Rpower_base_1.
    cbn [base_freq decay_time fs scenario np_sum fold_right].
    f_equal; repeat f_equal; lra.
  - apply scenario_defined.
  - cbn. lia.
  - discriminate.
  - repeat constructor; [apply positive_1_0 | apply positive_1_5].
Qed.

Lemma two_partials_decay : Forall nonzero (tau_list two_partials).
Proof. repeat constructor; unfold nonzero; lra. Qed.

Lemma wide_jitter_play :
  _play eval_ratio draws_low wide_jitter ["1.0"%string] 0
  = Ok {| s_fs := 44100; f_list := [-10]; amp_list := [1]; tau_list := [1];
          norm := 0.3; phases := [0]; t_cur := 0 |}.
Proof.
  rewrite _play_ok.
  - f_equal. unfold built_session, perturb.
    destruct (Rlt_dec 0 (jitter wide_jitter)) as [_ | N]; [| cbn in N; lra].
    unfold unperturbed, amplitudes, decay_constants, harmonics.
    change (n_harmonics wide_jitter) with 1%Z. rewrite arange1_1.
    cbn [flat_map map app concat].
    rewrite !(frequency_harmonic wide_jitter) by reflexivity.
    unfold pitch_of, ratio_value, amplitude, decay_constant.
    rewrite eval_ratio_1_0, !Rpower_base_1.
    cbn [base_freq decay_time fs jitter wide_jitter np_sum fold_right List.length
         np_add uniform seq map combine fst snd draws_low].
    unfold draws_low. f_equal; repeat f_equal; lra.
  - apply wide_jitter_defined.
  - cbn. lia.
  - discriminate.
  - repeat constructor. apply positive_1_0.
Qed.

(** ** The theorems at concrete chords *)

Lemma callback_two_blocks_witness :
  s_fs two_partials <> 0%Z /\ Forall nonzero (tau_list two_partials) /\
  exists o1 s1 o2 s2,
    callback two_partials 4 = (Ok o1, s1) /\
    callback s1 4 = (Ok o2, s2) /\
    callback two_partials (2 * 4) = (Ok (o1 ++ o2), s2).
Proof.
  assert (H1 : s_fs two_partials <> 0%Z) by discriminate.
  split; [exact H1 |]. split; [exact two_partials_decay |].
  exact (callback_two_blocks two_partials 4 H1 two_partials_decay).
Defined.

Lemma stretched_frequencies_witness :
  stretch_defined four_harmonics /\ (1 <= n_harmonics four_harmonics)%Z /\
  jitter four_harmonics = 0 /\ ["1.0"%string] <> [] /\
  Forall (positive_ratio eval_ratio) ["1.0"%string] /\
  exists s,
    _play eval_ratio draws_low four_harmonics ["1.0"%string] 0 = Ok s /\
    f_list s = [220 * 1; 220 * 2; 220 * 3; 220 * 4].
Proof.
  assert (H1 : (1 <= n_harmonics four_harmonics)%Z) by (cbn; lia).
  assert (H2 : jitter four_harmonics = 0) by reflexivity.
  assert (H3 : ["1.0"%string] <> []) by discriminate.
  assert (H4 : Forall (positive_ratio eval_ratio) ["1.0"%string])
    by (repeat constructor; apply positive_1_0).
  repeat (split; [assumption || apply four_harmonics_defined |]).
  destruct (stretched_frequencies eval_ratio draws_low four_harmonics ["1.0"%string] 0
              four_harmonics_defined H1 H2 H3 H4) as (s & Hs & _ & _ & Hf).
  exists s. split; [exact Hs |].
  apply Hf; [reflexivity | apply eval_ratio_1_0 | reflexivity | reflexivity].
Defined.

Lemma normalization_witness :
  _play eval_ratio draws_low scenario ["1.0"%string; "1.5"%string] 0 = Ok two_partials /\
  norm two_partials = 0.3 / np_sum (amp_list two_partials) /\
  map (fun a => a * norm two_partials) (amp_list two_partials) = [0.15; 0.15].
Proof.
  pose proof (normalization eval_ratio draws_low scenario _ 0 two_partials
                            (scenario_play draws_low 0)) as (_ & Hn & _ & Hs).
  split; [apply scenario_play |]. split; [exact Hn |].
  apply Hs; reflexivity.
Defined.

Lemma rolloff_and_decay_witness :
  (_play eval_ratio draws_low scenario ["1.0"%string; "1.5"%string] 0 = Ok two_partials /\
   0 < rolloff_coeff scenario /\
   amplitude scenario 2 <= amplitude scenario 1 /\
   Forall (eq 1) (amp_list two_partials) /\
   Forall (eq (decay_time scenario)) (tau_list two_partials)) /\
  (0 < decay_exponent four_harmonics /\ 0 < decay_time four_harmonics /\
   decay_constant four_harmonics 2 < decay_constant four_harmonics 1).
Proof.
  split.
  - pose proof (rolloff_and_decay eval_ratio draws_low scenario _ 0 two_partials
                                  (scenario_play draws_low 0)) as (_ & Ha & _ & Hone).
    assert (Hp : 0 < rolloff_coeff scenario) by (cbn; lra).
    split; [apply scenario_play |]. split; [exact Hp |].
    split; [apply (Ha Hp); lia |].
    apply Hone; reflexivity.
  - assert (Hd : 0 < decay_exponent four_harmonics) by (cbn; lra).
    assert (Ht : 0 < decay_time four_harmonics) by (cbn; lra).
    split; [exact Hd |]. split; [exact Ht |].
    assert (Hplay : _play eval_ratio draws_low four_harmonics ["1.0"%string] 0
                    = Ok (built_session eval_ratio draws_low four_harmonics ["1.0"%string] 0)).
    { apply _play_ok.
      - apply four_harmonics_defined.
      - cbn; lia.
      - discriminate.
      - repeat constructor; apply positive_1_0. }
    pose proof (rolloff_and_decay eval_ratio draws_low four_harmonics _ 0 _ Hplay)
      as (_ & _ & Hdecay & _).
    apply (Hdecay Hd Ht). lia.
Defined.

Lemma envelope_decreasing_witness :
  0 < 1 /\ envelope 1 0 = Ok 1 /\ envelope 1 2 = Ok (exp (- 2 / 1)).
Proof.
  assert (H : 0 < 1) by lra.
  destruct (envelope_decreasing 1 H) as (He & _ & H0 & _).
  split; [exact H |]. split; [exact H0 | apply He].
Defined.

Lemma callback_phases_witness :
  _play eval_ratio draws_low scenario ["1.0"%string; "1.5"%string] 0 = Ok two_partials /\
  t_cur two_partials = 0 /\
  Forall in_turn (phases (snd (output_stream two_partials [4; 4]%nat))).
Proof.
  pose proof (callback_phases eval_ratio draws_low scenario _ 0 two_partials [4; 4]%nat
                              (scenario_play draws_low 0)) as ((Ht & _) & Hs & _).
  split; [apply scenario_play |]. split; [exact Ht | exact Hs].
Defined.

Lemma deterministic_render_witness :
  jitter scenario = 0 /\
  _play eval_ratio draws_low scenario ["1.0"%string; "1.5"%string] 0
  = _play eval_ratio draws_mid scenario ["1.0"%string; "1.5"%string] 7.
Proof.
  assert (H : jitter scenario = 0) by reflexivity.
  split; [exact H |].
  exact (proj1 (deterministic_render eval_ratio draws_low draws_mid scenario
                                     ["1.0"%string; "1.5"%string] 0 7 H)).
Defined.

Lemma jitter_perturbation_witness :
  (forall i, 0 <= draws_low i < 1) /\ 0 < jitter wide_jitter /\
  stretch_defined wide_jitter /\ (1 <= n_harmonics wide_jitter)%Z /\
  ["1.0"%string] <> [] /\ Forall (positive_ratio eval_ratio) ["1.0"%string] /\
  exists s,
    _play eval_ratio draws_low wide_jitter ["1.0"%string] 0 = Ok s /\
    forall blocks, f_list (snd (output_stream s blocks)) = f_list s.
Proof.
  assert (H1 : 0 < jitter wide_jitter) by (cbn; lra).
  assert (H2 : (1 <= n_harmonics wide_jitter)%Z) by (cbn; lia).
  assert (H3 : ["1.0"%string] <> []) by discriminate.
  assert (H4 : Forall (positive_ratio eval_ratio) ["1.0"%string])
    by (repeat constructor; apply positive_1_0).
  split; [exact draws_low_unit |].
  repeat (split; [assumption || apply wide_jitter_defined |]).
  destruct (jitter_perturbation eval_ratio draws_low wide_jitter ["1.0"%string] 0
              draws_low_unit H1 wide_jitter_defined H2 H3 H4) as (s & Hs & _ & _ & Hf).
  exists s. split; [exact Hs | exact Hf].
Defined.


(** ** Where the code departs from the specification *)


(** C9 fails: at a base pitch of 20 Hz with a jitter of 30 Hz and a
    draw at the low end of the unit interval, the frequency stored is
    -10 Hz; nothing clamps it. *)
Lemma jitter_not_clamped :
  0 < jitter wide_jitter /\ 0 <= draws_low 0 < 1 /\
  exists s f,
    _play eval_ratio draws_low wide_jitter ["1.0"%string] 0 = Ok s /\
    f_list s = [f] /\ f <= 0.
Proof.
  split; [cbn; lra |]. split; [apply draws_low_unit |].
  eexists. exists (-10). split; [apply wide_jitter_play |].
  split; [reflexivity | lra].
Qed.

(** * Further facts

    ** The stream over any cut into blocks *)

Lemma advance_fs (s : Session) (n : nat) : s_fs (advance s n) = s_fs s.
Proof. reflexivity. Qed.

Lemma advance_tau (s : Session) (n : nat) : tau_list (advance s n) = tau_list s.
Proof. reflexivity. Qed.

(** The stream started [n] frames into the signal of [s] writes the
    samples of [s] from frame [n] on. *)
Lemma output_stream_from (blocks : list nat) (s : Session) (n : nat) :
  s_fs s <> 0%Z -> Forall nonzero (tau_list s) ->
  exists outs,
    output_stream (advance s n) blocks
    = (map Ok outs, advance s (n + list_sum blocks)) /\
    map (@List.length R) outs = blocks /\
    concat outs
    = map (fun i => sample_value s (INR (n + i) / IZR (s_fs s)))
          (seq 0 (list_sum blocks)).
Proof.
  intros Hfs Htau. revert n.
  induction blocks as [| m blocks IH]; intros n.
  - exists []. cbn. rewrite Nat.add_0_r. repeat split.
  - destruct (IH (n + m)%nat) as (outs & Hs & Hl & Hc).
    exists (map (sample_value (advance s n)) (block_times (s_fs s) m) :: outs).
    cbn [output_stream].
    rewrite (callback_ok (advance s n) m) by assumption.
    rewrite advance_fs, advance_advance by assumption.
    rewrite Hs. cbn [list_sum fold_right map concat].
    rewrite Nat.add_assoc. split; [reflexivity |]. split.
    + rewrite Hl. unfold block_times. now rewrite !length_map, length_seq.
    + rewrite Hc. change (fold_right Nat.add 0%nat blocks) with (list_sum blocks).
      rewrite seq_app, map_app. f_equal.
      * unfold block_times. rewrite map_map. apply map_ext.
        intros i. now apply sample_value_advance.
      * cbn [Nat.add].
        replace (seq m (list_sum blocks)) with (seq (m + 0) (list_sum blocks))
          by (now rewrite Nat.add_0_r).
        rewrite seq_offset, map_map. apply map_ext.
        intros i. now rewrite Nat.add_assoc.
Qed.

(** X1. The signal does not depend on the block lengths: a stream of
    one or more blocks writes, block after block, the samples one
    callback for the total number of frames writes, and leaves the
    state that callback leaves. *)
Theorem stream_block_partition (s : Session) (frames : nat) (blocks : list nat) :
  s_fs s <> 0%Z -> Forall nonzero (tau_list s) ->
  exists outs o,
    fst (output_stream s (frames :: blocks)) = map Ok outs /\
    map (@List.length R) outs = frames :: blocks /\
    callback s (list_sum (frames :: blocks))
    = (Ok o, snd (output_stream s (frames :: blocks))) /\
    concat outs = o.
Proof.
  intros Hfs Htau.
  destruct (output_stream_from blocks s frames Hfs Htau) as (outs & Hs & Hl & Hc).
  exists (map (sample_value s) (block_times (s_fs s) frames) :: outs).
  eexists. cbn [output_stream].
  rewrite (callback_ok s frames) by assumption. rewrite Hs. cbn [fst snd].
  split; [reflexivity |]. split.
  - cbn [map]. rewrite Hl. unfold block_times. now rewrite !length_map, length_seq.
  - split.
    + change (list_sum (frames :: blocks)) with (frames + list_sum blocks)%nat.
      rewrite callback_ok by assumption. reflexivity.
    + cbn [concat]. rewrite Hc, block_times_add, map_app. f_equal.
      now rewrite map_map.
Qed.

(** ** The size of the samples *)

Lemma exp_nonpos_le_1 (x : R) : x <= 0 -> exp x <= 1.
Proof.
  intros [H | ->].
  - left. rewrite <- exp_0. now apply exp_increasing.
  - right. apply exp_0.
Qed.

Lemma exp_le (x y : R) : x <= y -> exp x <= exp y.
Proof.
  intros [H | ->].
  - left. now apply exp_increasing.
  - right. reflexivity.
Qed.

(** The envelope of a partial at a time that is not negative is at
    most the envelope of the longest decay constant. *)
Lemma envelope_le (T tau x : R) :
  0 < tau <= T -> 0 <= x -> exp (- x / tau) <= exp (- x / T).
Proof.
  intros [Hpos Hle] Hx. apply exp_le.
  assert (HT : 0 < T) by lra.
  assert (Hinv : / T <= / tau) by (apply Rinv_le_contravar; assumption).
  unfold Rdiv. nra.
Qed.

Lemma partial_value_bound (t_cur ti E phase f amp tau : R) :
  0 <= amp -> exp (- (t_cur + ti) / tau) <= E ->
  Rabs (partial_value t_cur ti (phase, f, (amp, tau))) <= amp * E.
Proof.
  intros Ha He. unfold partial_value.
  pose proof (exp_pos (- (t_cur + ti) / tau)) as Hpos.
  pose proof (SIN_bound (phase + 2 * PI * f * ti)) as Hsin.
  rewrite !Rabs_mult, (Rabs_pos_eq amp) by assumption.
  rewrite (Rabs_pos_eq (exp _)) by lra.
  assert (Hs : Rabs (sin (phase + 2 * PI * f * ti)) <= 1) by (apply Rabs_le; lra).
  assert (0 <= Rabs (sin (phase + 2 * PI * f * ti))) by apply Rabs_pos.
  assert (amp * exp (- (t_cur + ti) / tau) * Rabs (sin (phase + 2 * PI * f * ti))
          <= amp * exp (- (t_cur + ti) / tau) * 1)
    by (apply Rmult_le_compat_l; [apply Rmult_le_pos; lra | assumption]).
  assert (amp * exp (- (t_cur + ti) / tau) <= amp * E)
    by (apply Rmult_le_compat_l; assumption).
  lra.
Qed.

(** The amplitude of a row. *)
Lemma terms_bound (t_cur ti E : R) (l : list (R * R * (R * R))) :
  Forall (fun row => 0 <= fst (snd row)
                     /\ exp (- (t_cur + ti) / snd (snd row)) <= E) l ->
  Rabs (np_sum (map (partial_value t_cur ti) l))
  <= E * np_sum (map (fun row => fst (snd row)) l).
Proof.
  induction 1 as [| [[phase f] [amp tau]] l [Ha He] _ IH].
  - cbn. rewrite Rabs_R0. lra.
  - change (Rabs (partial_value t_cur ti (phase, f, (amp, tau))
                  + np_sum (map (partial_value t_cur ti) l))
            <= E * (amp + np_sum (map (fun row => fst (snd row)) l))).
    cbn [fst snd] in Ha, He.
    pose proof (partial_value_bound t_cur ti E phase f amp tau Ha He).
    pose proof (Rabs_triang (partial_value t_cur ti (phase, f, (amp, tau)))
                            (np_sum (map (partial_value t_cur ti) l))).
    lra.
Qed.

Lemma np_sum_nonneg (l : list R) : Forall (fun a => 0 < a) l -> 0 <= np_sum l.
Proof.
  induction 1 as [| a l Ha _ IH]; cbn; [lra |].
  unfold np_sum in IH. lra.
Qed.

(** The amplitudes of the rows sum to at most the sum of the
    amplitude array. *)
Lemma rows_amp_sum {X T : Type} (amps : list R) (xs : list X) (ts : list T) :
  Forall (fun a => 0 < a) amps ->
  np_sum (map (fun row => fst (snd row)) (combine xs (combine amps ts)))
  <= np_sum amps.
Proof.
  intros Hpos. revert xs ts.
  induction Hpos as [| a amps Ha Hrest IH]; intros xs ts.
  - destruct xs; cbn; lra.
  - pose proof (np_sum_nonneg _ Hrest) as Hn.
    destruct xs as [| x xs]; [cbn; unfold np_sum in Hn; lra |].
    destruct ts as [| t ts]; [cbn; unfold np_sum in Hn; lra |].
    cbn [combine map fst snd]. specialize (IH xs ts).
    change (a + np_sum (map (fun row => fst (snd row)) (combine xs (combine amps ts)))
            <= a + np_sum amps).
    lra.
Qed.

Lemma rows_in (s : Session) (phase f amp tau : R) :
  In (phase, f, (amp, tau)) (rows s) ->
  In phase (phases s) /\ In amp (amp_list s) /\ In tau (tau_list s).
Proof.
  unfold rows. intros H. split; [| split].
  - apply in_combine_l in H. now apply in_combine_l in H.
  - apply in_combine_r in H. now apply in_combine_l in H.
  - apply in_combine_r in H. now apply in_combine_r in H.
Qed.

Lemma sample_value_bound (T : R) (s : Session) (ti : R) :
  headroom_kept T s -> 0 <= ti ->
  Rabs (sample_value s ti) <= 0.3 * exp (- (t_cur s + ti) / T).
Proof.
  intros (HT & Hfs & Htau & Hamp & Hsum & Hnorm & Ht) Hti.
  unfold sample_value.
  assert (Hrows : Forall (fun row => 0 <= fst (snd row)
                            /\ exp (- (t_cur s + ti) / snd (snd row))
                               <= exp (- (t_cur s + ti) / T)) (rows s)).
  { apply Forall_forall. intros [[phase f] [amp tau]] Hin. cbn [fst snd].
    destruct (rows_in s _ _ _ _ Hin) as (_ & Ha & Htaus).
    rewrite Forall_forall in Htau, Hamp. split.
    - left. now apply Hamp.
    - apply envelope_le; [now apply Htau | lra]. }
  pose proof (terms_bound _ _ _ _ Hrows) as Hb.
  pose proof (rows_amp_sum (amp_list s) (combine (phases s) (f_list s)) (tau_list s) Hamp)
    as Hr.
  change (combine (combine (phases s) (f_list s)) (combine (amp_list s) (tau_list s)))
    with (rows s) in Hr.
  pose proof (exp_pos (- (t_cur s + ti) / T)) as He.
  assert (Hn : 0 < norm s) by (rewrite Hnorm; apply Rdiv_lt_0_compat; lra).
  rewrite Rabs_mult, (Rabs_pos_eq (norm s)) by lra.
  assert (Hall : Rabs (np_sum (map (partial_value (t_cur s) ti) (rows s)))
                 <= exp (- (t_cur s + ti) / T) * np_sum (amp_list s)) by nra.
  assert (Hfin : norm s * (exp (- (t_cur s + ti) / T) * np_sum (amp_list s))
                 = 0.3 * exp (- (t_cur s + ti) / T))
    by (rewrite Hnorm; field; lra).
  rewrite <- Hfin. apply Rmult_le_compat_l; lra.
Qed.

Lemma headroom_kept_nonzero (T : R) (s : Session) :
  headroom_kept T s -> s_fs s <> 0%Z /\ Forall nonzero (tau_list s).
Proof.
  intros (_ & Hfs & Htau & _). split; [lia |].
  eapply Forall_impl; [| exact Htau]. intros tau [H _]. unfold nonzero. lra.
Qed.

Lemma headroom_kept_advance (T : R) (s : Session) (n : nat) :
  headroom_kept T s -> headroom_kept T (advance s n).
Proof.
  intros (HT & Hfs & Htau & Hamp & Hsum & Hnorm & Ht).
  unfold headroom_kept; cbn [advance s_fs tau_list amp_list norm t_cur].
  repeat split; try assumption.
  assert (0 < IZR (s_fs s)) by (now apply IZR_lt).
  assert (0 <= INR n / IZR (s_fs s))
    by (apply Rmult_le_pos; [apply pos_INR | left; now apply Rinv_0_lt_compat]).
  lra.
Qed.

Lemma block_times_nonneg (fs : Z) (frames : nat) (ti : R) :
  (0 < fs)%Z -> In ti (block_times fs frames) -> 0 <= ti.
Proof.
  intros Hfs Hin. unfold block_times in Hin. apply in_map_iff in Hin.
  destruct Hin as (i & <- & _).
  assert (0 < IZR fs) by (now apply IZR_lt).
  apply Rmult_le_pos; [apply pos_INR | left; now apply Rinv_0_lt_compat].
Qed.

Lemma Rpower_ge_1 (k : Z) (d : R) : (1 <= k)%Z -> 0 <= d -> 1 <= Rpower (IZR k) d.
Proof.
  intros Hk Hd. unfold Rpower. rewrite <- exp_0. apply exp_le.
  assert (1 <= IZR k) by (now apply IZR_le).
  assert (0 <= ln (IZR k)).
  { rewrite <- ln_1. destruct (Req_dec_T (IZR k) 1) as [-> | N]; [lra |].
    left. apply ln_increasing; lra. }
  now apply Rmult_le_pos.
Qed.

(** A session that was built, with a positive sample rate and decay
    time, keeps the headroom; its decay constants are at most the decay
    time when the decay exponent is not negative. *)
Lemma _play_headroom_kept (eval : string -> outcome R) (rng : nat -> R) (self : App)
      (ratios : list string) (pos : nat) (s : Session) :
  _play eval rng self ratios pos = Ok s ->
  (0 < fs self)%Z -> 0 < decay_time self ->
  (exists T, headroom_kept T s) /\
  (0 <= decay_exponent self -> headroom_kept (decay_time self) s).
Proof.
  intros Hplay Hfs Ht.
  destruct (_play_initial _ _ _ _ _ _ Hplay) as (Hsfs & Ht0 & _).
  destruct (_play_inv _ _ _ _ _ _ Hplay) as (Hamp & Htau & Hsum & Hnorm).
  assert (Hpos : Forall (fun a => 0 < a) (amp_list s))
    by (rewrite Hamp; apply amplitudes_pos).
  assert (Hsum' : 0 < np_sum (amp_list s)).
  { pose proof (np_sum_nonneg _ Hpos). lra. }
  assert (Hbase : forall T,
             0 < T -> Forall (fun tau => 0 < tau <= T) (tau_list s) -> headroom_kept T s).
  { intros T HT0 HT. unfold headroom_kept. rewrite Hsfs, Ht0.
    repeat split; try assumption; lra. }
  assert (Htaupos : Forall (fun tau => 0 < tau) (tau_list s)).
  { rewrite Htau. unfold decay_constants. apply Forall_concat. rewrite Forall_map.
    apply Forall_forall. intros _ _. rewrite Forall_map.
    apply Forall_forall. intros k _. unfold decay_constant, Rpower.
    apply Rdiv_lt_0_compat; [assumption | apply exp_pos]. }
  split.
  - exists (fold_right Rmax 1 (tau_list s)). apply Hbase.
    { clear. induction (tau_list s) as [| tau l IH]; cbn; [lra |].
      eapply Rlt_le_trans; [exact IH | apply Rmax_r]. }
    clear - Htaupos. induction Htaupos as [| tau l Htau _ IH]; constructor.
    + split; [assumption | cbn; apply Rmax_l].
    + eapply Forall_impl; [| exact IH]. cbn. intros t [H1 H2]. split; [assumption |].
      eapply Rle_trans; [exact H2 | apply Rmax_r].
  - intros Hd. apply Hbase; [assumption |]. rewrite Htau. unfold decay_constants.
    apply Forall_concat. rewrite Forall_map.
    apply Forall_forall. intros _ _. rewrite Forall_map.
    apply Forall_forall. intros k Hk. apply harmonics_range in Hk.
    unfold decay_constant.
    pose proof (Rpower_ge_1 k (decay_exponent self) (proj1 Hk) Hd) as Hp.
    split.
    + apply Rdiv_lt_0_compat; lra.
    + apply (Rmult_le_reg_r (Rpower (IZR k) (decay_exponent self))); [lra |].
      unfold Rdiv. rewrite Rmult_assoc, Rinv_l by lra. nra.
Qed.

Lemma headroom_kept_stream (T : R) (s : Session) (blocks : list nat) :
  headroom_kept T s -> headroom_kept T (snd (output_stream s blocks)).
Proof.
  intros H. apply (output_stream_ind (headroom_kept T)); [| exact H].
  intros s' frames Hs'. rewrite callback_state.
  destruct (s_fs s' =? 0)%Z; [exact Hs' | now apply headroom_kept_advance].
Qed.

Lemma headroom_kept_rendered (T : R) (blocks : list nat) (s : Session) :
  headroom_kept T s ->
  Forall (rendered within_headroom) (fst (output_stream s blocks)).
Proof.
  revert s. induction blocks as [| frames blocks IH]; intros s Hs; cbn [output_stream].
  - constructor.
  - destruct (headroom_kept_nonzero T s Hs) as [Hfs Htau].
    rewrite (callback_ok s frames Hfs Htau).
    specialize (IH (advance s frames) (headroom_kept_advance T s frames Hs)).
    destruct (output_stream (advance s frames) blocks) as [os s''].
    cbn [fst] in *. constructor; [| exact IH].
    cbn [rendered]. rewrite Forall_map. apply Forall_forall. intros ti Hti.
    unfold within_headroom.
    assert (Hnn : 0 <= ti) by (eapply block_times_nonneg; [apply (proj1 (proj2 Hs)) | exact Hti]).
    pose proof (sample_value_bound T s ti Hs Hnn) as Hb.
    destruct Hs as (HT & _ & _ & _ & _ & _ & Ht).
    assert (He : exp (- (t_cur s + ti) / T) <= 1).
    { apply exp_nonpos_le_1. unfold Rdiv.
      assert (0 < / T) by (now apply Rinv_0_lt_compat). nra. }
    lra.
Qed.

Lemma stream_elapsed (T : R) (blocks : list nat) (s : Session) :
  headroom_kept T s ->
  t_cur (snd (output_stream s blocks))
  = t_cur s + INR (list_sum blocks) / IZR (s_fs s).
Proof.
  revert s. induction blocks as [| frames blocks IH]; intros s Hs; cbn [output_stream].
  - cbn. unfold Rdiv. ring.
  - destruct (headroom_kept_nonzero T s Hs) as [Hfs Htau].
    rewrite (callback_ok s frames Hfs Htau).
    specialize (IH (advance s frames) (headroom_kept_advance T s frames Hs)).
    destruct (output_stream (advance s frames) blocks) as [os s''].
    cbn [snd] in *. rewrite IH. cbn [advance t_cur s_fs list_sum fold_right].
    change (fold_right Nat.add 0%nat blocks) with (list_sum blocks).
    rewrite plus_INR. unfold Rdiv. ring.
Qed.

(** X2. No clipping: in a session that was built, at a positive sample
    rate and decay time, every block of every stream is rendered and
    every sample is at most 0.3 in size, whatever the chord, the number
    of harmonics and the block lengths. *)
Theorem samples_within_headroom
        (eval : string -> outcome R) (rng : nat -> R) (self : App)
        (ratios : list string) (pos : nat) (s0 : Session) (blocks : list nat) :
  _play eval rng self ratios pos = Ok s0 ->
  (0 < fs self)%Z -> 0 < decay_time self ->
  Forall (rendered within_headroom) (fst (output_stream s0 blocks)).
Proof.
  intros Hplay Hfs Ht.
  destruct (_play_headroom_kept _ _ _ _ _ _ Hplay Hfs Ht) as [[T HT] _].
  now apply (headroom_kept_rendered T).
Qed.

(** X3. The signal dies away: with a decay exponent that is not
    negative, the sample at frame [i] of the block that follows [blocks]
    is at most [0.3 * exp (- t / decay_time)] in size, [t] being the
    time of that frame since the start of the session. *)
Theorem samples_decay
        (eval : string -> outcome R) (rng : nat -> R) (self : App)
        (ratios : list string) (pos : nat) (s0 : Session)
        (blocks : list nat) (frames : nat) :
  _play eval rng self ratios pos = Ok s0 ->
  (0 < fs self)%Z -> 0 < decay_time self -> 0 <= decay_exponent self ->
  exists out,
    fst (callback (snd (output_stream s0 blocks)) frames) = Ok out /\
    List.length out = frames /\
    forall i x,
      nth_error out i = Some x ->
      Rabs x <= 0.3 * exp (- (INR (list_sum blocks + i) / IZR (fs self))
                           / decay_time self).
Proof.
  intros Hplay Hfs Ht Hd.
  destruct (_play_headroom_kept _ _ _ _ _ _ Hplay Hfs Ht) as [_ HT].
  specialize (HT Hd).
  destruct (_play_initial _ _ _ _ _ _ Hplay) as (Hsfs & Ht0 & _).
  pose proof (headroom_kept_stream _ _ blocks HT) as Hs.
  pose proof (stream_elapsed _ blocks _ HT) as Hel.
  rewrite Ht0, Hsfs, Rplus_0_l in Hel.
  set (s := snd (output_stream s0 blocks)) in *.
  assert (Hsfs' : s_fs s = fs self).
  { unfold s. clear -Hsfs.
    apply (output_stream_ind (fun s' => s_fs s' = fs self)); [| exact Hsfs].
    intros s' n H. rewrite callback_state. now destruct (s_fs s' =? 0)%Z. }
  destruct (headroom_kept_nonzero _ _ Hs) as [Hnz Htau].
  exists (map (sample_value s) (block_times (s_fs s) frames)).
  rewrite (callback_ok s frames Hnz Htau). cbn [fst].
  split; [reflexivity |]. split.
  - unfold block_times. now rewrite !length_map, length_seq.
  - intros i x Hx. unfold block_times in Hx. rewrite !nth_error_map in Hx.
    destruct (nth_error (seq 0 frames) i) as [j |] eqn:Hj; [| discriminate].
    assert (Hi : (i < frames)%nat).
    { assert (Hn : nth_error (seq 0 frames) i <> None) by congruence.
      apply nth_error_Some in Hn. now rewrite length_seq in Hn. }
    rewrite nth_error_seq_0 in Hj by assumption. injection Hj as <-.
    cbn [option_map] in Hx. injection Hx as <-.
    assert (Hnn : 0 <= INR i / IZR (s_fs s)).
    { rewrite Hsfs'. assert (0 < IZR (fs self)) by (now apply IZR_lt).
      apply Rmult_le_pos; [apply pos_INR | left; now apply Rinv_0_lt_compat]. }
    pose proof (sample_value_bound _ s _ Hs Hnn) as Hb.
    rewrite Hel, Hsfs' in Hb.
    replace (INR (list_sum blocks + i) / IZR (fs self))
      with (INR (list_sum blocks) / IZR (fs self) + INR i / IZR (fs self))
      by (rewrite plus_INR; unfold Rdiv; ring).
    rewrite Hsfs'. exact Hb.
Qed.

(** ** The onset *)

Lemma np_sum_zeros (l : list R) : Forall (eq 0) l -> np_sum l = 0.
Proof.
  induction 1 as [| a l <- _ IH]; cbn; [reflexivity |].
  unfold np_sum in IH. rewrite IH. ring.
Qed.

(** X4. No click at the onset: at a sample rate and a decay time that
    are not zero, the first sample a session that was built writes is
    0, for any chord and any block of at least one frame. *)
Theorem first_sample_zero
        (eval : string -> outcome R) (rng : nat -> R) (self : App)
        (ratios : list string) (pos : nat) (s0 : Session) (frames : nat) :
  _play eval rng self ratios pos = Ok s0 ->
  fs self <> 0%Z -> decay_time self <> 0 ->
  exists out, fst (callback s0 (S frames)) = Ok (0 :: out).
Proof.
  intros Hplay Hfs Ht.
  destruct (_play_initial _ _ _ _ _ _ Hplay) as (Hsfs & Ht0 & Hph).
  pose proof (_play_decay_nonzero _ _ _ _ _ _ Hplay Ht) as Htau.
  rewrite <- Hsfs in Hfs.
  rewrite (callback_ok s0 (S frames) Hfs Htau). cbn [fst].
  unfold block_times. cbn [seq map]. eexists. f_equal. f_equal.
  unfold sample_value.
  rewrite np_sum_zeros; [ring |].
  rewrite Forall_map. apply Forall_forall. intros [[phase f] [amp tau]] Hin.
  destruct (rows_in s0 _ _ _ _ Hin) as (Hp & _ & _).
  rewrite Hph in Hp. apply in_map_iff in Hp. destruct Hp as (_ & <- & _).
  unfold partial_value. cbn [INR].
  replace (0 + 2 * PI * f * (0 / IZR (s_fs s0))) with 0 by (unfold Rdiv; ring).
  rewrite sin_0. ring.
Qed.

(** ** The shapes of the arrays *)

Lemma mapM_length {A B : Type} (f : A -> outcome B) (l : list A) (bs : list B) :
  mapM f l = Ok bs -> List.length bs = List.length l.
Proof.
  revert bs. induction l as [| a l IH]; intros bs; cbn.
  - intros [= <-]. reflexivity.
  - destruct (f a) as [b | |]; cbn; try discriminate.
    destruct (mapM f l) as [bs' | |]; cbn; try discriminate.
    intros [= <-]. cbn. f_equal. now apply IH.
Qed.

Lemma ratio_partials_length (eval : string -> outcome R) (rng : nat -> R) (self : App)
      (r : string) (pos : nat) (f_k amp tauk : list R) :
  ratio_partials eval rng self r pos = Ok (f_k, amp, tauk) ->
  List.length f_k = List.length (harmonics self).
Proof.
  unfold ratio_partials.
  destruct (eval r) as [m | |]; cbn [bind]; try discriminate.
  destruct (calc_B self (base_freq self * m)) as [B | |]; cbn [bind]; try discriminate.
  destruct (mapM _ _) as [fk | |] eqn:Hfk; cbn [bind]; try discriminate.
  apply mapM_length in Hfk. intros [= <- _ _].
  destruct (Rlt_dec 0 (jitter self)).
  - now rewrite np_add_uniform_length.
  - exact Hfk.
Qed.

Lemma partial_lists_length (eval : string -> outcome R) (rng : nat -> R) (self : App)
      (ratios : list string) (pos : nat) (fl al tl : list (list R)) :
  partial_lists eval rng self ratios pos = Ok (fl, al, tl) ->
  List.length (concat fl)
  = (List.length ratios * List.length (harmonics self))%nat.
Proof.
  revert pos fl al tl. induction ratios as [| r ratios IH]; intros pos fl al tl; cbn.
  - intros [= <- _ _]. reflexivity.
  - destruct (ratio_partials eval rng self r pos) as [[[f_k amp] tauk] | |] eqn:Hr.
    + destruct (partial_lists eval rng self ratios (pos + draws self))
        as [[[fl' al'] tl'] | |] eqn:Hrest; try discriminate.
      intros [= <- _ _]. cbn. rewrite length_app.
      rewrite (ratio_partials_length _ _ _ _ _ _ _ _ Hr), (IH _ _ _ _ Hrest).
      reflexivity.
    + discriminate.
    + destruct (partial_lists eval rng self ratios (pos + draws self)); discriminate.
Qed.

Lemma blocks_length {A : Type} (g : Z -> R) (self : App) (l : list A) :
  List.length (concat (map (fun _ => map g (harmonics self)) l))
  = (List.length l * List.length (harmonics self))%nat.
Proof.
  induction l as [| a l IH]; cbn; [reflexivity |].
  now rewrite length_app, length_map, IH.
Qed.

Lemma _play_aligned (eval : string -> outcome R) (rng : nat -> R) (self : App)
      (ratios : list string) (pos : nat) (s : Session) :
  _play eval rng self ratios pos = Ok s ->
  aligned (List.length ratios * Z.to_nat (n_harmonics self)) s.
Proof.
  intros Hplay.
  destruct (_play_initial _ _ _ _ _ _ Hplay) as (_ & _ & Hph).
  destruct (_play_inv _ _ _ _ _ _ Hplay) as (Hamp & Htau & _ & _).
  assert (Hf : List.length (f_list s)
               = (List.length ratios * Z.to_nat (n_harmonics self))%nat).
  { revert Hplay. unfold _play.
    destruct (partial_lists eval rng self ratios pos) as [[[fl al] tl] | e |] eqn:Hl;
      try discriminate.
    apply partial_lists_length in Hl. rewrite harmonics_length in Hl.
    destruct fl as [| f0 fl]; cbn [np_concatenate bind]; try discriminate.
    destruct (np_concatenate al) as [ac | |]; cbn [bind]; try discriminate.
    destruct (np_concatenate tl) as [tc | |]; cbn [bind]; try discriminate.
    destruct (np_div 0.3 (np_sum ac)) as [nm | |]; cbn [bind]; try discriminate.
    intros [= <-]. exact Hl. }
  unfold aligned. rewrite Hph, length_map, Hamp, Htau.
  unfold amplitudes, decay_constants.
  rewrite !blocks_length, harmonics_length. repeat split; assumption.
Qed.

Lemma aligned_callback (n : nat) (s : Session) (frames : nat) :
  aligned n s -> aligned n (snd (callback s frames)).
Proof.
  intros H. rewrite callback_state. destruct (s_fs s =? 0)%Z; [exact H |].
  destruct H as (Hf & Ha & Ht & Hp). unfold aligned, advance;
    cbn [f_list amp_list tau_list phases].
  repeat split; try assumption.
  rewrite length_map, length_combine, Hp, Hf. apply Nat.min_id.
Qed.

(** X5. The arrays stay aligned: a session that was built holds one
    frequency, amplitude, decay constant and phase for each harmonic of
    each ratio, in every state the stream brings it to; and a callback
    that renders writes as many samples as it was asked frames. *)
Theorem arrays_aligned
        (eval : string -> outcome R) (rng : nat -> R) (self : App)
        (ratios : list string) (pos : nat) (s0 : Session) (blocks : list nat) :
  _play eval rng self ratios pos = Ok s0 ->
  let s := snd (output_stream s0 blocks) in
  aligned (List.length ratios * Z.to_nat (n_harmonics self)) s /\
  List.length (rows s) = (List.length ratios * Z.to_nat (n_harmonics self))%nat /\
  forall frames out, fst (callback s frames) = Ok out -> List.length out = frames.
Proof.
  intros Hplay s.
  assert (Hs : aligned (List.length ratios * Z.to_nat (n_harmonics self)) s).
  { apply (output_stream_ind (aligned _)).
    - intros s' frames. apply aligned_callback.
    - now apply (_play_aligned eval rng self ratios pos). }
  split; [exact Hs |]. split.
  - destruct Hs as (Hf & Ha & Ht & Hp). unfold rows.
    rewrite !length_combine, Hf, Ha, Ht, Hp. now rewrite !Nat.min_id.
  - intros frames out. unfold callback. destruct (s_fs s =? 0)%Z; cbn [fst].
    + discriminate.
    + intros H. apply mapM_length in H. rewrite H. unfold block_times.
      now rewrite length_map, length_seq.
Qed.

(** ** The stretched partials *)

Lemma stretch_ge_1 (B : R) (k : Z) : 0 <= B -> 1 <= sqrt (1 + B * IZR k ^ 2).
Proof.
  intros HB. rewrite <- sqrt_1 at 1. apply sqrt_le_1_alt.
  pose proof (pow2_ge_0 (IZR k)). nra.
Qed.

Lemma frequency_ge (self : App) (pitch : R) (k : Z) :
  0 <= B0 self -> 0 < pitch -> (1 <= k)%Z ->
  pitch * IZR k <= frequency self pitch k.
Proof.
  intros HB Hp Hk. unfold frequency.
  pose proof (stretch_ge_1 _ k (inharmonicity_nonneg self pitch HB)) as Hs.
  assert (1 <= IZR k) by (now apply IZR_le).
  assert (0 < pitch * IZR k) by (apply Rmult_lt_0_compat; lra).
  nra.
Qed.

Lemma frequency_increasing (self : App) (pitch : R) (k1 k2 : Z) :
  0 <= B0 self -> 0 < pitch -> (1 <= k1 < k2)%Z ->
  frequency self pitch k1 < frequency self pitch k2.
Proof.
  intros HB Hp [H1 H12]. unfold frequency.
  pose proof (inharmonicity_nonneg self pitch HB) as HBn.
  pose proof (stretch_ge_1 _ k1 HBn) as Hs1.
  assert (Hk1 : 1 <= IZR k1) by (now apply IZR_le).
  assert (Hk12 : IZR k1 < IZR k2) by (now apply IZR_lt).
  assert (Hs12 : sqrt (1 + inharmonicity self pitch * IZR k1 ^ 2)
                 <= sqrt (1 + inharmonicity self pitch * IZR k2 ^ 2)).
  { apply sqrt_le_1_alt. assert (IZR k1 ^ 2 <= IZR k2 ^ 2) by nra. nra. }
  assert (pitch * IZR k1 < pitch * IZR k2) by (apply Rmult_lt_compat_l; assumption).
  assert (0 < pitch * IZR k1) by (apply Rmult_lt_0_compat; lra).
  nra.
Qed.

(** X6. Without jitter, on a chord in the ranges of the data model,
    the partials of each note are sharp and in order: harmonic [k] of a
    note lies at or above [k] times the pitch of the note, and strictly
    below every higher harmonic of that note. *)
Theorem partials_sharp_and_ordered
        (eval : string -> outcome R) (rng : nat -> R) (self : App)
        (ratios : list string) (pos : nat) :
  stretch_defined self -> (1 <= n_harmonics self)%Z -> jitter self = 0 ->
  ratios <> [] -> Forall (positive_ratio eval) ratios ->
  exists s,
    _play eval rng self ratios pos = Ok s /\
    forall i r k,
      nth_error ratios i = Some r -> (1 <= k <= n_harmonics self)%Z ->
      exists f,
        nth_error (f_list s) (i * Z.to_nat (n_harmonics self) + Z.to_nat (k - 1))
        = Some f /\
        0 < base_freq self * ratio_value eval r * IZR k <= f /\
        forall k2 f2,
          (k < k2 <= n_harmonics self)%Z ->
          nth_error (f_list s) (i * Z.to_nat (n_harmonics self) + Z.to_nat (k2 - 1))
          = Some f2 ->
          f < f2.
Proof.
  intros Hwf Hn Hj Hne Hall.
  exists (built_session eval rng self ratios pos).
  split; [now apply _play_ok |].
  cbn [f_list built_session]. rewrite perturb_off by lra.
  intros i r k Hr Hk.
  pose proof (nth_error_blocks self (fun r => frequency self (pitch_of eval self r))
                               ratios i r) as Hnth.
  exists (frequency self (pitch_of eval self r) k).
  split; [apply (Hnth k Hr Hk) |].
  destruct Hwf as (Hb & _ & HB0).
  assert (Hp : 0 < pitch_of eval self r).
  { rewrite Forall_forall in Hall.
    destruct (Hall r (nth_error_In _ _ Hr)) as (m & Hm & Hpos).
    unfold pitch_of, ratio_value. rewrite Hm. now apply Rmult_lt_0_compat. }
  split.
  - fold (pitch_of eval self r). split.
    + assert (1 <= IZR k) by (apply IZR_le; lia). apply Rmult_lt_0_compat; lra.
    + apply frequency_ge; [assumption | assumption | lia].
  - intros k2 f2 Hk2 Hf2.
    assert (Hk2' : (1 <= k2 <= n_harmonics self)%Z) by lia.
    unfold unperturbed in Hf2. rewrite (Hnth k2 Hr Hk2') in Hf2. injection Hf2 as <-.
    apply frequency_increasing; [assumption | assumption | lia].
Qed.

(** ** The inharmonicity law *)

(** X7. [calc_B] at a positive reference frequency [f0]: it gives [B0]
    at [f0] itself; scaling a positive frequency by [c > 0] scales the
    result by [c ^ beta]; and for positive [B0] and [beta] the result
    grows strictly with the frequency. *)
Theorem calc_B_law (self : App) :
  0 < f0 self ->
  calc_B self (f0 self) = Ok (B0 self) /\
  (forall f c,
      0 < f -> 0 < c ->
      exists B Bc,
        calc_B self f = Ok B /\ calc_B self (c * f) = Ok Bc /\
        Bc = Rpower c (beta self) * B) /\
  (0 < B0 self -> 0 < beta self ->
   forall f1 f2,
     0 < f1 < f2 ->
     exists B1 B2,
       calc_B self f1 = Ok B1 /\ calc_B self f2 = Ok B2 /\ B1 < B2).
Proof.
  intros Hf0. split; [| split].
  - rewrite (calc_B_ok self (f0 self) Hf0 Hf0). unfold inharmonicity.
    replace (f0 self / f0 self) with 1 by (field; lra).
    rewrite Rpower_base_1. f_equal. ring.
  - intros f c Hf Hc.
    assert (Hcf : 0 < c * f) by (now apply Rmult_lt_0_compat).
    exists (inharmonicity self f), (inharmonicity self (c * f)).
    split; [now apply calc_B_ok |]. split; [now apply calc_B_ok |].
    unfold inharmonicity.
    replace (c * f / f0 self) with (c * (f / f0 self)) by (unfold Rdiv; ring).
    rewrite <- Rpower_mult_distr; [ring | assumption |].
    now apply Rdiv_lt_0_compat.
  - intros HB Hbeta f1 f2 [H1 H12].
    assert (H2 : 0 < f2) by lra.
    exists (inharmonicity self f1), (inharmonicity self f2).
    split; [now apply calc_B_ok |]. split; [now apply calc_B_ok |].
    unfold inharmonicity. apply Rmult_lt_compat_l; [assumption |].
    apply Rlt_Rpower_l; [assumption |].
    assert (0 < / f0 self) by (now apply Rinv_0_lt_compat).
    unfold Rdiv. split; nra.
Qed.

(** X8. Errors of a playback that no ratio causes.  An empty chord
    makes [_play] raise [ValueError]; a reference frequency [f0 = 0]
    makes it raise [ZeroDivisionError] at the first ratio that
    evaluates, and so does a pitch of 0 with a negative [beta].  All of
    them are raised in the thread: the caller of [play_chord] gets no
    error. *)
Theorem play_chord_build_errors
        (eval : string -> outcome R) (rng : nat -> R) (self : App)
        (r : string) (rest : list string) (pos : nat) (m : R) :
  eval r = Ok m ->
  thread_runs (play_chord eval rng self [] pos) = Raise ValueError /\
  (f0 self = 0 ->
   thread_runs (play_chord eval rng self (r :: rest) pos) = Raise ZeroDivisionError) /\
  (f0 self <> 0 -> base_freq self * m = 0 -> beta self < 0 ->
   thread_runs (play_chord eval rng self (r :: rest) pos) = Raise ZeroDivisionError) /\
  caller_gets (play_chord eval rng self [] pos) = Ok tt /\
  caller_gets (play_chord eval rng self (r :: rest) pos) = Ok tt.
Proof.
  intros Hm. cbn [thread_runs caller_gets play_chord].
  split; [reflexivity |]. split; [| split; [| split; reflexivity]].
  - intros Hf0. unfold _play. cbn [partial_lists].
    unfold ratio_partials. rewrite Hm. cbn [bind].
    unfold calc_B, py_div.
    destruct (Req_dec_T (f0 self) 0) as [_ | N]; [reflexivity | contradiction].
  - intros Hf0 Hp Hbeta. unfold _play. cbn [partial_lists].
    unfold ratio_partials. rewrite Hm. cbn [bind].
    unfold calc_B, py_div. rewrite Hp.
    destruct (Req_dec_T (f0 self) 0) as [E | _]; [contradiction |]. cbn [bind].
    replace (0 / f0 self) with 0 by (unfold Rdiv; ring).
    unfold py_pow.
    destruct (Rlt_dec 0 0) as [H | _]; [lra |].
    destruct (Req_dec_T 0 0) as [_ | N]; [| contradiction].
    destruct (Rlt_dec 0 (beta self)) as [H | _]; [lra |].
    destruct (Req_dec_T (beta self) 0) as [E | _]; [lra |].
    reflexivity.
Qed.

(** ** Loading a preset *)

Lemma find_short_spec (cs : list Chord) (s : string) (j : nat) :
  match find_short cs s j with
  | Some i => (j <= i)%nat /\ first_with_short cs s (i - j)
  | None => unknown_short cs s
  end.
Proof.
  revert j. induction cs as [| c cs IH]; intros j; cbn [find_short].
  - intros c []. 
  - destruct (String.eqb_spec (short c) s) as [E | N].
    + split; [lia |]. rewrite Nat.sub_diag. exists c.
      split; [reflexivity |]. split; [exact E |]. intros i' c' Hi. lia.
    + specialize (IH (S j)). destruct (find_short cs s (S j)) as [i |].
      * destruct IH as [Hle (c0 & Hn & Hs & Hfirst)]. split; [lia |].
        replace (i - j)%nat with (S (i - S j)) by lia.
        exists c0. split; [exact Hn |]. split; [exact Hs |].
        intros [| i'] c' Hi; cbn [nth_error].
        -- intros [= <-]. exact N.
        -- apply Hfirst. lia.
      * intros c' [<- | Hin]; [exact N | now apply IH].
Qed.

Lemma index_row_spec (cs : list Chord) (row : list string) :
  match index_row cs row with
  | Done idx_row => Forall2 (first_with_short cs) row idx_row
  | Fail e => e = Exn ValueError /\ exists s, In s row /\ unknown_short cs s
  | Unfollowed => False
  end.
Proof.
  induction row as [| s row IH]; cbn [index_row].
  - constructor.
  - pose proof (find_short_spec cs s 0) as Hf.
    destruct (find_short cs s 0) as [i |].
    + destruct Hf as [_ Hf]. rewrite Nat.sub_0_r in Hf.
      destruct (index_row cs row) as [idx | e |].
      * now constructor.
      * destruct IH as [-> (s' & Hin & Hu)]. split; [reflexivity |].
        exists s'. split; [now right | exact Hu].
      * exact IH.
    + split; [reflexivity |]. exists s. split; [now left | exact Hf].
Qed.

Lemma index_rows_spec (cs : list Chord) (rows : list (list string)) :
  match index_rows cs rows with
  | (g, Done _) => Forall2 (Forall2 (first_with_short cs)) rows g
  | (g, Fail e) =>
      e = Exn ValueError /\
      exists pre row post,
        rows = pre ++ row :: post /\
        Forall2 (Forall2 (first_with_short cs)) pre g /\
        exists s, In s row /\ unknown_short cs s
  | (_, Unfollowed) => False
  end.
Proof.
  induction rows as [| row rows IH]; cbn [index_rows].
  - constructor.
  - pose proof (index_row_spec cs row) as Hr.
    destruct (index_row cs row) as [idx | e |].
    + destruct (index_rows cs rows) as [g [[] | e |]].
      * now constructor.
      * destruct IH as [-> (pre & row' & post & -> & Hpre & Hs)].
        split; [reflexivity |].
        exists (row :: pre), row', post. split; [reflexivity |].
        split; [now constructor | exact Hs].
      * exact IH.
    + destruct Hr as [-> Hs]. split; [reflexivity |].
      exists [], row, rows. split; [reflexivity |]. split; [constructor | exact Hs].
    + exact Hr.
Qed.

Lemma first_with_short_valid (cs : list Chord) (s : string) (i : nat) :
  first_with_short cs s i -> (i < List.length cs)%nat.
Proof.
  intros (c & Hn & _). apply nth_error_Some. congruence.
Qed.

(** X9. A preset that loads: the grid of indices has the shape of the
    grid of names of the file, each index is the first place of the
    database with that short name, the flat list is the grid row after
    row, and every index is a place of the database. *)
Theorem load_preset_file_sound (st : Trainer) (lines : list string) (st' : Trainer) :
  load_preset_file st lines = (Done tt, st') ->
  grid_names st' = preset_rows lines /\
  Forall2 (Forall2 (first_with_short (chords st))) (grid_names st') (grid_indices st') /\
  flat_indices st' = concat (grid_indices st') /\
  Forall (fun i => (i < List.length (chords st))%nat) (flat_indices st') /\
  same_settings st st' /\ synth st' = synth st /\
  current_chord_idx st' = current_chord_idx st.
Proof.
  unfold load_preset_file.
  cbn [chords grid_names set_grid_names].
  pose proof (index_rows_spec (chords st) (preset_rows lines)) as Hspec.
  destruct (index_rows (chords st) (preset_rows lines)) as [g [[] | e |]];
    try discriminate.
  intros [= <-]. cbn.
  split; [reflexivity |]. split; [exact Hspec |]. split; [reflexivity |].
  split; [| repeat split].
  apply Forall_concat.
  clear -Hspec. induction Hspec as [| row idx rows g Hrow _ IH]; constructor.
  - clear -Hrow. induction Hrow as [| s i row idx Hsi _ IH]; constructor.
    + now apply (first_with_short_valid _ s).
    + exact IH.
  - exact IH.
Qed.

(** X10. A preset that does not load: [load_preset_file] fails exactly
    when a name of the file is the short name of no chord, with
    [ValueError]; it then leaves the flat list as it was, next to the
    grid of names of the whole file and the grid of indices of the rows
    before the first one with such a name. *)
Theorem load_preset_file_unknown (st : Trainer) (lines : list string) :
  let st' := snd (load_preset_file st lines) in
  (fst (load_preset_file st lines) = Done tt \/
   fst (load_preset_file st lines) = Fail (Exn ValueError)) /\
  (fst (load_preset_file st lines) = Fail (Exn ValueError) <->
   exists row s,
     In row (preset_rows lines) /\ In s row /\ unknown_short (chords st) s) /\
  (fst (load_preset_file st lines) = Fail (Exn ValueError) ->
   flat_indices st' = flat_indices st /\
   grid_names st' = preset_rows lines /\
   exists pre row post,
     preset_rows lines = pre ++ row :: post /\
     Forall2 (Forall2 (first_with_short (chords st))) pre (grid_indices st') /\
     exists s, In s row /\ unknown_short (chords st) s).
Proof.
  unfold load_preset_file.
  cbn [chords grid_names set_grid_names].
  pose proof (index_rows_spec (chords st) (preset_rows lines)) as Hspec.
  destruct (index_rows (chords st) (preset_rows lines)) as [g [[] | e |]];
    cbn [fst snd]; [| | contradiction].
  - split; [now left |]. split; [| discriminate].
    split; [discriminate |].
    intros (row & s & Hrow & Hs & Hu). exfalso.
    clear -Hspec Hrow Hs Hu.
    induction Hspec as [| row0 idx rows g Hr _ IH]; [contradiction |].
    destruct Hrow as [-> | Hrow]; [| now apply IH].
    clear -Hr Hs Hu. induction Hr as [| s0 i row idx Hsi _ IH]; [contradiction |].
    destruct Hs as [-> | Hs]; [| now apply IH].
    destruct Hsi as (c & Hn & Hc & _). apply (Hu c); [| exact Hc].
    eapply nth_error_In; eassumption.
  - destruct Hspec as [-> (pre & row & post & Hrows & Hpre & s & Hs & Hu)].
    split; [now right |]. split.
    + split; [| reflexivity]. intros _. exists row, s.
      split; [rewrite Hrows; apply in_elt |]. split; assumption.
    + intros _. cbn. split; [reflexivity |]. split; [reflexivity |].
      exists pre, row, post. split; [exact Hrows |]. split; [exact Hpre |].
      exists s. split; assumption.
Qed.

(** ** The names of a preset file *)

Lemma str_rstrip_idem (s : string) : str_rstrip (str_rstrip s) = str_rstrip s.
Proof.
  induction s as [| c s IH]; cbn [str_rstrip]; [reflexivity |].
  destruct (str_rstrip s) as [| c' t] eqn:E.
  - destruct (str_isspace c) eqn:Hc; cbn [str_rstrip]; [reflexivity |].
    now rewrite Hc.
  - cbn [str_rstrip]. cbn [str_rstrip] in IH. rewrite IH. reflexivity.
Qed.

Lemma str_lstrip_cases (s : string) :
  str_lstrip s = EmptyString
  \/ exists c t, str_lstrip s = String c t /\ str_isspace c = false.
Proof.
  induction s as [| c s IH]; cbn [str_lstrip]; [now left |].
  destruct (str_isspace c) eqn:Hc; [exact IH |].
  right. now exists c, s.
Qed.

Lemma str_rstrip_head (c : ascii) (s : string) :
  str_isspace c = false -> exists t, str_rstrip (String c s) = String c t.
Proof.
  intros Hc. cbn [str_rstrip]. destruct (str_rstrip s) as [| c' t].
  - rewrite Hc. now exists EmptyString.
  - now exists (String c' t).
Qed.

Lemma str_strip_idem (s : string) : str_strip (str_strip s) = str_strip s.
Proof.
  unfold str_strip. destruct (str_lstrip_cases s) as [-> | (c & t & -> & Hc)].
  - reflexivity.
  - destruct (str_rstrip_head c t Hc) as [t' Ht]. rewrite Ht.
    cbn [str_lstrip]. rewrite Hc, <- Ht. apply str_rstrip_idem.
Qed.

Lemma str_lstrip_chars (c : ascii) (s : string) :
  In c (list_ascii_of_string (str_lstrip s)) -> In c (list_ascii_of_string s).
Proof.
  induction s as [| c0 s IH]; cbn [str_lstrip]; [tauto |].
  destruct (str_isspace c0); [| tauto].
  intros H. right. now apply IH.
Qed.

Lemma str_rstrip_chars (c : ascii) (s : string) :
  In c (list_ascii_of_string (str_rstrip s)) -> In c (list_ascii_of_string s).
Proof.
  induction s as [| c0 s IH]; cbn [str_rstrip]; [tauto |].
  destruct (str_rstrip s) as [| c' t].
  - destruct (str_isspace c0); cbn; tauto.
  - cbn [list_ascii_of_string]. intros [H | H]; [now left | right; now apply IH].
Qed.

Lemma str_strip_chars (c : ascii) (s : string) :
  In c (list_ascii_of_string (str_strip s)) -> In c (list_ascii_of_string s).
Proof.
  unfold str_strip. intros H. now apply str_lstrip_chars, str_rstrip_chars.
Qed.

(** The pieces of a split hold no separator. *)
Lemma str_split_no_sep (sep : ascii) (s p : string) :
  In p (str_split sep s) -> ~ In sep (list_ascii_of_string p).
Proof.
  revert p. induction s as [| c s IH]; intros p; cbn [str_split].
  - intros [<- | []]. cbn. tauto.
  - destruct (Ascii.eqb_spec c sep) as [E | N].
    + intros [<- | H]; [cbn; tauto | now apply IH].
    + destruct (str_split sep s) as [| p0 ps].
      * intros [<- | []]. cbn. intros [H | []]. contradiction.
      * intros [<- | H].
        -- cbn. intros [H | H]; [contradiction |].
           apply (IH p0); [now left | exact H].
        -- apply IH. now right.
Qed.

Lemma str_bool_true (s : string) : str_bool s = true <-> s <> EmptyString.
Proof. destruct s; cbn; split; congruence. Qed.

Lemma preset_row_names (line : string) (parts : list string) (s : string) :
  preset_row line = Some parts -> In s parts ->
  s <> EmptyString /\ str_strip s = s /\ ~ In ";"%char (list_ascii_of_string s).
Proof.
  unfold preset_row. destruct (str_bool (str_strip line)); [| discriminate].
  intros [= <-] Hin. apply in_map_iff in Hin. destruct Hin as (p & <- & Hp).
  apply filter_In in Hp. destruct Hp as [Hp Hb].
  split; [now apply str_bool_true |]. split; [apply str_strip_idem |].
  intros H. apply str_strip_chars in H.
  now apply (str_split_no_sep ";"%char (str_strip line) p).
Qed.

(** X11. The names read from a preset file: the file gives one row for
    each line that is not blank, and every name of a row is not empty,
    has no blank at either end and holds no [;]. *)
Theorem preset_rows_names (lines : list string) :
  List.length (preset_rows lines)
  = List.length (filter (fun line => str_bool (str_strip line)) lines) /\
  forall row s,
    In row (preset_rows lines) -> In s row ->
    s <> EmptyString /\ str_strip s = s /\ ~ In ";"%char (list_ascii_of_string s).
Proof.
  split.
  - induction lines as [| line lines IH]; cbn [preset_rows filter]; [reflexivity |].
    unfold preset_row. destruct (str_bool (str_strip line)); cbn; now rewrite IH.
  - induction lines as [| line lines IH]; cbn [preset_rows]; [contradiction |].
    intros row s Hrow Hs.
    destruct (preset_row line) as [parts |] eqn:E.
    + destruct Hrow as [<- | Hrow]; [| now apply (IH row)].
      now apply (preset_row_names line parts).
    + now apply (IH row).
Qed.

(** ** The random grid *)

Lemma mapR_done {A B : Type} (P : A -> B -> Prop) (f : A -> result B) (l : list A) :
  (forall a, In a l -> exists b, f a = Done b /\ P a b) ->
  exists bs, mapR f l = Done bs /\ Forall2 P l bs.
Proof.
  induction l as [| a l IH]; intros H; cbn [mapR].
  - exists []. split; [reflexivity | constructor].
  - destruct (H a (or_introl eq_refl)) as (b & -> & Hb).
    destruct IH as (bs & -> & Hbs); [intros a' Ha'; apply H; now right |].
    exists (b :: bs). split; [reflexivity | now constructor].
Qed.

Lemma mapR_inv {A B : Type} (f : A -> result B) (l : list A) (bs : list B) :
  mapR f l = Done bs -> Forall2 (fun a b => f a = Done b) l bs.
Proof.
  revert bs. induction l as [| a l IH]; intros bs; cbn [mapR].
  - intros [= <-]. constructor.
  - destruct (f a) as [b | |] eqn:E; try discriminate.
    destruct (mapR f l) as [bs' | |]; try discriminate.
    intros [= <-]. constructor; [exact E | now apply IH].
Qed.

Lemma in_firstn {A : Type} (n : nat) (l : list A) (x : A) :
  In x (firstn n l) -> In x l.
Proof.
  intros H. rewrite <- (firstn_skipn n l). apply in_or_app. now left.
Qed.

Lemma in_skipn {A : Type} (n : nat) (l : list A) (x : A) :
  In x (skipn n l) -> In x l.
Proof.
  intros H. rewrite <- (firstn_skipn n l). apply in_or_app. now right.
Qed.

Lemma py_slice_incl {A : Type} (l : list A) (a b : Z) (x : A) :
  In x (py_slice l a b) -> In x l.
Proof.
  unfold py_slice. intros H. apply in_firstn in H. eapply in_skipn. exact H.
Qed.

(** A slice of whole rows of a list cut into rows of [W]. *)
Lemma py_slice_chunk {A : Type} (l : list A) (W H i : nat) :
  List.length l = (H * W)%nat -> (i < H)%nat ->
  py_slice l (Z.of_nat i * Z.of_nat W) ((Z.of_nat i + 1) * Z.of_nat W)
  = firstn W (skipn (i * W) l).
Proof.
  intros Hl Hi. unfold py_slice. cbv zeta.
  assert (Ha : (i * W <= H * W)%nat) by (apply Nat.mul_le_mono_r; lia).
  assert (Hb : (S i * W <= H * W)%nat) by (apply Nat.mul_le_mono_r; lia).
  destruct (Z.ltb_spec (Z.of_nat i * Z.of_nat W) 0) as [N | _]; [lia |].
  destruct (Z.ltb_spec ((Z.of_nat i + 1) * Z.of_nat W) 0) as [N | _]; [lia |].
  rewrite Hl.
  rewrite !Z.min_l by lia.
  replace (Z.to_nat ((Z.of_nat i + 1) * Z.of_nat W - Z.of_nat i * Z.of_nat W)) with W by lia.
  replace (Z.to_nat (Z.of_nat i * Z.of_nat W)) with (i * W)%nat by lia.
  reflexivity.
Qed.

Lemma chunks_concat {A : Type} (W H : nat) (l : list A) :
  List.length l = (H * W)%nat ->
  concat (map (fun i => firstn W (skipn (i * W) l)) (seq 0 H)) = l.
Proof.
  revert l. induction H as [| H IH]; intros l Hl.
  - cbn in *. now destruct l.
  - transitivity (firstn W l ++ skipn W l); [| apply firstn_skipn].
    cbn [seq map concat]. f_equal.
    rewrite <- seq_shift, map_map, <- (IH (skipn W l)).
    + apply f_equal, map_ext. intros i.
      rewrite skipn_skipn. do 2 f_equal. lia.
    + rewrite length_skipn, Hl. cbn. lia.
Qed.

Lemma py_range_nat (H : nat) : py_range (Z.of_nat H) = map Z.of_nat (seq 0 H).
Proof. unfold py_range. now rewrite Nat2Z.id. Qed.

Lemma chord_repr_valid (cs : list Chord) (i : nat) :
  (i < List.length cs)%nat ->
  exists nm, chord_repr cs i = Done nm
             /\ exists c, nth_error cs i = Some c /\ repr c = nm.
Proof.
  intros Hi. unfold chord_repr.
  destruct (nth_error cs i) as [c |] eqn:E.
  - exists (repr c). split; [reflexivity |]. now exists c.
  - apply nth_error_None in E. lia.
Qed.

(** The names of a grid of places of the database. *)
Lemma grid_names_done (cs : list Chord) (sel : list nat) (grid : list (list nat)) :
  Forall (fun i => (i < List.length cs)%nat) sel ->
  (forall row i, In row grid -> In i row -> In i sel) ->
  exists names,
    mapR (mapR (chord_repr cs)) grid = Done names /\
    Forall2 (Forall2 (fun i nm => exists c, nth_error cs i = Some c /\ repr c = nm))
            grid names.
Proof.
  intros Hsel Hin. rewrite Forall_forall in Hsel.
  apply mapR_done. intros row Hrow.
  apply mapR_done. intros i Hi.
  apply chord_repr_valid, Hsel. now apply (Hin row).
Qed.

(** X12. The random grid: for a width and a height that are not
    negative and a sample of [w * h] distinct places of the database,
    [random_preset] lays the sample out in [h] rows of [w]; the cells
    of the grid are the sample in order, so no chord is on offer twice,
    and the names of the grid are the [repr] of its chords. *)
Theorem random_preset_grid (st : Trainer) (sel : list nat) :
  (0 <= random_w st)%Z -> (0 <= random_h st)%Z ->
  (random_w st * random_h st <= Z.of_nat (List.length (chords st)))%Z ->
  List.length sel = Z.to_nat (random_w st * random_h st) ->
  NoDup sel -> Forall (fun i => (i < List.length (chords st))%nat) sel ->
  exists st',
    random_preset st sel = (Done tt, st') /\
    List.length (grid_indices st') = Z.to_nat (random_h st) /\
    Forall (fun row => List.length row = Z.to_nat (random_w st)) (grid_indices st') /\
    concat (grid_indices st') = sel /\
    flat_indices st' = sel /\ NoDup (flat_indices st') /\
    Forall2 (Forall2 (fun i nm => exists c, nth_error (chords st) i = Some c
                                            /\ repr c = nm))
            (grid_indices st') (grid_names st') /\
    same_settings st st'.
Proof.
  intros Hw Hh Hk Hlen Hnd Hval. unfold random_preset. cbv zeta.
  destruct (Z.ltb_spec (random_w st * random_h st) 0) as [N | _]; [lia |].
  destruct (Z.ltb_spec (Z.of_nat (List.length (chords st)))
                       (random_w st * random_h st)) as [N | _]; [lia |].
  cbn [orb chords set_grid_indices].
  set (W := Z.to_nat (random_w st)). set (H := Z.to_nat (random_h st)).
  assert (HW : random_w st = Z.of_nat W) by (unfold W; lia).
  assert (HH : random_h st = Z.of_nat H) by (unfold H; lia).
  assert (Hl : List.length sel = (H * W)%nat) by (rewrite Hlen, HW, HH; lia).
  assert (Hgrid : map (fun i => py_slice sel (i * random_w st) ((i + 1) * random_w st))
                      (py_range (random_h st))
                  = map (fun i => firstn W (skipn (i * W) sel)) (seq 0 H)).
  { rewrite HH, py_range_nat, map_map, HW. apply map_ext_in.
    intros i Hi. apply in_seq in Hi. apply (py_slice_chunk sel W H i Hl). lia. }
  rewrite Hgrid.
  set (grid := map (fun i => firstn W (skipn (i * W) sel)) (seq 0 H)).
  assert (Hcat : concat grid = sel) by (now apply chunks_concat).
  destruct (grid_names_done (chords st) sel grid Hval) as (names & -> & Hnames).
  { intros row i Hrow Hi. rewrite <- Hcat. apply in_concat. now exists row. }
  eexists. split; [reflexivity |]. cbn.
  split; [unfold grid; now rewrite length_map, length_seq |]. split.
  - unfold grid. rewrite Forall_map. apply Forall_forall. intros i Hi.
    apply in_seq in Hi. rewrite length_firstn, length_skipn, Hl.
    assert ((i * W + W <= H * W)%nat)
      by (replace (i * W + W)%nat with (S i * W)%nat by lia;
          apply Nat.mul_le_mono_r; lia).
    lia.
  - split; [exact Hcat |]. split; [exact Hcat |]. split; [now rewrite Hcat |].
    split; [exact Hnames | repeat split].
Qed.

(** ** The next chord *)

Lemma choice_nonempty {A : Type} (l : list A) (j : nat) :
  l <> [] -> exists x, choice l j = Done x /\ In x l.
Proof.
  destruct l as [| a l]; [contradiction |]. intros _.
  assert (Hlt : (j mod List.length (a :: l) < List.length (a :: l))%nat)
    by (apply Nat.mod_upper_bound; discriminate).
  exists (nth (j mod List.length (a :: l)) (a :: l) a). split; [reflexivity |].
  exact (nth_In (a :: l) a Hlt).
Qed.

Lemma choice_done {A : Type} (l : list A) (j : nat) (x : A) :
  choice l j = Done x -> In x l.
Proof.
  intros H. destruct l as [| a l]; [discriminate |].
  destruct (choice_nonempty (a :: l) j) as (y & Hy & Hin); [discriminate |].
  congruence.
Qed.

(** The state [next_chord] leaves once the chord is chosen. *)
Lemma next_chord_state (eval : string -> outcome R) (rng : nat -> R)
      (st : Trainer) (j : nat) (u : R) (pos : nat) (idx : nat) :
  choice (flat_indices st) j = Done idx ->
  snd (next_chord eval rng st j u pos)
  = set_base_freq (set_current_chord_idx st (Some idx))
                  (if Req_dec_T (pitch st) 0 then pitch st
                   else min_pitch st + (max_pitch st - min_pitch st) * u).
Proof.
  intros Hc. unfold next_chord. rewrite Hc. cbv zeta.
  change (pitch (set_current_chord_idx st (Some idx))) with (pitch st).
  change (min_pitch (set_current_chord_idx st (Some idx))) with (min_pitch st).
  change (max_pitch (set_current_chord_idx st (Some idx))) with (max_pitch st).
  destruct (Req_dec_T (pitch st) 0);
    repeat match goal with
           | |- context [match ?x with _ => _ end] => destruct x
           end; reflexivity.
Qed.

(** X13. What [next_chord] leaves behind, whether it goes on to play or
    raises on the way: a chord of the flat list is the current one; the
    base frequency is 0 when the [pitch] setting is 0 and otherwise
    the draw [min_pitch + (max_pitch - min_pitch) * u], between
    [min_pitch] and [max_pitch], the value of [pitch] playing no other
    part; the settings of the synthesis and the grid are as before. *)
Theorem next_chord_leaves
        (eval : string -> outcome R) (rng : nat -> R)
        (st : Trainer) (j : nat) (u : R) (pos : nat) :
  flat_indices st <> [] -> 0 <= u < 1 ->
  let st' := snd (next_chord eval rng st j u pos) in
  (exists idx, current_chord_idx st' = Some idx /\ In idx (flat_indices st)) /\
  (pitch st = 0 -> base_freq (synth st') = 0) /\
  (pitch st <> 0 ->
   base_freq (synth st') = min_pitch st + (max_pitch st - min_pitch st) * u /\
   Rmin (min_pitch st) (max_pitch st) <= base_freq (synth st')
   <= Rmax (min_pitch st) (max_pitch st)) /\
  same_settings st st' /\ same_tone (synth st) (synth st') /\
  grid_indices st' = grid_indices st /\ flat_indices st' = flat_indices st /\
  grid_names st' = grid_names st.
Proof.
  intros Hne Hu st'.
  destruct (choice_nonempty (flat_indices st) j Hne) as (idx & Hc & Hin).
  subst st'. rewrite (next_chord_state eval rng st j u pos idx Hc).
  cbn.
  split; [now exists idx |]. split; [| split; [| repeat split]].
  - intros Hp. destruct (Req_dec_T (pitch st) 0); [exact Hp | contradiction].
  - intros Hp. destruct (Req_dec_T (pitch st) 0) as [E | _]; [contradiction |].
    split; [reflexivity |].
    unfold Rmin, Rmax. destruct (Rle_dec (min_pitch st) (max_pitch st)); nra.
Qed.

Lemma mapR_all {A B : Type} (f : A -> result B) (l : list A) (bs : list B) :
  mapR f l = Done bs -> Forall (fun a => exists b, f a = Done b) l.
Proof.
  intros H. apply mapR_inv in H.
  induction H as [| a b l bs Hab _ IH]; constructor; [now exists b | exact IH].
Qed.

Lemma cents_done (eval : string -> outcome R) (rat : string) (x : R) :
  cents eval rat = Done x -> positive_ratio eval rat.
Proof.
  unfold cents. destruct (eval rat) as [m | e |] eqn:E; try discriminate.
  destruct (Rle_dec m 0) as [H | H]; [discriminate |].
  intros _. exists m. split; [exact E | lra].
Qed.

Lemma tooltip_cents_done (eval : string -> outcome R) (cs : list Chord)
      (i : nat) (l : list R) :
  tooltip_cents eval cs i = Done l -> playable eval cs i.
Proof.
  unfold tooltip_cents. destruct (nth_error cs i) as [c |] eqn:E; [| discriminate].
  intros H. exists c. split; [exact E |].
  apply mapR_all in H. eapply Forall_impl; [| exact H].
  intros rat [x Hx]. now apply (cents_done eval rat x).
Qed.

Lemma grid_checked (eval : string -> outcome R) (cs : list Chord)
      (grid : list (list nat)) (x : list (list (list R))) :
  mapR (mapR (tooltip_cents eval cs)) grid = Done x ->
  Forall (Forall (playable eval cs)) grid.
Proof.
  intros H. apply mapR_all in H. eapply Forall_impl; [| exact H].
  intros row [b Hb]. apply mapR_all in Hb. eapply Forall_impl; [| exact Hb].
  intros i [l Hl]. now apply (tooltip_cents_done eval cs i l).
Qed.

(** [next_chord] once the chord is chosen. *)
Lemma next_chord_chosen (eval : string -> outcome R) (rng : nat -> R)
      (st : Trainer) (j : nat) (u : R) (pos : nat) (idx : nat) :
  choice (flat_indices st) j = Done idx ->
  next_chord eval rng st j u pos
  = let st1 := set_base_freq (set_current_chord_idx st (Some idx))
                             (if Req_dec_T (pitch st) 0 then pitch st
                              else min_pitch st + (max_pitch st - min_pitch st) * u) in
    match mapR (mapR (tooltip_cents eval (chords st))) (grid_indices st) with
    | Fail e => (Fail e, st1)
    | Unfollowed => (Unfollowed, st1)
    | Done _ =>
        match grid_indices st with
        | [] => (Fail (Exn ValueError), st1)
        | _ =>
            match nth_error (chords st) idx with
            | None => (Fail IndexError, st1)
            | Some c => (Done (play_chord eval rng (synth st1) (ratios c) pos), st1)
            end
        end
    end.
Proof.
  intros Hc. unfold next_chord. rewrite Hc. cbv zeta.
  change (pitch (set_current_chord_idx st (Some idx))) with (pitch st).
  destruct (Req_dec_T (pitch st) 0); reflexivity.
Qed.

(** What [next_chord] has gone through when it returns. *)
Lemma next_chord_done (eval : string -> outcome R) (rng : nat -> R)
      (st : Trainer) (j : nat) (u : R) (pos : nat)
      (sp : Spawned Session) (st' : Trainer) :
  next_chord eval rng st j u pos = (Done sp, st') ->
  Forall (Forall (playable eval (chords st))) (grid_indices st) /\
  grid_indices st <> [] /\
  exists idx c,
    choice (flat_indices st) j = Done idx /\
    nth_error (chords st) idx = Some c /\
    sp = play_chord eval rng (synth st') (ratios c) pos.
Proof.
  intros H.
  destruct (choice (flat_indices st) j) as [idx | err0 |] eqn:Hc;
    [| unfold next_chord in H; rewrite Hc in H; discriminate
     | unfold next_chord in H; rewrite Hc in H; discriminate].
  rewrite (next_chord_chosen eval rng st j u pos idx Hc) in H. cbv zeta in H.
  destruct (mapR (mapR (tooltip_cents eval (chords st))) (grid_indices st))
    as [x | err |] eqn:Hm; try discriminate.
  apply grid_checked in Hm.
  destruct (grid_indices st) as [| row0 grid] eqn:Hg; [discriminate |].
  destruct (nth_error (chords st) idx) as [c |] eqn:Hn; [| discriminate].
  injection H as H1 H2.
  split; [exact Hm |]. split; [discriminate |].
  exists idx, c. split; [reflexivity |]. split; [first [reflexivity | assumption] |].
  rewrite <- H2. symmetry. exact H1.
Qed.

(** X14. [next_chord] starts no playback before every ratio of every
    chord on offer has evaluated to a positive number.  When it
    returns, the chord it plays is a chord of the flat list, played at
    the base frequency it has just set; if the flat list is the grid
    row after row, the ratios of that chord do not raise in the
    thread. *)
Theorem next_chord_checks_ratios
        (eval : string -> outcome R) (rng : nat -> R)
        (st : Trainer) (j : nat) (u : R) (pos : nat)
        (sp : Spawned Session) (st' : Trainer) :
  next_chord eval rng st j u pos = (Done sp, st') ->
  Forall (Forall (playable eval (chords st))) (grid_indices st) /\
  exists idx c,
    In idx (flat_indices st) /\ current_chord_idx st' = Some idx /\
    nth_error (chords st) idx = Some c /\
    thread_runs sp = _play eval rng (synth st') (ratios c) pos /\
    (flat_indices st = concat (grid_indices st) ->
     Forall (positive_ratio eval) (ratios c)).
Proof.
  intros H.
  destruct (next_chord_done eval rng st j u pos sp st' H)
    as (Hgrid & _ & idx & c & Hc & Hn & ->).
  split; [exact Hgrid |]. exists idx, c.
  pose proof (choice_done _ _ _ Hc) as Hin.
  split; [exact Hin |]. split.
  - pose proof (next_chord_state eval rng st j u pos idx Hc) as Hst.
    rewrite H in Hst. cbn [snd] in Hst. now rewrite Hst.
  - split; [exact Hn |]. split; [reflexivity |].
    intros Hflat. rewrite Hflat in Hin. apply in_concat in Hin.
    destruct Hin as (row & Hrow & Hi).
    rewrite Forall_forall in Hgrid. specialize (Hgrid row Hrow).
    rewrite Forall_forall in Hgrid. destruct (Hgrid idx Hi) as (c' & Hc' & Hpos).
    congruence.
Qed.

Lemma played_chord_positive (eval : string -> outcome R) (cs : list Chord)
      (grid : list (list nat)) (idx : nat) (c : Chord) :
  Forall (Forall (playable eval cs)) grid ->
  In idx (concat grid) -> nth_error cs idx = Some c ->
  Forall (positive_ratio eval) (ratios c).
Proof.
  intros Hgrid Hin Hc. apply in_concat in Hin. destruct Hin as (row & Hrow & Hi).
  rewrite Forall_forall in Hgrid. specialize (Hgrid row Hrow).
  rewrite Forall_forall in Hgrid. destruct (Hgrid idx Hi) as (c' & Hc' & Hpos).
  congruence.
Qed.

(** X15. With the settings in their ranges, a [next_chord] that returns
    has started a playback that builds its session: for a [pitch]
    setting other than 0, pitch bounds [0 < min_pitch <= max_pitch],
    [f0 > 0], [B0 >= 0], at least one harmonic, and a database whose
    chords have at least one ratio, the thread of the playback comes to
    a session, at the sample rate of the settings. *)
Theorem next_chord_builds_session
        (eval : string -> outcome R) (rng : nat -> R)
        (st : Trainer) (j : nat) (u : R) (pos : nat)
        (sp : Spawned Session) (st' : Trainer) :
  next_chord eval rng st j u pos = (Done sp, st') ->
  flat_indices st = concat (grid_indices st) ->
  0 <= u < 1 -> pitch st <> 0 -> 0 < min_pitch st <= max_pitch st ->
  0 < f0 (synth st) -> 0 <= B0 (synth st) -> (1 <= n_harmonics (synth st))%Z ->
  Forall (fun c => ratios c <> []) (chords st) ->
  exists s,
    thread_runs sp = Ok s /\ s_fs s = fs (synth st) /\
    min_pitch st <= base_freq (synth st') <= max_pitch st.
Proof.
  intros H Hflat Hu Hp Hmin Hf0 HB0 Hn Hdb.
  destruct (next_chord_done eval rng st j u pos sp st' H)
    as (Hgrid & _ & idx & c & Hc & Hnth & ->).
  pose proof (choice_done _ _ _ Hc) as Hin. rewrite Hflat in Hin.
  pose proof (played_chord_positive eval _ _ idx c Hgrid Hin Hnth) as Hpos.
  pose proof (next_chord_state eval rng st j u pos idx Hc) as Hst.
  rewrite H in Hst. cbn [snd] in Hst.
  destruct (Req_dec_T (pitch st) 0) as [E | _]; [contradiction |].
  assert (Hbase : base_freq (synth st')
                  = min_pitch st + (max_pitch st - min_pitch st) * u)
    by (now rewrite Hst).
  assert (Hrange : min_pitch st <= base_freq (synth st') <= max_pitch st)
    by (rewrite Hbase; nra).
  assert (Hwf : stretch_defined (synth st')).
  { unfold stretch_defined. rewrite Hst at 2 3. cbn. lra. }
  assert (Hn' : (1 <= n_harmonics (synth st'))%Z) by (now rewrite Hst).
  assert (Hne : ratios c <> []).
  { rewrite Forall_forall in Hdb. apply Hdb. eapply nth_error_In; eassumption. }
  exists (built_session eval rng (synth st') (ratios c) pos).
  cbn [thread_runs play_chord].
  split; [now apply _play_ok |]. split; [| exact Hrange].
  cbn [s_fs built_session]. now rewrite Hst.
Qed.

(** ** Next after a preset that did not load *)

Lemma next_chord_empty_grid (eval : string -> outcome R) (rng : nat -> R)
      (st : Trainer) (j : nat) (u : R) (pos : nat) :
  grid_indices st = [] -> flat_indices st <> [] ->
  fst (next_chord eval rng st j u pos) = Fail (Exn ValueError).
Proof.
  intros Hg Hne.
  destruct (choice_nonempty (flat_indices st) j Hne) as (idx & Hc & _).
  rewrite (next_chord_chosen eval rng st j u pos idx Hc). cbv zeta.
  rewrite Hg. reflexivity.
Qed.

Lemma index_row_unknown (cs : list Chord) (row : list string) (s : string) :
  In s row -> unknown_short cs s -> index_row cs row = Fail (Exn ValueError).
Proof.
  intros Hin Hu. pose proof (index_row_spec cs row) as Hspec.
  destruct (index_row cs row) as [idx | e |]; [| | contradiction].
  - exfalso. clear -Hspec Hin Hu.
    induction Hspec as [| s0 i row idx Hsi _ IH]; [contradiction |].
    destruct Hin as [-> | Hin]; [| now apply IH].
    destruct Hsi as (c & Hn & Hc & _). apply (Hu c); [| exact Hc].
    eapply nth_error_In; eassumption.
  - destruct Hspec as [-> _]. reflexivity.
Qed.

(** X16. A preset whose first row holds an unknown name leaves the
    trainer with an empty grid next to the flat list of before: the
    load raises [ValueError], and every [next_chord] after it raises
    [ValueError] too, from the maximum over the rows of an empty grid,
    without starting a playback. *)
Theorem next_chord_after_failed_load
        (st : Trainer) (lines : list string)
        (row : list string) (rest : list (list string)) (s : string) :
  preset_rows lines = row :: rest -> In s row -> unknown_short (chords st) s ->
  flat_indices st <> [] ->
  let st1 := snd (load_preset_file st lines) in
  fst (load_preset_file st lines) = Fail (Exn ValueError) /\
  grid_indices st1 = [] /\ flat_indices st1 = flat_indices st /\
  forall eval rng j u pos,
    fst (next_chord eval rng st1 j u pos) = Fail (Exn ValueError).
Proof.
  intros Hrows Hin Hu Hne st1.
  assert (Hload : load_preset_file st lines
                  = (Fail (Exn ValueError),
                     set_grid_indices (set_grid_names st (preset_rows lines)) [])).
  { unfold load_preset_file. cbn [chords grid_names set_grid_names].
    rewrite Hrows. cbn [index_rows].
    now rewrite (index_row_unknown (chords st) row s Hin Hu). }
  subst st1. rewrite Hload. cbn [fst snd].
  split; [reflexivity |]. split; [reflexivity |]. split; [reflexivity |].
  intros eval rng j u pos. now apply next_chord_empty_grid.
Qed.

(** ** How the random grid ends *)

(** X17. [random_preset] raises [ValueError], leaving the trainer as it
    was, exactly when [w * h] is negative or exceeds the number of
    chords; otherwise, on a sample of places of the database, it
    returns.  For a width and a height that are both negative it
    returns with an empty grid, and the [next_chord] that follows
    raises [IndexError]. *)
Theorem random_preset_outcome (st : Trainer) (sel : list nat) :
  let k := (random_w st * random_h st)%Z in
  let n := Z.of_nat (List.length (chords st)) in
  (~ (0 <= k <= n)%Z -> random_preset st sel = (Fail (Exn ValueError), st)) /\
  ((0 <= k <= n)%Z ->
   Forall (fun i => (i < List.length (chords st))%nat) sel ->
   fst (random_preset st sel) = Done tt) /\
  ((random_w st < 0)%Z -> (random_h st < 0)%Z -> (k <= n)%Z ->
   let st' := snd (random_preset st sel) in
   fst (random_preset st sel) = Done tt /\
   grid_indices st' = [] /\ flat_indices st' = [] /\
   forall eval rng j u pos,
     next_chord eval rng st' j u pos = (Fail IndexError, st')).
Proof.
  cbv zeta. split; [| split].
  - intros Hk. unfold random_preset. cbv zeta.
    destruct (Z.ltb_spec (random_w st * random_h st) 0) as [N | N]; [reflexivity |].
    destruct (Z.ltb_spec (Z.of_nat (List.length (chords st)))
                         (random_w st * random_h st)) as [N' | N']; [reflexivity |].
    lia.
  - intros Hk Hval. unfold random_preset. cbv zeta.
    destruct (Z.ltb_spec (random_w st * random_h st) 0) as [N | _]; [lia |].
    destruct (Z.ltb_spec (Z.of_nat (List.length (chords st)))
                         (random_w st * random_h st)) as [N | _]; [lia |].
    cbn [orb chords set_grid_indices].
    destruct (grid_names_done (chords st) sel
                (map (fun i => py_slice sel (i * random_w st) ((i + 1) * random_w st))
                     (py_range (random_h st))) Hval) as (names & -> & _);
      [| reflexivity].
    intros row i Hrow Hi. apply in_map_iff in Hrow.
    destruct Hrow as (z & <- & _). now apply py_slice_incl in Hi.
  - intros Hw Hh Hk. unfold random_preset. cbv zeta.
    destruct (Z.ltb_spec (random_w st * random_h st) 0) as [N | _]; [nia |].
    destruct (Z.ltb_spec (Z.of_nat (List.length (chords st)))
                         (random_w st * random_h st)) as [N | _]; [lia |].
    cbn [orb]. unfold py_range.
    replace (Z.to_nat (random_h st)) with 0%nat by lia.
    cbn [seq map mapR fst snd concat].
    split; [reflexivity |]. split; [reflexivity |]. split; [reflexivity |].
    reflexivity.
Qed.

(** ** Replay *)

Lemma _play_no_jitter (eval : string -> outcome R) (self : App)
      (rng1 rng2 : nat -> R) (l : list string) (pos1 pos2 : nat) :
  jitter self <= 0 ->
  _play eval rng1 self l pos1 = _play eval rng2 self l pos2.
Proof.
  intros Hj. unfold _play.
  now rewrite (partial_lists_no_jitter eval self rng1 rng2 l pos1 pos2 Hj).
Qed.

(** X18. [replay_chord] plays nothing while no chord is the current
    one.  After a [next_chord] that returned, it plays the current
    chord, which is the chord that one played, with the settings that
    one left, the base frequency it drew among them: without jitter
    its thread comes to what the thread of [next_chord] came to,
    whatever the generator gives. *)
Theorem replay_chord_repeats
        (eval : string -> outcome R) (rng : nat -> R)
        (st : Trainer) (j : nat) (u : R) (pos : nat)
        (rng' : nat -> R) (pos' : nat) :
  (current_chord_idx st = None -> replay_chord eval rng' st pos' = Done None) /\
  forall (sp : Spawned Session) (st' : Trainer),
    next_chord eval rng st j u pos = (Done sp, st') ->
    exists idx c sp',
      current_chord_idx st' = Some idx /\
      nth_error (chords st') idx = Some c /\
      sp = play_chord eval rng (synth st') (ratios c) pos /\
      sp' = play_chord eval rng' (synth st') (ratios c) pos' /\
      replay_chord eval rng' st' pos' = Done (Some sp') /\
      caller_gets sp' = Ok tt /\
      (jitter (synth st) <= 0 -> thread_runs sp' = thread_runs sp).
Proof.
  split.
  - intros Hnone. unfold replay_chord. now rewrite Hnone.
  - intros sp st' H.
    destruct (next_chord_done eval rng st j u pos sp st' H)
      as (_ & _ & idx & c & Hc & Hnth & Hsp).
    pose proof (next_chord_state eval rng st j u pos idx Hc) as Hst.
    rewrite H in Hst. cbn [snd] in Hst.
    assert (Hcur : current_chord_idx st' = Some idx) by (now rewrite Hst).
    assert (Hdb : chords st' = chords st) by (now rewrite Hst).
    exists idx, c, (play_chord eval rng' (synth st') (ratios c) pos').
    split; [exact Hcur |].
    split; [now rewrite Hdb |].
    split; [exact Hsp |].
    split; [reflexivity |].
    split; [unfold replay_chord; now rewrite Hcur, Hdb, Hnth |].
    split; [reflexivity |].
    intros Hj. rewrite Hsp. cbn [thread_runs play_chord].
    apply _play_no_jitter. now rewrite Hst.
Qed.

(** ** A pitch setting of 0 *)

Lemma mapM_forall {A B : Type} (P : B -> Prop) (f : A -> outcome B)
      (l : list A) (bs : list B) :
  (forall a b, f a = Ok b -> P b) -> mapM f l = Ok bs -> Forall P bs.
Proof.
  intros Hf. revert bs. induction l as [| a l IH]; intros bs; cbn [mapM].
  - intros [= <-]. constructor.
  - destruct (f a) as [b | |] eqn:E; cbn [bind]; try discriminate.
    destruct (mapM f l) as [bs' | |]; cbn [bind]; try discriminate.
    intros [= <-]. constructor; [now apply (Hf a) | now apply IH].
Qed.

Lemma stretched_zero (pitch B : R) (k : Z) (x : R) :
  pitch = 0 -> stretched pitch B k = Ok x -> 0 = x.
Proof.
  intros ->. unfold stretched, np_sqrt.
  destruct (Rlt_dec (1 + B * IZR (k ^ 2)) 0); cbn [bind]; [discriminate |].
  intros [= <-]. ring.
Qed.

Lemma ratio_partials_zero (eval : string -> outcome R) (rng : nat -> R) (self : App)
      (r : string) (pos : nat) (f_k amp tauk : list R) :
  base_freq self = 0 -> jitter self <= 0 ->
  ratio_partials eval rng self r pos = Ok (f_k, amp, tauk) -> Forall (eq 0) f_k.
Proof.
  intros Hb Hj. unfold ratio_partials.
  destruct (eval r) as [m | |]; cbn [bind]; try discriminate.
  destruct (calc_B self (base_freq self * m)) as [B | |]; cbn [bind]; try discriminate.
  destruct (mapM _ _) as [fk | |] eqn:Hfk; cbn [bind]; try discriminate.
  destruct (Rlt_dec 0 (jitter self)) as [H | _]; [lra |].
  intros [= <- _ _].
  assert (Hz : base_freq self * m = 0) by (rewrite Hb; ring).
  apply (mapM_forall (eq 0) _ _ _
                     (fun k x => stretched_zero (base_freq self * m) B k x Hz) Hfk).
Qed.

Lemma partial_lists_zero (eval : string -> outcome R) (rng : nat -> R) (self : App)
      (l : list string) (pos : nat) (fl al tl : list (list R)) :
  base_freq self = 0 -> jitter self <= 0 ->
  partial_lists eval rng self l pos = Ok (fl, al, tl) ->
  Forall (eq 0) (concat fl) /\ List.length fl = List.length l.
Proof.
  intros Hb Hj. revert pos fl al tl.
  induction l as [| r l IH]; intros pos fl al tl; cbn [partial_lists].
  - intros [= <- _ _]. split; [constructor | reflexivity].
  - destruct (ratio_partials eval rng self r pos) as [[[f_k amp] tauk] | |] eqn:Hr.
    + destruct (partial_lists eval rng self l (pos + draws self))
        as [[[fl' al'] tl'] | |] eqn:Hrest; try discriminate.
      intros [= <- _ _]. destruct (IH _ _ _ _ Hrest) as [Hz Hlen].
      split; [| cbn; now rewrite Hlen].
      cbn [concat]. apply Forall_app. split; [| exact Hz].
      now apply (ratio_partials_zero eval rng self r pos f_k amp tauk).
    + discriminate.
    + destruct (partial_lists eval rng self l (pos + draws self)); discriminate.
Qed.

Lemma _play_at_rest (eval : string -> outcome R) (rng : nat -> R) (self : App)
      (l : list string) (pos : nat) (s : Session) :
  base_freq self = 0 -> jitter self <= 0 ->
  _play eval rng self l pos = Ok s -> at_rest s.
Proof.
  intros Hb Hj Hplay.
  destruct (_play_initial _ _ _ _ _ _ Hplay) as (_ & _ & Hph).
  assert (Hf : Forall (eq 0) (f_list s)).
  { revert Hplay. unfold _play.
    destruct (partial_lists eval rng self l pos) as [[[fl al] tl] | e |] eqn:Hl;
      try discriminate.
    destruct (partial_lists_zero _ _ _ _ _ _ _ _ Hb Hj Hl) as [Hz _].
    destruct fl as [| f1 fl]; cbn [np_concatenate bind]; try discriminate.
    destruct (np_concatenate al) as [ac | |]; cbn [bind]; try discriminate.
    destruct (np_concatenate tl) as [tc | |]; cbn [bind]; try discriminate.
    destruct (np_div 0.3 (np_sum ac)) as [nm | |]; cbn [bind]; try discriminate.
    intros [= <-]. exact Hz. }
  split; [exact Hf |]. rewrite Hph, Forall_map. apply Forall_forall. reflexivity.
Qed.

Lemma np_mod_0 (y : R) : np_mod 0 y = 0.
Proof.
  unfold np_mod. replace (0 / y) with (INR 0) by (cbn; unfold Rdiv; ring).
  rewrite Int_part_INR. cbn. ring.
Qed.

Lemma at_rest_advance (s : Session) (n : nat) : at_rest s -> at_rest (advance s n).
Proof.
  intros [Hf Hp]. split; [exact Hf |].
  unfold advance; cbn [phases]. rewrite Forall_map. apply Forall_forall.
  intros [phase f] Hin. cbn [fst snd].
  rewrite Forall_forall in Hf, Hp.
  rewrite <- (Hp phase (in_combine_l _ _ _ _ Hin)).
  rewrite <- (Hf f (in_combine_r _ _ _ _ Hin)).
  replace (0 + 2 * PI * 0 * (INR n / IZR (s_fs s))) with 0 by ring.
  symmetry. apply np_mod_0.
Qed.

Lemma rows_in_f (s : Session) (phase f amp tau : R) :
  In (phase, f, (amp, tau)) (rows s) -> In f (f_list s).
Proof.
  unfold rows. intros H. apply in_combine_l in H. now apply in_combine_r in H.
Qed.

Lemma at_rest_sample (s : Session) (ti : R) : at_rest s -> 0 = sample_value s ti.
Proof.
  intros [Hf Hp]. unfold sample_value.
  rewrite np_sum_zeros; [ring |].
  rewrite Forall_map. apply Forall_forall. intros [[phase f] [amp tau]] Hin.
  rewrite Forall_forall in Hf, Hp.
  destruct (rows_in s _ _ _ _ Hin) as (Hphase & _ & _).
  rewrite <- (Hp phase Hphase), <- (Hf f (rows_in_f s _ _ _ _ Hin)).
  unfold partial_value.
  replace (0 + 2 * PI * 0 * ti) with 0 by ring.
  rewrite sin_0. ring.
Qed.

Lemma at_rest_stream (blocks : list nat) (s : Session) :
  at_rest s -> s_fs s <> 0%Z -> Forall nonzero (tau_list s) ->
  Forall (rendered (eq 0)) (fst (output_stream s blocks)).
Proof.
  revert s. induction blocks as [| frames blocks IH]; intros s Hs Hfs Htau;
    cbn [output_stream].
  - constructor.
  - rewrite (callback_ok s frames Hfs Htau).
    specialize (IH (advance s frames) (at_rest_advance s frames Hs) Hfs Htau).
    destruct (output_stream (advance s frames) blocks) as [os s''].
    cbn [fst] in *. constructor; [| exact IH].
    cbn [rendered]. rewrite Forall_map. apply Forall_forall.
    intros ti _. now apply at_rest_sample.
Qed.

Lemma partial_lists_rows (eval : string -> outcome R) (rng : nat -> R) (self : App)
      (l : list string) (pos : nat) (fl al tl : list (list R)) :
  partial_lists eval rng self l pos = Ok (fl, al, tl) ->
  List.length fl = List.length l.
Proof.
  revert pos fl al tl. induction l as [| r l IH]; intros pos fl al tl;
    cbn [partial_lists].
  - intros [= <- _ _]. reflexivity.
  - destruct (ratio_partials eval rng self r pos) as [[[f_k amp] tauk] | |].
    + destruct (partial_lists eval rng self l (pos + draws self))
        as [[[fl' al'] tl'] | |] eqn:Hrest; try discriminate.
      intros [= <- _ _]. cbn. f_equal. now apply (IH _ _ _ _ Hrest).
    + discriminate.
    + destruct (partial_lists eval rng self l (pos + draws self)); discriminate.
Qed.

Lemma partial_lists_returns (eval : string -> outcome R) (rng : nat -> R) (self : App)
      (l : list string) (pos : nat) :
  (forall r p, In r l -> exists x, ratio_partials eval rng self r p = Ok x) ->
  exists x, partial_lists eval rng self l pos = Ok x.
Proof.
  revert pos. induction l as [| r l IH]; intros pos H; cbn [partial_lists].
  - now exists ([], [], []).
  - destruct (H r pos (or_introl eq_refl)) as ([[f_k amp] tauk] & ->).
    destruct (IH (pos + draws self)%nat) as ([[fl al] tl] & ->);
      [intros r' p Hr'; apply H; now right |].
    now eexists.
Qed.

(** [_play] comes to a session when there is a ratio, a harmonic, and
    every pass of the ratio loop gives real arrays. *)
Lemma _play_returns (eval : string -> outcome R) (rng : nat -> R) (self : App)
      (l : list string) (pos : nat) :
  l <> [] -> (1 <= n_harmonics self)%Z ->
  (forall r p, In r l -> exists x, ratio_partials eval rng self r p = Ok x) ->
  exists s, _play eval rng self l pos = Ok s.
Proof.
  intros Hne Hn H.
  destruct (partial_lists_returns eval rng self l pos H) as ([[fl al] tl] & Hl).
  unfold _play. rewrite Hl.
  destruct (partial_lists_inv _ _ _ _ _ _ _ _ Hl) as [-> ->].
  pose proof (partial_lists_rows _ _ _ _ _ _ _ _ Hl) as Hlen.
  destruct l as [| r l]; [contradiction |].
  destruct fl as [| f1 fl]; [discriminate |].
  cbn [map np_concatenate bind].
  change (concat (map (amplitude self) (harmonics self)
                  :: map (fun _ : string => map (amplitude self) (harmonics self)) l))
    with (amplitudes self (r :: l)).
  unfold np_div.
  pose proof (np_sum_pos _ (amplitudes_nonempty self (r :: l) Hne Hn)
                         (amplitudes_pos self (r :: l))).
  destruct (Req_dec_T (np_sum (amplitudes self (r :: l))) 0) as [E | _]; [lra |].
  now eexists.
Qed.

Lemma ratio_partials_zero_returns (eval : string -> outcome R) (rng : nat -> R)
      (self : App) (r : string) (pos : nat) (m : R) :
  eval r = Ok m -> base_freq self = 0 -> f0 self <> 0 -> 0 < beta self ->
  exists x, ratio_partials eval rng self r pos = Ok x.
Proof.
  intros Hm Hb Hf0 Hbeta. unfold ratio_partials. rewrite Hm. cbn [bind].
  unfold calc_B, py_div.
  destruct (Req_dec_T (f0 self) 0) as [E | _]; [contradiction |]. cbn [bind].
  assert (Hz : base_freq self * m / f0 self = 0) by (rewrite Hb; unfold Rdiv; ring).
  unfold py_pow. rewrite Hz.
  destruct (Rlt_dec 0 0) as [H | _]; [lra |].
  destruct (Req_dec_T 0 0) as [_ | N]; [| contradiction].
  destruct (Rlt_dec 0 (beta self)) as [_ | N]; [| contradiction].
  cbn [bind].
  rewrite (mapM_pure _ (fun k => base_freq self * m * IZR k
                                 * sqrt (1 + B0 self * 0 * IZR k ^ 2))).
  - cbn [bind]. now eexists.
  - intros k _. apply stretched_ok. lra.
Qed.

(** X19. A [pitch] setting of 0 silences the trainer.  On a trainer
    whose flat list is its flattened grid and whose chords all have a
    ratio, a [next_chord] that returns has set the base frequency to 0,
    and, without jitter, with [f0] not zero, a positive [beta], at
    least one harmonic and a sample rate and a decay time that are not
    zero, the playback it starts builds a session whose frequencies are
    all 0 and whose every sample is 0. *)
Theorem zero_pitch_silence
        (eval : string -> outcome R) (rng : nat -> R)
        (st : Trainer) (j : nat) (u : R) (pos : nat)
        (sp : Spawned Session) (st' : Trainer) (blocks : list nat) :
  next_chord eval rng st j u pos = (Done sp, st') ->
  flat_indices st = concat (grid_indices st) ->
  pitch st = 0 -> jitter (synth st) <= 0 ->
  f0 (synth st) <> 0 -> 0 < beta (synth st) -> (1 <= n_harmonics (synth st))%Z ->
  fs (synth st) <> 0%Z -> decay_time (synth st) <> 0 ->
  Forall (fun c => ratios c <> []) (chords st) ->
  base_freq (synth st') = 0 /\
  exists s0,
    thread_runs sp = Ok s0 /\
    Forall (eq 0) (f_list s0) /\
    Forall (rendered (eq 0)) (fst (output_stream s0 blocks)).
Proof.
  intros H Hflat Hp Hj Hf0 Hbeta Hn Hfs Ht Hdb.
  destruct (next_chord_done eval rng st j u pos sp st' H)
    as (Hgrid & _ & idx & c & Hc & Hnth & ->).
  pose proof (choice_done _ _ _ Hc) as Hin. rewrite Hflat in Hin.
  pose proof (played_chord_positive eval _ _ idx c Hgrid Hin Hnth) as Hpos.
  pose proof (next_chord_state eval rng st j u pos idx Hc) as Hst.
  rewrite H in Hst. cbn [snd] in Hst.
  destruct (Req_dec_T (pitch st) 0) as [_ | N]; [| contradiction].
  assert (Hbase : base_freq (synth st') = 0) by (now rewrite Hst).
  assert (Hj' : jitter (synth st') <= 0) by (now rewrite Hst).
  assert (Hne : ratios c <> []).
  { rewrite Forall_forall in Hdb. apply Hdb. eapply nth_error_In; eassumption. }
  split; [exact Hbase |].
  destruct (_play_returns eval rng (synth st') (ratios c) pos Hne) as (s0 & Hs0).
  { now rewrite Hst. }
  { intros r p Hr. rewrite Forall_forall in Hpos.
    destruct (Hpos r Hr) as (m & Hm & _).
    apply (ratio_partials_zero_returns eval rng (synth st') r p m Hm Hbase);
      now rewrite Hst. }
  exists s0. cbn [thread_runs play_chord]. split; [exact Hs0 |].
  pose proof (_play_at_rest _ _ _ _ _ _ Hbase Hj' Hs0) as Hrest.
  split; [apply Hrest |].
  apply at_rest_stream; [exact Hrest | |].
  - destruct (_play_initial _ _ _ _ _ _ Hs0) as (-> & _). now rewrite Hst.
  - apply (_play_decay_nonzero _ _ _ _ _ _ Hs0). now rewrite Hst.
Qed.

(** ** The tooltip *)

Lemma without_self (i : nat) : without i [i] = [].
Proof. unfold without. cbn. now rewrite Nat.eqb_refl. Qed.

Lemma _unschedule_tidy (t : ToolTip) (k : Tk) :
  tidy (t, k) ->
  tidy (_unschedule t k) /\ timers (snd (_unschedule t k)) = []
  /\ _id (fst (_unschedule t k)) = None
  /\ tw (fst (_unschedule t k)) = tw t
  /\ windows (snd (_unschedule t k)) = windows k.
Proof.
  intros [Ht Hw]. unfold _unschedule.
  destruct (_id t) as [i |] eqn:Hi; cbn.
  - destruct Ht as [-> | (i' & -> & [= ->])].
    + repeat split; auto.
    + rewrite without_self. repeat split; auto.
  - destruct Ht as [-> | (i' & _ & [=])]. repeat split; auto.
Qed.

Lemma deliver_tidy (ev : tk_event) (tk : ToolTip * Tk) : tidy tk -> tidy (deliver ev tk).
Proof.
  destruct tk as [t k]. intros H.
  destruct (_unschedule_tidy t k H) as (Hu & Htim & Hid & Htw & Hwin).
  destruct ev as [| | | i]; cbn [deliver].
  - unfold _schedule. destruct (_unschedule t k) as [t1 k1].
    cbn [fst snd] in *. split; cbn.
    + right. exists (fresh k1). now rewrite Htim.
    + apply Hu.
  - unfold _hide. destruct (_unschedule t k) as [t1 k1]. cbn [fst snd] in *.
    destruct Hu as [Hu1 Hu2]. destruct (tw t1) as [w |] eqn:E.
    + split; cbn; [now left |]. rewrite Hu2. apply without_self.
    + split; [exact Hu1 | now rewrite E].
  - unfold _hide. destruct (_unschedule t k) as [t1 k1]. cbn [fst snd] in *.
    destruct Hu as [Hu1 Hu2]. destruct (tw t1) as [w |] eqn:E.
    + split; cbn; [now left |]. rewrite Hu2. apply without_self.
    + split; [exact Hu1 | now rewrite E].
  - destruct H as [Ht Hw].
    destruct (existsb (Nat.eqb i) (timers k)) eqn:Hex; [| now split].
    assert (Hnone : without i (timers k) = []).
    { destruct Ht as [E | (i' & E & _)]; rewrite E in *; [reflexivity |].
      cbn in Hex. rewrite Bool.orb_false_r in Hex. apply Nat.eqb_eq in Hex.
      subst. apply without_self. }
    rewrite Hnone. unfold _show. destruct (tw t) as [w |] eqn:E.
    + split; cbn; [now left | now rewrite E].
    + split; cbn; [now left |]. now rewrite Hw.
Qed.

Lemma tooltip_after_tidy_from (evs : list tk_event) (tk : ToolTip * Tk) :
  tidy tk -> tidy (fold_left (fun tk ev => deliver ev tk) evs tk).
Proof.
  revert tk. induction evs as [| ev evs IH]; intros tk H; cbn [fold_left].
  - exact H.
  - apply IH. now apply deliver_tidy.
Qed.

(** X20. One tooltip at most: after any sequence of events, the tooltip
    has at most one window, the one it holds in [tw], and at most one
    [after] call pending, the one it holds in [_id]. *)
Theorem tooltip_tidy (evs : list tk_event) :
  let t := fst (tooltip_after evs) in
  let k := snd (tooltip_after evs) in
  (List.length (windows k) <= 1)%nat /\ (List.length (timers k) <= 1)%nat /\
  (forall w, In w (windows k) -> tw t = Some w) /\
  (forall i, In i (timers k) -> _id t = Some i) /\
  (tw t = None -> windows k = []).
Proof.
  cbv zeta.
  assert (H : tidy (tooltip_after evs)).
  { apply tooltip_after_tidy_from. split; cbn; [now left | reflexivity]. }
  destruct (tooltip_after evs) as [t k]. destruct H as [Ht Hw]. cbn [fst snd].
  split; [rewrite Hw; destruct (tw t); cbn; lia |].
  split; [destruct Ht as [-> | (i & -> & _)]; cbn; lia |].
  split; [| split].
  - intros w. rewrite Hw. destruct (tw t) as [w0 |]; cbn; [| tauto].
    intros [<- | []]. reflexivity.
  - intros i. destruct Ht as [-> | (i0 & -> & E)]; cbn; [tauto |].
    intros [<- | []]. exact E.
  - intros E. now rewrite Hw, E.
Qed.

Lemma deliver_hidden (tk : ToolTip * Tk) (ev : tk_event) :
  tidy tk -> ev = Leave \/ ev = ButtonPress ->
  timers (snd (deliver ev tk)) = [] /\ windows (snd (deliver ev tk)) = [].
Proof.
  destruct tk as [t k]. intros H Hev.
  destruct (_unschedule_tidy t k H) as (Hu & Htim & Hid & Htw & Hwin).
  assert (Hh : timers (snd (_hide t k)) = [] /\ windows (snd (_hide t k)) = []).
  { unfold _hide. destruct (_unschedule t k) as [t1 k1]. cbn [fst snd] in *.
    destruct Hu as [Hu1 Hu2].
    destruct (tw t1) as [w |] eqn:E; cbn.
    - split; [exact Htim |]. rewrite Hu2. apply without_self.
    - split; [exact Htim | exact Hu2]. }
  destruct Hev as [-> | ->]; exact Hh.
Qed.

Lemma dues_do_nothing (dues : list tk_event) (tk : ToolTip * Tk) :
  Forall is_due dues -> timers (snd tk) = [] ->
  fold_left (fun tk ev => deliver ev tk) dues tk = tk.
Proof.
  intros Hd. revert tk. induction Hd as [| ev dues Hev _ IH]; intros [t k] Ht;
    cbn [fold_left]; [reflexivity |].
  destruct ev as [| | | i]; try contradiction.
  cbn [deliver]. cbn [snd] in Ht. rewrite Ht. cbn [existsb].
  apply IH. exact Ht.
Qed.

(** X21. No tooltip once the pointer has left: after a [Leave] or a
    [ButtonPress], whatever came before, no window exists and no
    [after] call is pending, and no [after] call coming due brings a
    window up until the next [Enter]. *)
Theorem tooltip_hidden_after_leave
        (evs : list tk_event) (ev : tk_event) (dues : list tk_event) :
  ev = Leave \/ ev = ButtonPress -> Forall is_due dues ->
  let k := snd (tooltip_after (evs ++ ev :: dues)) in
  windows k = [] /\ timers k = [] /\
  tooltip_after (evs ++ ev :: dues) = tooltip_after (evs ++ [ev]).
Proof.
  intros Hev Hd. cbv zeta. unfold tooltip_after.
  rewrite !fold_left_app. cbn [fold_left].
  set (tk := fold_left (fun tk ev => deliver ev tk) evs
                       (mkToolTip None None, mkTk [] [] 0)).
  assert (Htidy : tidy tk).
  { apply tooltip_after_tidy_from. split; cbn; [now left | reflexivity]. }
  destruct (deliver_hidden tk ev Htidy Hev) as [Ht Hw].
  rewrite (dues_do_nothing dues _ Hd Ht). now rewrite Hw, Ht.
Qed.

(** ** When the next chord is played *)

Lemma cents_positive (eval : string -> outcome R) (rat : string) :
  positive_ratio eval rat -> exists x, cents eval rat = Done x.
Proof.
  intros (m & Hm & Hpos). unfold cents. rewrite Hm.
  destruct (Rle_dec m 0) as [H | _]; [lra |]. now eexists.
Qed.

Lemma tooltip_cents_playable (eval : string -> outcome R) (cs : list Chord) (i : nat) :
  playable eval cs i -> exists l, tooltip_cents eval cs i = Done l.
Proof.
  intros (c & Hc & Hpos). unfold tooltip_cents. rewrite Hc.
  destruct (mapR_done (fun _ _ => True) (cents eval) (ratios c)) as (l & Hl & _).
  - intros rat Hrat. rewrite Forall_forall in Hpos.
    destruct (cents_positive eval rat (Hpos rat Hrat)) as [x Hx]. now exists x.
  - now exists l.
Qed.

Lemma grid_playable (eval : string -> outcome R) (cs : list Chord)
      (grid : list (list nat)) :
  Forall (Forall (playable eval cs)) grid ->
  exists x, mapR (mapR (tooltip_cents eval cs)) grid = Done x.
Proof.
  intros H. rewrite Forall_forall in H.
  destruct (mapR_done (fun _ _ => True) (mapR (tooltip_cents eval cs)) grid)
    as (x & Hx & _); [| now exists x].
  intros row Hrow. specialize (H row Hrow). rewrite Forall_forall in H.
  destruct (mapR_done (fun _ _ => True) (tooltip_cents eval cs) row)
    as (b & Hb & _); [| now exists b].
  intros i Hi. destruct (tooltip_cents_playable eval cs i (H i Hi)) as [l Hl].
  now exists l.
Qed.

(** The playback [next_chord] starts on a grid of playable chords. *)
Lemma next_chord_returns (eval : string -> outcome R) (rng : nat -> R)
      (st : Trainer) (j : nat) (u : R) (pos : nat) :
  flat_indices st = concat (grid_indices st) -> flat_indices st <> [] ->
  Forall (Forall (playable eval (chords st))) (grid_indices st) ->
  exists idx c,
    nth_error (chords st) idx = Some c /\
    next_chord eval rng st j u pos
    = (Done (play_chord eval rng
               (synth (snd (next_chord eval rng st j u pos))) (ratios c) pos),
       snd (next_chord eval rng st j u pos)).
Proof.
  intros Hflat Hne Hgrid.
  destruct (choice_nonempty (flat_indices st) j Hne) as (idx & Hc & Hin).
  rewrite Hflat in Hin. apply in_concat in Hin. destruct Hin as (row & Hrow & Hi).
  pose proof Hgrid as Hall. rewrite Forall_forall in Hall. specialize (Hall row Hrow).
  rewrite Forall_forall in Hall. destruct (Hall idx Hi) as (c & Hnth & _).
  exists idx, c. split; [exact Hnth |].
  rewrite (next_chord_state eval rng st j u pos idx Hc).
  rewrite (next_chord_chosen eval rng st j u pos idx Hc). cbv zeta.
  destruct (grid_playable eval (chords st) (grid_indices st) Hgrid) as [x ->].
  destruct (grid_indices st) as [| row0 grid]; [contradiction |].
  now rewrite Hnth.
Qed.


(** ** Facts on the concrete trainers *)

Lemma literal_1_25 : literal (list_ascii_of_string "1.25") = Some (125, 100)%Z.
Proof. vm_compute. reflexivity. Qed.

Lemma eval_ratio_1_25 : eval_ratio "1.25" = Ok 1.25.
Proof.
  unfold eval_ratio, eval_chars. rewrite literal_1_25.
  unfold frac; cbn [fst snd]. apply f_equal. lra.
Qed.

Lemma positive_1_25 : positive_ratio eval_ratio "1.25".
Proof. exists 1.25. split; [apply eval_ratio_1_25 | lra]. Qed.

Lemma demo_chords_playable (i : nat) :
  (i < 2)%nat -> playable eval_ratio demo_chords i.
Proof.
  intros Hi. destruct i as [| [| i]]; [| | lia].
  - eexists. split; [reflexivity |]. cbn [ratios].
    repeat constructor; [apply positive_1_0 | apply positive_1_25 | apply positive_1_5].
  - eexists. split; [reflexivity |]. cbn [ratios].
    repeat constructor; [apply positive_1_0 | apply positive_1_5].
Qed.

Lemma demo_grid_playable :
  Forall (Forall (playable eval_ratio demo_chords)) [[0; 1]; [1]]%nat.
Proof. repeat constructor; apply demo_chords_playable; lia. Qed.

Lemma demo_chords_ratios : Forall (fun c => ratios c <> []) demo_chords.
Proof. repeat constructor; discriminate. Qed.

Lemma demo_load : load_preset_file demo demo_lines = (Done tt, demo_loaded).
Proof. reflexivity. Qed.

Lemma unknown_dim : unknown_short demo_chords "dim".
Proof. intros c [<- | [<- | []]]; discriminate. Qed.

(** The playback [next_chord] starts on the loaded trainer. *)
Lemma demo_next (st : Trainer) (j : nat) (u : R) :
  chords st = demo_chords -> grid_indices st = [[0; 1]; [1]]%nat ->
  flat_indices st = [0; 1; 1]%nat ->
  exists sp st', next_chord eval_ratio draws_low st j u 0 = (Done sp, st').
Proof.
  intros Hc Hg Hf.
  destruct (next_chord_returns eval_ratio draws_low st j u 0) as (idx & c & _ & H).
  - now rewrite Hg, Hf.
  - now rewrite Hf.
  - rewrite Hc, Hg. apply demo_grid_playable.
  - eexists. eexists. exact H.
Qed.

(** ** The further facts at concrete inputs *)

Lemma stream_block_partition_witness :
  s_fs two_partials <> 0%Z /\ Forall nonzero (tau_list two_partials) /\
  exists outs o,
    fst (output_stream two_partials [4; 4; 2]%nat) = map Ok outs /\
    callback two_partials 10 = (Ok o, snd (output_stream two_partials [4; 4; 2]%nat)) /\
    concat outs = o.
Proof.
  assert (H1 : s_fs two_partials <> 0%Z) by discriminate.
  split; [exact H1 |]. split; [exact two_partials_decay |].
  destruct (stream_block_partition two_partials 4 [4; 2]%nat H1 two_partials_decay)
    as (outs & o & Ho & _ & Hc & Hcat).
  exists outs, o. split; [exact Ho |]. split; [exact Hc | exact Hcat].
Defined.

Lemma samples_within_headroom_witness :
  _play eval_ratio draws_low scenario ["1.0"%string; "1.5"%string] 0 = Ok two_partials /\
  (0 < fs scenario)%Z /\ 0 < decay_time scenario /\
  Forall (rendered within_headroom) (fst (output_stream two_partials [4; 4]%nat)).
Proof.
  assert (H1 : (0 < fs scenario)%Z) by reflexivity.
  assert (H2 : 0 < decay_time scenario) by (cbn; lra).
  split; [apply scenario_play |]. split; [exact H1 |]. split; [exact H2 |].
  exact (samples_within_headroom eval_ratio draws_low scenario _ 0 two_partials
                                 [4; 4]%nat (scenario_play draws_low 0) H1 H2).
Defined.

Lemma samples_decay_witness :
  _play eval_ratio draws_low scenario ["1.0"%string; "1.5"%string] 0 = Ok two_partials /\
  (0 < fs scenario)%Z /\ 0 < decay_time scenario /\ 0 <= decay_exponent scenario /\
  exists out,
    fst (callback (snd (output_stream two_partials [4; 4]%nat)) 2) = Ok out /\
    List.length out = 2%nat.
Proof.
  assert (H1 : (0 < fs scenario)%Z) by reflexivity.
  assert (H2 : 0 < decay_time scenario) by (cbn; lra).
  assert (H3 : 0 <= decay_exponent scenario) by (cbn; lra).
  split; [apply scenario_play |]. split; [exact H1 |]. split; [exact H2 |].
  split; [exact H3 |].
  destruct (samples_decay eval_ratio draws_low scenario _ 0 two_partials
                          [4; 4]%nat 2 (scenario_play draws_low 0) H1 H2 H3)
    as (out & Ho & Hl & _).
  exists out. split; [exact Ho | exact Hl].
Defined.

Lemma first_sample_zero_witness :
  _play eval_ratio draws_low scenario ["1.0"%string; "1.5"%string] 0 = Ok two_partials /\
  fs scenario <> 0%Z /\ decay_time scenario <> 0 /\
  exists out, fst (callback two_partials 4) = Ok (0 :: out).
Proof.
  assert (H1 : fs scenario <> 0%Z) by discriminate.
  assert (H2 : decay_time scenario <> 0) by (cbn; lra).
  split; [apply scenario_play |]. split; [exact H1 |]. split; [exact H2 |].
  exact (first_sample_zero eval_ratio draws_low scenario _ 0 two_partials 3
                           (scenario_play draws_low 0) H1 H2).
Defined.

Lemma arrays_aligned_witness :
  _play eval_ratio draws_low scenario ["1.0"%string; "1.5"%string] 0 = Ok two_partials /\
  aligned 2 (snd (output_stream two_partials [4; 4]%nat)).
Proof.
  split; [apply scenario_play |].
  exact (proj1 (arrays_aligned eval_ratio draws_low scenario _ 0 two_partials
                               [4; 4]%nat (scenario_play draws_low 0))).
Defined.

Lemma partials_sharp_and_ordered_witness :
  stretch_defined four_harmonics /\ (1 <= n_harmonics four_harmonics)%Z /\
  jitter four_harmonics = 0 /\ ["1.0"%string] <> [] /\
  Forall (positive_ratio eval_ratio) ["1.0"%string] /\
  exists s, _play eval_ratio draws_low four_harmonics ["1.0"%string] 0 = Ok s.
Proof.
  assert (H1 : (1 <= n_harmonics four_harmonics)%Z) by (cbn; lia).
  assert (H2 : jitter four_harmonics = 0) by reflexivity.
  assert (H3 : ["1.0"%string] <> []) by discriminate.
  assert (H4 : Forall (positive_ratio eval_ratio) ["1.0"%string])
    by (repeat constructor; apply positive_1_0).
  repeat (split; [assumption || apply four_harmonics_defined |]).
  destruct (partials_sharp_and_ordered eval_ratio draws_low four_harmonics
              ["1.0"%string] 0 four_harmonics_defined H1 H2 H3 H4) as (s & Hs & _).
  now exists s.
Defined.

Lemma calc_B_law_witness :
  0 < f0 scenario /\ calc_B scenario (f0 scenario) = Ok (B0 scenario).
Proof.
  assert (H : 0 < f0 scenario) by (cbn; lra).
  split; [exact H |]. exact (proj1 (calc_B_law scenario H)).
Defined.

Lemma play_chord_build_errors_witness :
  eval_ratio "1.0" = Ok 1 /\ f0 no_reference = 0 /\
  thread_runs (play_chord eval_ratio draws_low no_reference ["1.0"%string] 0)
  = Raise ZeroDivisionError /\
  thread_runs (play_chord eval_ratio draws_low no_reference [] 0) = Raise ValueError.
Proof.
  assert (H : f0 no_reference = 0) by reflexivity.
  destruct (play_chord_build_errors eval_ratio draws_low no_reference
              "1.0"%string [] 0 1 eval_ratio_1_0) as (He & Hz & _).
  split; [exact eval_ratio_1_0 |]. split; [exact H |].
  split; [exact (Hz H) | exact He].
Defined.

Lemma load_preset_file_sound_witness :
  load_preset_file demo demo_lines = (Done tt, demo_loaded) /\
  grid_names demo_loaded = preset_rows demo_lines /\
  flat_indices demo_loaded = concat (grid_indices demo_loaded).
Proof.
  destruct (load_preset_file_sound demo demo_lines demo_loaded demo_load)
    as (Hn & _ & Hf & _).
  split; [exact demo_load |]. split; [exact Hn | exact Hf].
Defined.

Lemma load_preset_file_unknown_witness :
  In "dim"%string ["maj"; "dim"]%string /\ unknown_short (chords demo_loaded) "dim" /\
  fst (load_preset_file demo_loaded bad_lines) = Fail (Exn ValueError) /\
  flat_indices (snd (load_preset_file demo_loaded bad_lines)) = flat_indices demo_loaded.
Proof.
  assert (Hin : In "dim"%string ["maj"; "dim"]%string) by (right; left; reflexivity).
  destruct (load_preset_file_unknown demo_loaded bad_lines) as (_ & Hiff & Hst).
  assert (Hfail : fst (load_preset_file demo_loaded bad_lines) = Fail (Exn ValueError)).
  { apply Hiff. exists ["maj"; "dim"]%string, "dim"%string.
    split; [left; reflexivity |]. split; [exact Hin | exact unknown_dim]. }
  split; [exact Hin |]. split; [exact unknown_dim |]. split; [exact Hfail |].
  exact (proj1 (Hst Hfail)).
Defined.

Lemma random_preset_grid_witness :
  (0 <= random_w demo)%Z /\ (0 <= random_h demo)%Z /\
  (random_w demo * random_h demo <= Z.of_nat (List.length (chords demo)))%Z /\
  List.length [1; 0]%nat = Z.to_nat (random_w demo * random_h demo) /\
  NoDup [1; 0]%nat /\
  Forall (fun i => (i < List.length (chords demo))%nat) [1; 0]%nat /\
  exists st',
    random_preset demo [1; 0]%nat = (Done tt, st') /\ flat_indices st' = [1; 0]%nat.
Proof.
  assert (H1 : (0 <= random_w demo)%Z) by (cbn; lia).
  assert (H2 : (0 <= random_h demo)%Z) by (cbn; lia).
  assert (H3 : (random_w demo * random_h demo
                <= Z.of_nat (List.length (chords demo)))%Z) by (cbn; lia).
  assert (H4 : List.length [1; 0]%nat = Z.to_nat (random_w demo * random_h demo))
    by reflexivity.
  assert (H5 : NoDup [1; 0]%nat).
  { constructor; [intros [H | []]; discriminate |].
    constructor; [intros [] | constructor]. }
  assert (H6 : Forall (fun i => (i < List.length (chords demo))%nat) [1; 0]%nat)
    by (repeat constructor).
  repeat (split; [assumption |]).
  destruct (random_preset_grid demo [1; 0]%nat H1 H2 H3 H4 H5 H6)
    as (st' & Hr & _ & _ & _ & Hf & _).
  exists st'. split; [exact Hr | exact Hf].
Defined.

Lemma random_preset_outcome_witness :
  (random_w demo_negative < 0)%Z /\ (random_h demo_negative < 0)%Z /\
  fst (random_preset demo_negative [1; 0]%nat) = Done tt /\
  grid_indices (snd (random_preset demo_negative [1; 0]%nat)) = [].
Proof.
  assert (H1 : (random_w demo_negative < 0)%Z) by (cbn; lia).
  assert (H2 : (random_h demo_negative < 0)%Z) by (cbn; lia).
  assert (H3 : (random_w demo_negative * random_h demo_negative
                <= Z.of_nat (List.length (chords demo_negative)))%Z) by (cbn; lia).
  destruct (random_preset_outcome demo_negative [1; 0]%nat) as (_ & _ & Hneg).
  destruct (Hneg H1 H2 H3) as (Hd & Hg & _).
  split; [exact H1 |]. split; [exact H2 |]. split; [exact Hd | exact Hg].
Defined.

Lemma next_chord_leaves_witness :
  flat_indices demo_loaded <> [] /\ 0 <= 0.5 < 1 /\
  200 <= base_freq (synth (snd (next_chord eval_ratio draws_low demo_loaded 0 0.5 0)))
  <= 400.
Proof.
  assert (H1 : flat_indices demo_loaded <> []) by discriminate.
  assert (H2 : 0 <= 0.5 < 1) by lra.
  split; [exact H1 |]. split; [exact H2 |].
  destruct (next_chord_leaves eval_ratio draws_low demo_loaded 0 0.5 0 H1 H2)
    as (_ & _ & Hb & _).
  assert (Hp : pitch demo_loaded <> 0) by (cbn; lra).
  destruct (Hb Hp) as [_ Hr]. cbn [min_pitch max_pitch demo_loaded] in Hr.
  rewrite Rmin_left, Rmax_right in Hr by lra. exact Hr.
Defined.

Lemma next_chord_checks_ratios_witness :
  exists sp st',
    next_chord eval_ratio draws_low demo_loaded 0 0.5 0 = (Done sp, st') /\
    Forall (Forall (playable eval_ratio (chords demo_loaded))) (grid_indices demo_loaded).
Proof.
  destruct (demo_next demo_loaded 0 0.5 eq_refl eq_refl eq_refl) as (sp & st' & H).
  exists sp, st'. split; [exact H |].
  exact (proj1 (next_chord_checks_ratios eval_ratio draws_low demo_loaded 0 0.5 0
                                         sp st' H)).
Defined.

Lemma next_chord_builds_session_witness :
  exists sp st',
    next_chord eval_ratio draws_low demo_loaded 0 0.5 0 = (Done sp, st') /\
    exists s, thread_runs sp = Ok s /\ s_fs s = 44100%Z.
Proof.
  destruct (demo_next demo_loaded 0 0.5 eq_refl eq_refl eq_refl) as (sp & st' & H).
  exists sp, st'. split; [exact H |].
  destruct (next_chord_builds_session eval_ratio draws_low demo_loaded 0 0.5 0 sp st' H)
    as (s & Hs & Hfs & _).
  - reflexivity.
  - lra.
  - cbn; lra.
  - cbn; lra.
  - cbn; lra.
  - cbn; lra.
  - cbn; lia.
  - exact demo_chords_ratios.
  - exists s. split; [exact Hs | exact Hfs].
Defined.

Lemma next_chord_after_failed_load_witness :
  preset_rows bad_lines = [["maj"; "dim"]]%string /\
  unknown_short (chords demo_loaded) "dim" /\ flat_indices demo_loaded <> [] /\
  fst (load_preset_file demo_loaded bad_lines) = Fail (Exn ValueError) /\
  fst (next_chord eval_ratio draws_low (snd (load_preset_file demo_loaded bad_lines))
                  0 0.5 0)
  = Fail (Exn ValueError).
Proof.
  assert (H1 : preset_rows bad_lines = [["maj"; "dim"]]%string) by reflexivity.
  assert (H2 : In "dim"%string ["maj"; "dim"]%string) by (right; left; reflexivity).
  assert (H3 : flat_indices demo_loaded <> []) by discriminate.
  destruct (next_chord_after_failed_load demo_loaded bad_lines _ _ "dim"%string
              H1 H2 unknown_dim H3) as (Hf & _ & _ & Hn).
  split; [exact H1 |]. split; [exact unknown_dim |]. split; [exact H3 |].
  split; [exact Hf | apply Hn].
Defined.

Lemma replay_chord_repeats_witness :
  exists sp st' sp',
    next_chord eval_ratio draws_low demo_loaded 0 0.5 0 = (Done sp, st') /\
    replay_chord eval_ratio draws_mid st' 7 = Done (Some sp') /\
    thread_runs sp' = thread_runs sp.
Proof.
  destruct (demo_next demo_loaded 0 0.5 eq_refl eq_refl eq_refl) as (sp & st' & H).
  destruct (proj2 (replay_chord_repeats eval_ratio draws_low demo_loaded 0 0.5 0
                                        draws_mid 7) sp st' H)
    as (_ & _ & sp' & _ & _ & _ & _ & Hr & _ & Ht).
  exists sp, st', sp'. split; [exact H |]. split; [exact Hr |].
  apply Ht. cbn. lra.
Defined.

Lemma zero_pitch_silence_witness :
  pitch demo_zero_pitch = 0 /\
  exists sp st',
    next_chord eval_ratio draws_low demo_zero_pitch 0 0.5 0 = (Done sp, st') /\
    exists s0,
      thread_runs sp = Ok s0 /\
      Forall (rendered (eq 0)) (fst (output_stream s0 [4; 4]%nat)).
Proof.
  split; [reflexivity |].
  destruct (demo_next demo_zero_pitch 0 0.5 eq_refl eq_refl eq_refl) as (sp & st' & H).
  exists sp, st'. split; [exact H |].
  destruct (zero_pitch_silence eval_ratio draws_low demo_zero_pitch 0 0.5 0 sp st'
                               [4; 4]%nat H) as (_ & s0 & Hs & _ & Hout).
  - reflexivity.
  - reflexivity.
  - cbn; lra.
  - cbn; lra.
  - cbn; lra.
  - cbn; lia.
  - discriminate.
  - cbn; lra.
  - exact demo_chords_ratios.
  - exists s0. split; [exact Hs | exact Hout].
Defined.


Lemma tooltip_hidden_after_leave_witness :
  Forall is_due [Due 0; Due 1] /\
  windows (snd (tooltip_after ([Enter; Due 0] ++ Leave :: [Due 0; Due 1]))) = [].
Proof.
  assert (H : Forall is_due [Due 0; Due 1]) by (repeat constructor).
  split; [exact H |].
  exact (proj1 (tooltip_hidden_after_leave [Enter; Due 0] Leave [Due 0; Due 1]
                                           (or_introl eq_refl) H)).
Defined.
